(** * Verification of [src/queue_manager.py] (the job scheduler of the
    ComfyUI API client)

    The development embeds the [QueueManager] class: the job store, the
    pending queue, the retry policy, cancellation, the listener lists, the
    statistics and the drain loop. The code is read twice: as sequential
    code, in a state-and-exception monad, and as a transition system in
    which worker threads interleave, one step per statement of [_worker] and
    [_process_job]. A thread that runs alone computes what the sequential
    reading computes ([solo_process_job], [solo_worker_pass]), and so does a
    call of [cancel_job] ([call_alone]).

    Modelling conventions.
    - [Dict[str, Any]] values (workflows, metadata, client responses) are
      finite maps from strings to strings: the scheduler never looks inside
      a value, except for the truthiness of [response.get('prompt_id')].
    - Readings of [time.time()] and timeouts are integers (clock ticks); only
      their order, their difference and the truthiness of a timeout matter.
    - Python [int]s are [Z].
    - The external client ([queue_prompt], [wait_for_completion],
      [interrupt_execution]) is the environment: what a call returns or
      raises is an input of the step that performs the call.
    - Listeners observe: a listener returns or raises, and does not call back
      into the scheduler. Every invocation is recorded in the ghost field
      [calls]; the ghost field [submitted] records the jobs handed to
      [client.queue_prompt], [interrupts] counts the interrupt requests.
    - In the transition system [cancel_job] is executed statement by
      statement, like the code of the workers: a call in progress is an entry
      of [callers], and steps of the workers can take place between its test
      of the status (lines 159, 165) and its write (lines 160, 169). The
      other operations of the caller ([add_job], [on], [start], [stop],
      [pause], [resume]) are one step each: no statement of a worker or of
      [cancel_job] reads what they have written half-way, or writes what they
      have read.
    - [clear_completed] is not an action of the transition system: there the
      job store only grows, and the job object a worker or a call of
      [cancel_job] holds is the one stored under its id. [clear_completed] is
      read as sequential code, and the statements about the transition system
      are statements about the schedules in which it is not called. *)

From stdpp Require Import base gmap list strings pretty.
From Stdlib Require Import ZArith Lia Ascii.

Abbreviation Dict := (gmap string string).

(** ** Exceptions

    The exceptions an [except Exception] clause catches. *)

Inductive exn : Type :=
  | ValueError (msg : string)
  | RuntimeError (msg : string)
  | TimeoutError (msg : string)
  | ConnectionError (msg : string).

(** [str(e)] *)
Definition str (e : exn) : string :=
  match e with
  | ValueError m | RuntimeError m | TimeoutError m | ConnectionError m => m
  end.

(** ** Jobs *)

Inductive JobStatus : Type := PENDING | RUNNING | COMPLETED | FAILED | CANCELLED.

Global Instance JobStatus_eq_dec : EqDecision JobStatus.
Proof. solve_decision. Defined.

Record Job : Type := mkJob {
  job_id : string;
  workflow : Dict;
  status : JobStatus;
  prompt_id : option string;
  result : option Dict;
  error : option string;
  metadata : Dict;
  created_at : Z;
  started_at : option Z;
  completed_at : option Z;
  retry_count : Z;
}.

Definition set_status (v : JobStatus) (j : Job) : Job :=
  mkJob (job_id j) (workflow j) v (prompt_id j) (result j) (error j)
        (metadata j) (created_at j) (started_at j) (completed_at j) (retry_count j).
Definition set_prompt_id (v : option string) (j : Job) : Job :=
  mkJob (job_id j) (workflow j) (status j) v (result j) (error j)
        (metadata j) (created_at j) (started_at j) (completed_at j) (retry_count j).
Definition set_result (v : option Dict) (j : Job) : Job :=
  mkJob (job_id j) (workflow j) (status j) (prompt_id j) v (error j)
        (metadata j) (created_at j) (started_at j) (completed_at j) (retry_count j).
Definition set_error (v : option string) (j : Job) : Job :=
  mkJob (job_id j) (workflow j) (status j) (prompt_id j) (result j) v
        (metadata j) (created_at j) (started_at j) (completed_at j) (retry_count j).
Definition set_started_at (v : option Z) (j : Job) : Job :=
  mkJob (job_id j) (workflow j) (status j) (prompt_id j) (result j) (error j)
        (metadata j) (created_at j) v (completed_at j) (retry_count j).
Definition set_completed_at (v : option Z) (j : Job) : Job :=
  mkJob (job_id j) (workflow j) (status j) (prompt_id j) (result j) (error j)
        (metadata j) (created_at j) (started_at j) v (retry_count j).
Definition set_retry_count (v : Z) (j : Job) : Job :=
  mkJob (job_id j) (workflow j) (status j) (prompt_id j) (result j) (error j)
        (metadata j) (created_at j) (started_at j) (completed_at j) v.

(** ** Listeners and the invocation log *)

Record Listener : Type := mkListener {
  l_name : string;
  l_run : option Job → option exn;   (* [None]: returns; [Some e]: raises [e] *)
}.

Record Call : Type := mkCall {
  c_event : string;
  c_listener : string;
  c_arg : option Job;
}.

(** ** The manager *)

Record QueueManager : Type := mkQM {
  max_concurrent : Z;
  retry_on_failure : bool;
  max_retries : Z;
  job_queue : list string;               (* queue.Queue: FIFO, put at the tail *)
  jobs : gmap string Job;
  running_jobs : list string;
  running : bool;
  paused : bool;
  callbacks : gmap string (list Listener);
  calls : list Call;                     (* ghost *)
  submitted : list string;               (* ghost *)
  interrupts : nat;                      (* ghost *)
}.

Definition set_job_queue (v : list string) (s : QueueManager) : QueueManager :=
  mkQM (max_concurrent s) (retry_on_failure s) (max_retries s) v (jobs s)
       (running_jobs s) (running s) (paused s) (callbacks s) (calls s)
       (submitted s) (interrupts s).
Definition set_jobs (v : gmap string Job) (s : QueueManager) : QueueManager :=
  mkQM (max_concurrent s) (retry_on_failure s) (max_retries s) (job_queue s) v
       (running_jobs s) (running s) (paused s) (callbacks s) (calls s)
       (submitted s) (interrupts s).
Definition set_running_jobs (v : list string) (s : QueueManager) : QueueManager :=
  mkQM (max_concurrent s) (retry_on_failure s) (max_retries s) (job_queue s) (jobs s)
       v (running s) (paused s) (callbacks s) (calls s)
       (submitted s) (interrupts s).
Definition set_running (v : bool) (s : QueueManager) : QueueManager :=
  mkQM (max_concurrent s) (retry_on_failure s) (max_retries s) (job_queue s) (jobs s)
       (running_jobs s) v (paused s) (callbacks s) (calls s)
       (submitted s) (interrupts s).
Definition set_paused (v : bool) (s : QueueManager) : QueueManager :=
  mkQM (max_concurrent s) (retry_on_failure s) (max_retries s) (job_queue s) (jobs s)
       (running_jobs s) (running s) v (callbacks s) (calls s)
       (submitted s) (interrupts s).
Definition set_callbacks (v : gmap string (list Listener)) (s : QueueManager)
  : QueueManager :=
  mkQM (max_concurrent s) (retry_on_failure s) (max_retries s) (job_queue s) (jobs s)
       (running_jobs s) (running s) (paused s) v (calls s)
       (submitted s) (interrupts s).
Definition set_calls (v : list Call) (s : QueueManager) : QueueManager :=
  mkQM (max_concurrent s) (retry_on_failure s) (max_retries s) (job_queue s) (jobs s)
       (running_jobs s) (running s) (paused s) (callbacks s) v
       (submitted s) (interrupts s).
Definition set_submitted (v : list string) (s : QueueManager) : QueueManager :=
  mkQM (max_concurrent s) (retry_on_failure s) (max_retries s) (job_queue s) (jobs s)
       (running_jobs s) (running s) (paused s) (callbacks s) (calls s)
       v (interrupts s).
Definition set_interrupts (v : nat) (s : QueueManager) : QueueManager :=
  mkQM (max_concurrent s) (retry_on_failure s) (max_retries s) (job_queue s) (jobs s)
       (running_jobs s) (running s) (paused s) (callbacks s) (calls s)
       (submitted s) v.

(** ** The state-and-exception monad

    A computation of the manager: it transforms the state and either raises
    or returns. A raise keeps the mutations made before it, as in Python. *)
Definition M (A : Type) : Type := QueueManager → QueueManager * (exn + A).

Definition ret {A} (a : A) : M A := λ s, (s, inr a).
Definition raise {A} (e : exn) : M A := λ s, (s, inl e).
Definition bind {A B} (m : M A) (k : A → M B) : M B :=
  λ s, match m s with
       | (s', inl e) => (s', inl e)
       | (s', inr a) => k a s'
       end.
Definition try_except {A} (m : M A) (h : exn → M A) : M A :=
  λ s, match m s with
       | (s', inl e) => h e s'
       | r => r
       end.
Definition try_finally {A} (m : M A) (f : M unit) : M A :=
  λ s, match m s with
       | (s', r) => match f s' with
                    | (s'', inl e) => (s'', inl e)
                    | (s'', inr _) => (s'', r)
                    end
       end.
Definition get : M QueueManager := λ s, (s, inr s).
Definition modify (f : QueueManager → QueueManager) : M unit := λ s, (f s, inr tt).

Global Instance M_ret : MRet M := @ret.
Global Instance M_bind : MBind M := λ A B k m, bind m k.

(** [for x in l: body(x)] *)
Fixpoint for_each {X} (l : list X) (body : X → M unit) : M unit :=
  match l with
  | [] => ret tt
  | x :: l' => body x ;; for_each l' body
  end.

(** ** [__init__] *)

Definition event_kinds : list string :=
  ["job_started"; "job_completed"; "job_failed"; "job_cancelled"; "queue_empty"]%string.

Definition __init__ (max_concurrent : Z) (retry_on_failure : bool) (max_retries : Z)
  : QueueManager :=
  mkQM max_concurrent retry_on_failure max_retries [] ∅ [] false false
       (list_to_map ((λ k, (k, [])) <$> event_kinds)) [] [] 0.

(** ** [_trigger_callbacks] and [on] *)

(** [callback(job)] *)
Definition call_listener (ev : string) (cb : Listener) (job : option Job) : M unit :=
  modify (λ s, set_calls (calls s ++ [mkCall ev (l_name cb) job]) s) ;;
  match l_run cb job with
  | Some e => raise e
  | None => ret tt
  end.

Definition _trigger_callbacks (event_type : string) (job : option Job) : M unit :=
  s ← get;
  match callbacks s !! event_type with
  | Some cbs =>
      for_each cbs (λ callback,
        try_except (call_listener event_type callback job)
                   (λ e, ret tt (* logger.error *)))
  | None => ret tt
  end.

Definition on (event_type : string) (callback : Listener) : M unit :=
  s ← get;
  match callbacks s !! event_type with
  | Some cbs => modify (set_callbacks (<[event_type := cbs ++ [callback]]> (callbacks s)))
  | None => ret tt (* logger.warning *)
  end.

(** ** The job store *)

Definition get_job (job_id : string) (s : QueueManager) : option Job :=
  jobs s !! job_id.

(** [self.jobs.values()] *)
Definition job_values (s : QueueManager) : list Job := (map_to_list (jobs s)).*2.

Definition get_jobs_by_status (st : JobStatus) (s : QueueManager) : list Job :=
  filter (λ job, status job = st) (job_values s).

(** [Job(job_id=job_id, workflow=workflow, metadata=metadata or {})], with
    [created_at] read from the clock *)
Definition new_job (job_id : string) (workflow : Dict) (metadata : option Dict)
    (now : Z) : Job :=
  mkJob job_id workflow PENDING None None None (default ∅ metadata) now None None 0.

Definition add_job (job_id : string) (workflow : Dict) (metadata : option Dict)
    (now : Z) : M Job :=
  s ← get;
  if decide (is_Some (jobs s !! job_id)) then
    raise (ValueError ("Job ID already exists: " +:+ job_id))
  else
    let job := new_job job_id workflow metadata now in
    modify (λ s, set_jobs (<[job_id := job]> (jobs s)) s) ;;
    modify (λ s, set_job_queue (job_queue s ++ [job_id]) s) ;;
    ret job.

(** Writing a field of the job object stored under [job_id]. *)
Definition update_job (job_id : string) (f : Job → Job) : M unit :=
  modify (λ s, set_jobs (alter f job_id (jobs s)) s).

(** [self.client.interrupt_execution()]: [failure] is what the call raises,
    if it raises. *)
Definition interrupt_execution (failure : option exn) : M unit :=
  modify (λ s, set_interrupts (S (interrupts s)) s) ;;
  match failure with
  | Some e => raise e
  | None => ret tt
  end.

Definition cancel_job (job_id : string) (interrupt : option exn) : M bool :=
  s ← get;
  match get_job job_id s with
  | None => ret false
  | Some job =>
      if decide (status job = PENDING) then
        update_job job_id (set_status CANCELLED) ;;
        _trigger_callbacks "job_cancelled" (Some (set_status CANCELLED job)) ;;
        ret true
      else if decide (status job = RUNNING) then
        try_except
          (interrupt_execution interrupt ;;
           update_job job_id (set_status CANCELLED) ;;
           _trigger_callbacks "job_cancelled" (Some (set_status CANCELLED job)) ;;
           ret true)
          (λ e, ret false)
      else ret false
  end.

(** ** [get_statistics] *)

(** The dictionary returned by [get_statistics], one field per key. *)
Module Stats.
Record t : Type := mk {
  total_jobs : nat;
  pending : nat;
  running : nat;
  completed : nat;
  failed : nat;
  cancelled : nat;
  queue_size : nat;
  is_running : bool;
  is_paused : bool;
}.
End Stats.

Definition get_statistics (s : QueueManager) : Stats.t :=
  Stats.mk (size (jobs s))
           (length (get_jobs_by_status PENDING s))
           (length (get_jobs_by_status RUNNING s))
           (length (get_jobs_by_status COMPLETED s))
           (length (get_jobs_by_status FAILED s))
           (length (get_jobs_by_status CANCELLED s))
           (length (job_queue s))
           (running s)
           (paused s).

(** ** [_process_job] *)

(** Running a computation for its effect on the state. *)
Definition run {A} (m : M A) (s : QueueManager) : QueueManager := (m s).1.

(** The worker holds a reference to the job object; no operation of the
    model removes an entry of [self.jobs], so the object is the one stored
    under its id. *)
Definition with_job {A} (job_id : string) (dflt : A) (k : Job → M A) : M A :=
  s ← get;
  match get_job job_id s with
  | Some job => k job
  | None => ret dflt
  end.

(** Python truthiness of [job.prompt_id] *)
Definition truthy (v : option string) : bool :=
  match v with
  | Some x => negb (String.eqb x "")
  | None => false
  end.

(** [self.running_jobs.remove(job_id)]: the first occurrence *)
Fixpoint list_remove_first (x : string) (l : list string) : list string :=
  match l with
  | [] => []
  | y :: l' => if decide (x = y) then l' else y :: list_remove_first x l'
  end.

(** [self.client.queue_prompt(job.workflow)], answered by [resp] *)
Definition queue_prompt (job_id : string) (resp : exn + Dict) : M Dict :=
  modify (λ s, set_submitted (submitted s ++ [job_id]) s) ;;
  match resp with
  | inl e => raise e
  | inr response => ret response
  end.

(** [self.client.wait_for_completion(job.prompt_id)], answered by [resp] *)
Definition client_wait_for_completion (resp : exn + Dict) : M Dict :=
  match resp with
  | inl e => raise e
  | inr history => ret history
  end.

(** Lines 187-188 *)
Definition mark_running (job_id : string) (now : Z) : M unit :=
  update_job job_id (set_status RUNNING) ;;
  update_job job_id (set_started_at (Some now)).

(** Line 189 *)
Definition acquire_slot (job_id : string) : M unit :=
  modify (λ s, set_running_jobs (running_jobs s ++ [job_id]) s).

(** Line 192 *)
Definition announce (event_type : string) (job_id : string) : M unit :=
  with_job job_id tt (λ job, _trigger_callbacks event_type (Some job)).

(** Lines 195-199: returns the truth value of [job.prompt_id] *)
Definition submit (job_id : string) (resp : exn + Dict) : M bool :=
  response ← queue_prompt job_id resp;
  update_job job_id (set_prompt_id (response !! "prompt_id"%string)) ;;
  ret (truthy (response !! "prompt_id"%string)).

(** Lines 200-206 *)
Definition await_and_complete (job_id : string) (resp : exn + Dict) (now : Z)
  : M unit :=
  history ← client_wait_for_completion resp;
  update_job job_id (set_result (Some history)) ;;
  update_job job_id (set_status COMPLETED) ;;
  update_job job_id (set_completed_at (Some now)) ;;
  announce "job_completed" job_id.

(** Lines 211-218 and 221-223: returns whether the job is to be put back on
    the queue. *)
Definition on_failure (job_id : string) (e : exn) (now : Z) : M bool :=
  update_job job_id (set_error (Some (str e))) ;;
  update_job job_id (λ job, set_retry_count (retry_count job + 1) job) ;;
  s ← get;
  with_job job_id false (λ job,
    if retry_on_failure s && bool_decide (retry_count job ≤ max_retries s)%Z then
      update_job job_id (set_status PENDING) ;;
      ret true
    else
      update_job job_id (set_status FAILED) ;;
      update_job job_id (set_completed_at (Some now)) ;;
      announce "job_failed" job_id ;;
      ret false).

(** Line 219 *)
Definition requeue (job_id : string) : M unit :=
  modify (λ s, set_job_queue (job_queue s ++ [job_id]) s).

(** Lines 226-227 *)
Definition release_slot (job_id : string) : M unit :=
  s ← get;
  if decide (job_id ∈ running_jobs s) then
    modify (set_running_jobs (list_remove_first job_id (running_jobs s)))
  else ret tt.

(** What the environment answers during one run of [_process_job]. *)
Record Attempt : Type := mkAttempt {
  a_started : Z;            (* [time.time()] at line 188 *)
  a_submit : exn + Dict;    (* [client.queue_prompt] *)
  a_await : exn + Dict;     (* [client.wait_for_completion] *)
  a_finished : Z;           (* [time.time()] at line 203 or 222 *)
}.

Definition _process_job (job_id : string) (a : Attempt) : M unit :=
  s ← get;
  match get_job job_id s with
  | None => ret tt
  | Some _ =>
      try_finally
        (try_except
           (mark_running job_id (a_started a) ;;
            acquire_slot job_id ;;
            announce "job_started" job_id ;;
            has_prompt_id ← submit job_id (a_submit a);
            if has_prompt_id : bool then
              await_and_complete job_id (a_await a) (a_finished a)
            else raise (RuntimeError "No prompt_id received"))
           (λ e,
              again ← on_failure job_id e (a_finished a);
              if again : bool then requeue job_id else ret tt))
        (release_slot job_id)
  end.

(** An attempt fails when the dispatch raises, returns no usable
    [prompt_id], or the wait for its completion raises. *)
Definition attempt_fails (a : Attempt) : bool :=
  match a_submit a with
  | inl _ => true
  | inr response =>
      negb (truthy (response !! "prompt_id"%string))
      || match a_await a with inl _ => true | inr _ => false end
  end.

(** One pass of the loop of [_worker] on a started, unpaused pool with a
    free slot: lines 245-258. *)
Definition worker_pass (a : Attempt) : M unit :=
  s ← get;
  match job_queue s with
  | [] => ret tt
  | job_id :: rest =>
      modify (set_job_queue rest) ;;
      match get_job job_id s with
      | Some job =>
          if decide (status job = CANCELLED) then ret tt
          else _process_job job_id a
      | None => _process_job job_id a
      end
  end.

(** One iteration of the loop of [_worker], lines 231-260, read as
    sequential code. With no other thread to change [paused], [running] or
    [running_jobs], the loops of lines 234 and 238 are skipped or never end,
    and the test of line 240 finds what line 231 found. *)
Inductive Iteration : Type :=
  | Left          (* the loop of line 231 has ended *)
  | Asleep        (* the thread sleeps in the loop of line 234 or 238 *)
  | Pass.         (* lines 245-258 were executed *)

Definition worker_iteration (a : Attempt) : M Iteration :=
  s ← get;
  if negb (running s) then ret Left
  else if paused s then ret Asleep
  else if bool_decide (max_concurrent s ≤ Z.of_nat (length (running_jobs s)))%Z
  then ret Asleep
  else
    try_except (worker_pass a) (λ e, ret tt (* logger.error *)) ;;
    ret Pass.

(** [_worker], for as many iterations as there are attempts: it goes on
    as long as an iteration makes its pass. *)
Fixpoint worker_loop (attempts : list Attempt) : M Iteration :=
  match attempts with
  | [] => ret Pass
  | a :: rest =>
      r ← worker_iteration a;
      match r with
      | Pass => worker_loop rest
      | _ => ret r
      end
  end.

(** ** The worker threads as an interleaving transition system *)

(** Where a worker thread stands: the statement it executes next. Every
    statement of [_worker] and of [_process_job] is a step of its own. *)
Inductive pc : Type :=
  | WLoop                              (* line 231 *)
  | WPaused                            (* line 234 *)
  | WLimit                             (* line 238 *)
  | WBreak                             (* line 241 *)
  | WGet                               (* line 246 *)
  | WCheck (job_id : string)           (* lines 251-252 *)
  | PEnter (job_id : string)           (* lines 181-182 *)
  | PStatus (job_id : string)          (* line 187 *)
  | PStartedAt (job_id : string)       (* line 188 *)
  | PAppend (job_id : string)          (* line 189 *)
  | PStarted (job_id : string)         (* line 192 *)
  | PSubmit (job_id : string)          (* line 195 *)
  | PPromptId (job_id : string) (response : Dict)   (* line 196 *)
  | PTest (job_id : string)            (* line 199 *)
  | PAwait (job_id : string)           (* line 200 *)
  | PResult (job_id : string) (history : Dict)      (* line 201 *)
  | PCompleted (job_id : string)       (* line 202 *)
  | PCompletedAt (job_id : string)     (* line 203 *)
  | PAnnounce (job_id : string)        (* line 206 *)
  | PError (job_id : string) (e : exn) (* line 212 *)
  | PRetryCount (job_id : string)      (* line 213 *)
  | PRetryTest (job_id : string)       (* line 216 *)
  | PPending (job_id : string)         (* line 218 *)
  | PRequeue (job_id : string)         (* line 219 *)
  | PFailed (job_id : string)          (* line 221 *)
  | PFailedAt (job_id : string)        (* line 222 *)
  | PAnnounceFailed (job_id : string)  (* line 223 *)
  | PFinally (job_id : string)         (* lines 226-227 *)
  | WExit.

Definition thread_step (p : pc) (now : Z) (resp : exn + Dict) (s : QueueManager)
  : QueueManager * pc :=
  match p with
  | WLoop => (s, if running s then WPaused else WExit)
  | WPaused => (s, if paused s && running s then WPaused else WLimit)
  | WLimit =>
      (s, if bool_decide (max_concurrent s ≤ Z.of_nat (length (running_jobs s)))%Z
             && running s
          then WLimit else WBreak)
  | WBreak => (s, if running s then WGet else WExit)
  | WGet =>
      match job_queue s with
      | [] => (s, WLoop)
      | job_id :: rest => (set_job_queue rest s, WCheck job_id)
      end
  | WCheck job_id =>
      match get_job job_id s with
      | Some job =>
          (s, if decide (status job = CANCELLED) then WLoop else PEnter job_id)
      | None => (s, PEnter job_id)
      end
  | PEnter job_id =>
      match get_job job_id s with
      | Some _ => (s, PStatus job_id)
      | None => (s, WLoop)
      end
  | PStatus job_id =>
      (run (update_job job_id (set_status RUNNING)) s, PStartedAt job_id)
  | PStartedAt job_id =>
      (run (update_job job_id (set_started_at (Some now))) s, PAppend job_id)
  | PAppend job_id => (run (acquire_slot job_id) s, PStarted job_id)
  | PStarted job_id => (run (announce "job_started" job_id) s, PSubmit job_id)
  | PSubmit job_id =>
      match queue_prompt job_id resp s with
      | (s', inl e) => (s', PError job_id e)
      | (s', inr response) => (s', PPromptId job_id response)
      end
  | PPromptId job_id response =>
      (run (update_job job_id (set_prompt_id (response !! "prompt_id"%string))) s,
       PTest job_id)
  | PTest job_id =>
      match get_job job_id s with
      | Some job =>
          (s, if truthy (prompt_id job) then PAwait job_id
              else PError job_id (RuntimeError "No prompt_id received"))
      | None => (s, PError job_id (RuntimeError "No prompt_id received"))
      end
  | PAwait job_id =>
      match client_wait_for_completion resp s with
      | (s', inl e) => (s', PError job_id e)
      | (s', inr history) => (s', PResult job_id history)
      end
  | PResult job_id history =>
      (run (update_job job_id (set_result (Some history))) s, PCompleted job_id)
  | PCompleted job_id =>
      (run (update_job job_id (set_status COMPLETED)) s, PCompletedAt job_id)
  | PCompletedAt job_id =>
      (run (update_job job_id (set_completed_at (Some now))) s, PAnnounce job_id)
  | PAnnounce job_id => (run (announce "job_completed" job_id) s, PFinally job_id)
  | PError job_id e =>
      (run (update_job job_id (set_error (Some (str e)))) s, PRetryCount job_id)
  | PRetryCount job_id =>
      (run (update_job job_id (λ job, set_retry_count (retry_count job + 1) job)) s,
       PRetryTest job_id)
  | PRetryTest job_id =>
      match get_job job_id s with
      | Some job =>
          (s, if retry_on_failure s
                 && bool_decide (retry_count job ≤ max_retries s)%Z
              then PPending job_id else PFailed job_id)
      | None => (s, PFinally job_id)
      end
  | PPending job_id =>
      (run (update_job job_id (set_status PENDING)) s, PRequeue job_id)
  | PRequeue job_id => (run (requeue job_id) s, PFinally job_id)
  | PFailed job_id =>
      (run (update_job job_id (set_status FAILED)) s, PFailedAt job_id)
  | PFailedAt job_id =>
      (run (update_job job_id (set_completed_at (Some now))) s,
       PAnnounceFailed job_id)
  | PAnnounceFailed job_id =>
      (run (announce "job_failed" job_id) s, PFinally job_id)
  | PFinally job_id => (run (release_slot job_id) s, WLoop)
  | WExit => (s, WExit)
  end.

(** Where a call of [cancel_job] stands: the statement it executes next. *)
Inductive cpc : Type :=
  | CLookup (job_id : string)          (* lines 155-157 *)
  | CPending (job_id : string)         (* line 159 *)
  | CRunning (job_id : string)         (* line 165 *)
  | CInterrupt (job_id : string)       (* line 168 *)
  | CWrite (job_id : string)           (* line 160; line 169 *)
  | CAnnounce (job_id : string)        (* line 161; line 170 *)
  | CReturn (r : bool).                (* lines 157, 163, 172, 175, 177 *)

(** One statement of a call of [cancel_job]. [interrupt] is what
    [client.interrupt_execution] raises, if the statement is that call and
    it raises. The call holds the job object it has read at line 155, which
    is the one stored under the id. *)
Definition caller_step (q : cpc) (interrupt : option exn) (s : QueueManager)
  : QueueManager * cpc :=
  match q with
  | CLookup job_id =>
      match get_job job_id s with
      | Some _ => (s, CPending job_id)
      | None => (s, CReturn false)
      end
  | CPending job_id =>
      match get_job job_id s with
      | Some job =>
          (s, if decide (status job = PENDING) then CWrite job_id
              else CRunning job_id)
      | None => (s, CReturn false)
      end
  | CRunning job_id =>
      match get_job job_id s with
      | Some job =>
          (s, if decide (status job = RUNNING) then CInterrupt job_id
              else CReturn false)
      | None => (s, CReturn false)
      end
  | CInterrupt job_id =>
      match interrupt_execution interrupt s with
      | (s', inl _) => (s', CReturn false)
      | (s', inr _) => (s', CWrite job_id)
      end
  | CWrite job_id =>
      (run (update_job job_id (set_status CANCELLED)) s, CAnnounce job_id)
  | CAnnounce job_id =>
      (run (announce "job_cancelled" job_id) s, CReturn true)
  | CReturn r => (s, CReturn r)
  end.

(** The manager, its worker threads and the calls of [cancel_job] that have
    been made. *)
Record Pool : Type := mkPool {
  mgr : QueueManager;
  threads : list pc;
  callers : list cpc;
}.

(** [start]: line 274 reads [num_workers or self.max_concurrent]. *)
Definition start (num_workers : option Z) (c : Pool) : Pool :=
  if running (mgr c) then c
  else
    let n := match num_workers with
             | Some n => if (n =? 0)%Z then max_concurrent (mgr c) else n
             | None => max_concurrent (mgr c)
             end in
    mkPool (set_running true (mgr c)) (threads c ++ replicate (Z.to_nat n) WLoop)
           (callers c).

(** [stop(wait=False)], and the part of [stop(wait=True)] before the joins *)
Definition stop (c : Pool) : Pool :=
  mkPool (set_running false (mgr c)) (threads c) (callers c).
Definition pause (c : Pool) : Pool :=
  mkPool (set_paused true (mgr c)) (threads c) (callers c).
Definition resume (c : Pool) : Pool :=
  mkPool (set_paused false (mgr c)) (threads c) (callers c).

(** What can happen next: an operation of the caller, the call of
    [cancel_job] (which executes nothing yet), one statement of worker [i],
    or one statement of the [k]-th call of [cancel_job]. *)
Inductive action : Type :=
  | Add (job_id : string) (workflow : Dict) (metadata : option Dict) (now : Z)
  | Cancel (job_id : string)
  | On (event_type : string) (callback : Listener)
  | Start (num_workers : option Z)
  | Stop
  | Pause
  | Resume
  | Work (i : nat) (now : Z) (resp : exn + Dict)
  | Step (k : nat) (interrupt : option exn).

Definition exec (a : action) (c : Pool) : Pool :=
  match a with
  | Add job_id workflow metadata now =>
      mkPool (run (add_job job_id workflow metadata now) (mgr c)) (threads c)
             (callers c)
  | Cancel job_id => mkPool (mgr c) (threads c) (callers c ++ [CLookup job_id])
  | On event_type callback =>
      mkPool (run (on event_type callback) (mgr c)) (threads c) (callers c)
  | Start num_workers => start num_workers c
  | Stop => stop c
  | Pause => pause c
  | Resume => resume c
  | Work i now resp =>
      match threads c !! i with
      | Some p =>
          let '(s', p') := thread_step p now resp (mgr c) in
          mkPool s' (<[i := p']> (threads c)) (callers c)
      | None => c
      end
  | Step k interrupt =>
      match callers c !! k with
      | Some q =>
          let '(s', q') := caller_step q interrupt (mgr c) in
          mkPool s' (threads c) (<[k := q']> (callers c))
      | None => c
      end
  end.

Definition execs (l : list action) (c : Pool) : Pool := foldl (λ c a, exec a c) c l.

(** ** [wait_for_completion] *)

(** What one pass of the loop of lines 321-324 reads. The workers run
    between the reads: [at_queue] is the state in which [job_queue.empty()]
    is evaluated, [at_running] the state in which [running_jobs] is read (it
    is read only if the queue was found empty), [at_clock] the clock of line
    322, and [at_end] the state in which the call raises or, after the loop,
    calls the listeners (line 327). *)
Record Poll : Type := mkPoll {
  at_queue : QueueManager;
  at_running : QueueManager;
  at_clock : Z;
  at_end : QueueManager;
}.

(** A poll during which no other thread takes a step. *)
Definition still (now : Z) (s : QueueManager) : Poll := mkPoll s s now s.

(** One evaluation of the loop condition of line 321. *)
Definition busy (p : Poll) : bool :=
  negb (bool_decide (job_queue (at_queue p) = []))
  || negb (bool_decide (running_jobs (at_running p) = [])).

(** Truthiness of the [timeout] argument *)
Definition timeout_set (timeout : option Z) : bool :=
  match timeout with
  | Some t => negb (t =? 0)%Z
  | None => false
  end.

(** The loop of lines 321-324 and line 327. Between two polls the thread
    sleeps and the workers run: [polls] lists what each pass of the loop
    reads. The result is the state in which the call ends, and what it
    raises or returns; [None]: the caller is still blocked when the list
    ends. *)
Fixpoint wait_loop (timeout : option Z) (start_time : Z)
    (polls : list Poll) : option (QueueManager * (exn + unit)) :=
  match polls with
  | [] => None
  | p :: polls' =>
      if busy p then
        if timeout_set timeout
           && bool_decide (default 0 timeout < at_clock p - start_time)%Z
        then Some (at_end p,
                   inl (TimeoutError "Queue did not complete within timeout"))
        else wait_loop timeout start_time polls'
      else Some (_trigger_callbacks "queue_empty" None (at_end p))
  end.

Definition wait_for_completion (timeout : option Z) (start_time : Z)
    (polls : list Poll) : option (QueueManager * (exn + unit)) :=
  wait_loop timeout start_time polls.

(** * Vocabulary of the statements *)

(** ** Listener calls *)

Definition log_calls (l : list Call) (s : QueueManager) : QueueManager :=
  set_calls (calls s ++ l) s.

(** One call per listener registered for [ev], in the order of the list. *)
Definition fired (ev : string) (job : option Job) (s : QueueManager) : list Call :=
  (λ cb, mkCall ev (l_name cb) job) <$> default [] (callbacks s !! ev).

(** The listener calls of [announce]. *)
Definition announced (ev : string) (job_id : string) (s : QueueManager) : list Call :=
  match jobs s !! job_id with
  | Some job => fired ev (Some job) s
  | None => []
  end.

(** ** The writes to a job *)

Definition started (now : Z) (job : Job) : Job :=
  set_started_at (Some now) (set_status RUNNING job).
Definition completed (history : Dict) (now : Z) (job : Job) : Job :=
  set_completed_at (Some now) (set_status COMPLETED (set_result (Some history) job)).
Definition attempt_failed (e : exn) (job : Job) : Job :=
  set_retry_count (retry_count job + 1) (set_error (Some (str e)) job).
(** The test of line 216, on the job as it is before line 213. *)
Definition retries (s : QueueManager) (job : Job) : bool :=
  retry_on_failure s && bool_decide (retry_count job + 1 ≤ max_retries s)%Z.
Definition failed (s : QueueManager) (e : exn) (now : Z) (job : Job) : Job :=
  if retries s job then set_status PENDING (attempt_failed e job)
  else set_completed_at (Some now) (set_status FAILED (attempt_failed e job)).

(** The write of [cancel_job]. *)
Definition cancel_update (interrupt : option exn) (job : Job) : Job :=
  match status job, interrupt with
  | PENDING, _ | RUNNING, None => set_status CANCELLED job
  | _, _ => job
  end.

(** The state [cancel_job] leaves when it cancels [job]. *)
Definition cancelled_state (jid : string) (job : Job) (s : QueueManager)
  : QueueManager :=
  let s' := set_jobs (<[jid := set_status CANCELLED job]> (jobs s)) s in
  log_calls (fired "job_cancelled" (Some (set_status CANCELLED job)) s') s'.

(** How often [job_id] was handed to [client.queue_prompt]. *)
Definition dispatches (job_id : string) (s : QueueManager) : nat :=
  length (filter (λ x, x = job_id) (submitted s)).

(** ** Threads and the jobs they work on *)

(** The job a thread has in flight: from the moment it has passed the check
    of line 252 until its last write to the job. *)
Definition in_flight (p : pc) : option string :=
  match p with
  | PEnter j | PStatus j | PStartedAt j | PAppend j | PStarted j | PSubmit j
  | PPromptId j _ | PTest j | PAwait j | PResult j _ | PCompleted j
  | PCompletedAt j | PError j _ | PRetryCount j | PRetryTest j | PPending j
  | PFailed j | PFailedAt j => Some j
  | _ => None
  end.

(** The write of one step of a thread to the job it has in flight. *)
Definition job_step (p : pc) (now : Z) (job : Job) : Job :=
  match p with
  | PStatus _ => set_status RUNNING job
  | PStartedAt _ => set_started_at (Some now) job
  | PPromptId _ response => set_prompt_id (response !! "prompt_id"%string) job
  | PResult _ history => set_result (Some history) job
  | PCompleted _ => set_status COMPLETED job
  | PCompletedAt _ | PFailedAt _ => set_completed_at (Some now) job
  | PError _ e => set_error (Some (str e)) job
  | PRetryCount _ => set_retry_count (retry_count job + 1) job
  | PPending _ => set_status PENDING job
  | PFailed _ => set_status FAILED job
  | _ => job
  end.

(** The id a thread has taken from the queue and whose outcome is open: the
    thread has neither stored a result, nor marked the job failed, nor put
    the id back. *)
Definition held (p : pc) : list string :=
  match p with
  | WCheck j | PEnter j | PStatus j | PStartedAt j | PAppend j | PStarted j
  | PSubmit j | PPromptId j _ | PTest j | PAwait j | PResult j _
  | PError j _ | PRetryCount j | PRetryTest j | PPending j | PRequeue j
  | PFailed j => [j]
  | _ => []
  end.



(** The id a thread has taken from the queue and still works on: from line
    246 to its last write to the job, or until it has put the id back. *)
Definition occupied (p : pc) : list string :=
  match p with
  | PCompleted j | PCompletedAt j | PFailedAt j => [j]
  | _ => held p
  end.

(** An id is in one place at a time, the queue or the hands of one thread,
    and it is the id of a job. *)
Definition exclusive (c : Pool) : Prop :=
  NoDup ((threads c ≫= occupied) ++ job_queue (mgr c))
  ∧ ∀ j, j ∈ (threads c ≫= occupied) ++ job_queue (mgr c) →
         is_Some (jobs (mgr c) !! j).


(** The write of one statement of a call of [cancel_job]. *)
Definition call_write (q : cpc) : option string :=
  match q with CWrite j => Some j | _ => None end.

(** A cancelled job that no thread has in flight. *)
Definition parked (job_id : string) (job : Job) (n : nat) (c : Pool) : Prop :=
  jobs (mgr c) !! job_id = Some job
  ∧ status job = CANCELLED
  ∧ dispatches job_id (mgr c) = n
  ∧ Forall (λ p, in_flight p ≠ Some job_id) (threads c).

(** What holds of every job of every pool the system reaches, [ths] being
    the threads. The last clause names the only moment at which [error] is
    set and [retry_count] is still zero: between lines 212 and 213. *)
Definition consistent_job (ths : list pc) (j : string) (job : Job) : Prop :=
  (status job = COMPLETED → is_Some (result job))
  ∧ (status job = FAILED → (0 < retry_count job)%Z ∧ result job = None)
  ∧ (0 ≤ retry_count job)%Z
  ∧ ((0 < retry_count job)%Z → is_Some (error job))
  ∧ (is_Some (error job) → (0 < retry_count job)%Z ∨ PRetryCount j ∈ ths).


(** A job record after some writes of the workers: nothing is unset, and
    [retry_count] does not decrease. *)
Definition grows (job job' : Job) : Prop :=
  (is_Some (result job) → is_Some (result job'))
  ∧ (is_Some (error job) → is_Some (error job'))
  ∧ (retry_count job ≤ retry_count job')%Z.


(** The ids of the [add_job] calls of a schedule. *)
Definition added (acts : list action) : list string :=
  acts ≫= λ a, match a with Add j _ _ _ => [j] | _ => [] end.

(** ** A thread running alone *)

(** The clock reading and the client's answer a thread consumes at [p]
    during attempt [a]. *)
Definition clock (p : pc) (a : Attempt) : Z :=
  match p with PStartedAt _ => a_started a | _ => a_finished a end.
Definition answer (p : pc) (a : Attempt) : exn + Dict :=
  match p with PSubmit _ => a_submit a | _ => a_await a end.

(** The steps of one thread, uninterrupted, until it is back at the head of
    its loop. *)
Fixpoint solo (fuel : nat) (p : pc) (a : Attempt) (s : QueueManager)
  : QueueManager * pc :=
  match fuel with
  | 0 => (s, p)
  | S fuel' =>
      let '(s', p') := thread_step p (clock p a) (answer p a) s in
      match p' with
      | WLoop => (s', p')
      | _ => solo fuel' p' a s'
      end
  end.

(** The statements of one call of [cancel_job], uninterrupted. *)
Fixpoint solo_call (fuel : nat) (q : cpc) (interrupt : option exn) (s : QueueManager)
  : QueueManager * cpc :=
  match fuel with
  | 0 => (s, q)
  | S fuel' =>
      let '(s', q') := caller_step q interrupt s in
      solo_call fuel' q' interrupt s'
  end.

(** Lines 210-227: the handler and the [finally] block. *)
Definition except_tail (j : string) (e : exn) (now : Z) : M unit :=
  try_finally
    (again ← on_failure j e now;
     if again : bool then requeue j else ret tt)
    (release_slot j).

(** The state in which [_process_job] calls [client.queue_prompt]. *)
Definition entered (j : string) (now : Z) (s : QueueManager) : QueueManager :=
  let s1 := set_running_jobs (running_jobs s ++ [j])
              (set_jobs (alter (started now) j (jobs s)) s) in
  log_calls (announced "job_started" j s1) s1.

(** ** Drain *)

(** The test of line 322. *)
Definition timed_out (timeout : option Z) (start_time now : Z) : bool :=
  timeout_set timeout && bool_decide (default 0 timeout < now - start_time)%Z.

(** * Scenarios *)

Definition fresh_pool (mc : Z) (rf : bool) (mr : Z) : Pool :=
  mkPool (__init__ mc rf mr) [] [].

(** Answers of the client. *)
Definition accepted (p : string) : exn + Dict := inr {[ "prompt_id"%string := p ]}.
Definition finished : exn + Dict := inr {[ "status"%string := "success"%string ]}.
Definition refused : exn + Dict := inl (ConnectionError "Failed to connect to ComfyUI").

(** The service is unreachable; the prompt is accepted and the wait for it
    fails; the prompt is accepted and completes. *)
Definition failing_attempt : Attempt := mkAttempt 1 refused refused 2.
Definition lost_attempt : Attempt := mkAttempt 1 (accepted "p1") refused 2.
Definition good_attempt : Attempt := mkAttempt 3 (accepted "p2") finished 4.

(** A manager with the single job ["x"]. *)
Definition one_job (mc : Z) (rf : bool) (mr : Z) : QueueManager :=
  run (add_job "x" ∅ None 0) (__init__ mc rf mr).

(** [n] steps of worker [i]; the client's answer is not consumed unless the
    step is a call of the client. *)
Definition work (i : nat) (n : nat) : list action := replicate n (Work i 1 refused).

(** The [k]-th call of [cancel_job], from where it stands to its end,
    without interruption: it has at most six statements to execute. *)
Definition call (k : nat) (interrupt : option exn) : list action :=
  replicate 6 (Step k interrupt).

(** With the default [max_retries=3], a job whose dispatch fails four
    times. *)
Definition always_failing : QueueManager :=
  run (for_each (replicate 4 failing_attempt) worker_pass) (one_job 3 true 3).


(** [max_concurrent=1], two workers, two jobs. *)
Definition limit_race : list action :=
  [Add "a" ∅ None 0; Add "b" ∅ None 0; Start (Some 2%Z)]
  ++ work 0 4 ++ work 1 4      (* both pass the check of line 238 *)
  ++ work 0 2 ++ work 1 2      (* both dequeue and pass line 252 *)
  ++ work 0 4 ++ work 1 4.     (* both execute lines 181-189 *)

(** Two listeners, the first of which raises. *)
Definition noisy : Listener := mkListener "noisy" (λ _, Some (RuntimeError "boom")).
Definition quiet : Listener := mkListener "quiet" (λ _, None).

(** [cancel_job] is called while ["x"] is [PENDING] and in the queue, and
    has passed its test of line 159 ... *)
Definition before_write : Pool :=
  execs [On "job_cancelled" quiet; Add "x" ∅ None 0; Start None;
         Cancel "x"; Step 0 None; Step 0 None]
        (fresh_pool 1 true 3).

(** ... the worker dequeues the id and passes line 252 before the write of
    line 160 ... *)
Definition overtaken : Pool := execs (work 0 6) before_write.

(** ... then the call writes [CANCELLED], calls the listeners and returns
    [True] ... *)
Definition cancelled_in_hand : Pool := execs [Step 0 None; Step 0 None] overtaken.

(** ... and the worker processes the job to its end. *)
Definition processed_after_write : Pool :=
  execs (work 0 5 ++ [Work 0 1 (accepted "p1")] ++ work 0 2
         ++ [Work 0 2 finished] ++ work 0 5)
        cancelled_in_hand.


(** The dequeued job, still [PENDING], is in no list: the drain does not
    wait for it. *)
Definition dequeued_not_marked : Pool :=
  execs ([Add "x" ∅ None 0; Start None] ++ work 0 5) (fresh_pool 1 true 3).

(** A job back in the queue after a failed wait, cancelled there, and the
    next pass of the worker. *)
Definition retried : QueueManager := run (worker_pass lost_attempt) (one_job 1 true 3).
Definition cancelled_after_retry : QueueManager :=
  run (worker_pass good_attempt) (run (cancel_job "x" None) retried).

(** The worker has executed line 187 and not yet line 189. *)
Definition marked_not_recorded : Pool :=
  execs ([Add "x" ∅ None 0; Start None] ++ work 0 8) (fresh_pool 1 true 3).

(** The worker waits for the prompt of ["x"] (line 200); the wait fails, and
    the worker puts the id back in the queue and removes it from
    [running_jobs] (lines 212-227). A poll of the drain that reads the queue
    before and [running_jobs] after finds both empty. *)
Definition awaiting : Pool :=
  execs ([Add "x" ∅ None 0; Start None] ++ work 0 11
         ++ [Work 0 1 (accepted "p1")] ++ work 0 2)
        (fresh_pool 1 true 3).
Definition requeued : Pool := execs (work 0 7) awaiting.
Definition overlapping : Poll := mkPoll (mgr awaiting) (mgr requeued) 5 (mgr requeued).

(** * The rest of the manager *)

(** ** Readers of the job store *)

Definition get_job_status (job_id : string) (s : QueueManager) : option JobStatus :=
  status <$> get_job job_id s.

(** ** [add_jobs_from_list] *)

(** [f"{i:04d}"]: the decimal digits of [i], padded with zeros on the left
    to four characters. *)
Fixpoint zeros (n : nat) : string :=
  match n with
  | 0 => ""
  | S n' => String "0"%char (zeros n')
  end.

Definition fmt_04d (i : nat) : string :=
  zeros (4 - String.length (pretty i)) +:+ pretty i.

(** Line 121; [sec] is [int(time.time())]. *)
Definition batch_job_id (job_prefix : string) (i : nat) (sec : Z) : string :=
  job_prefix +:+ "_" +:+ fmt_04d i +:+ "_" +:+ pretty sec.

(** The loop of lines 120-123, from index [i] on. Each workflow comes with
    the two readings of the clock of its iteration: [int(time.time())] of
    line 121 and the [created_at] of the new job. *)
Fixpoint add_jobs_loop (job_prefix : string) (i : nat)
    (items : list (Dict * (Z * Z))) (acc : list Job) : M (list Job) :=
  match items with
  | [] => ret acc
  | (workflow, (sec, now)) :: rest =>
      job ← add_job (batch_job_id job_prefix i sec) workflow None now;
      add_jobs_loop job_prefix (S i) rest (acc ++ [job])
  end.

Definition add_jobs_from_list (workflows : list (Dict * (Z * Z)))
    (job_prefix : string) : M (list Job) :=
  add_jobs_loop job_prefix 0 workflows [].

(** The ids [add_jobs_from_list] makes up, from index [i] on. *)
Fixpoint batch_ids (job_prefix : string) (i : nat) (items : list (Dict * (Z * Z)))
  : list string :=
  match items with
  | [] => []
  | (_, (sec, _)) :: rest =>
      batch_job_id job_prefix i sec :: batch_ids job_prefix (S i) rest
  end.

(** The jobs it creates. *)
Fixpoint batch_jobs (job_prefix : string) (i : nat) (items : list (Dict * (Z * Z)))
  : list Job :=
  match items with
  | [] => []
  | (workflow, (sec, now)) :: rest =>
      new_job (batch_job_id job_prefix i sec) workflow None now
      :: batch_jobs job_prefix (S i) rest
  end.

(** ** [clear_completed] *)

(** [del self.jobs[job_id]]; [None] stands for the [KeyError] of a missing
    key. *)
Definition del_job (job_id : string) (s : QueueManager) : option QueueManager :=
  match jobs s !! job_id with
  | Some _ => Some (set_jobs (delete job_id (jobs s)) s)
  | None => None
  end.

(** The list comprehension of lines 369-372. *)
Definition completed_ids (s : QueueManager) : list string :=
  (filter (λ kv : string * Job, status kv.2 ∈ [COMPLETED; FAILED; CANCELLED])
          (map_to_list (jobs s))).*1.

Definition clear_completed (s : QueueManager) : option QueueManager :=
  foldl (λ acc job_id, acc ≫= del_job job_id) (Some s) (completed_ids s).

(** ** The client's [wait_for_completion] *)

(** The loop of lines 313-323 of [client.py]. Each pass reads the clock and,
    unless the time is up, asks for the history: [polls] lists the clock
    reading and the answer of [get_history] (the history, by prompt id, or
    the exception it raises) of every pass. [None]: the caller is still
    waiting when the list ends. *)
Fixpoint client_wait_loop (prompt_id : string) (timeout : option Z)
    (start_time : Z) (polls : list (Z * (exn + gmap string Dict)))
  : option (exn + Dict) :=
  match polls with
  | [] => None
  | (now, answer) :: polls' =>
      if timeout_set timeout && bool_decide (default 0 timeout < now - start_time)%Z
      then Some (inl (TimeoutError
                        ("Prompt " +:+ prompt_id +:+ " did not complete within "
                         +:+ pretty (default 0%Z timeout) +:+ "s")))
      else
        match answer with
        | inl e => Some (inl e)
        | inr history =>
            match history !! prompt_id with
            | Some h => Some (inr h)
            | None => client_wait_loop prompt_id timeout start_time polls'
            end
        end
  end.

(** A pass that finds the prompt still running. *)
Definition still_running (prompt_id : string) (poll : Z * (exn + gmap string Dict))
  : Prop :=
  ∃ history, poll.2 = inr history ∧ history !! prompt_id = None.

(** * Vocabulary of the further statements *)

(** The entry a thread has in [running_jobs]: from line 189 to the
    [finally] block. *)
Definition slot (p : pc) : list string :=
  match p with
  | PStarted j | PSubmit j | PPromptId j _ | PTest j | PAwait j | PResult j _
  | PCompleted j | PCompletedAt j | PAnnounce j | PError j _ | PRetryCount j
  | PRetryTest j | PPending j | PRequeue j | PFailed j | PFailedAt j
  | PAnnounceFailed j | PFinally j => [j]
  | _ => []
  end.

(** The job a thread has marked [RUNNING] at line 187 and not yet given
    another status. *)
Definition marked (p : pc) : list string :=
  match p with
  | PStartedAt j | PAppend j | PStarted j | PSubmit j | PPromptId j _ | PTest j
  | PAwait j | PResult j _ | PCompleted j | PError j _ | PRetryCount j
  | PRetryTest j | PPending j | PFailed j => [j]
  | _ => []
  end.

(** The ids of the jobs that are [RUNNING]. *)
Definition running_ids (s : QueueManager) : list string :=
  (filter (λ kv : string * Job, status kv.2 = RUNNING) (map_to_list (jobs s))).*1.

(** A schedule that starts no more workers than [max_concurrent] and does
    not stop the pool. *)
Definition modest (mc : Z) (a : action) : Prop :=
  match a with
  | Stop => False
  | Start (Some n) => (n ≤ mc)%Z
  | _ => True
  end.

(** A thread that is between two jobs, at the head of its loop. *)
Definition between_jobs (p : pc) : Prop :=
  p = WLoop ∨ p = WPaused ∨ p = WLimit ∨ p = WBreak ∨ p = WExit.

(** A thread that has not passed the test of line 234. *)
Definition before_pause (p : pc) : Prop := p = WLoop ∨ p = WPaused ∨ p = WExit.

(** The steps of worker [i] in a schedule. *)
Definition step_of (i : nat) (a : action) : bool :=
  match a with
  | Work i' _ _ => bool_decide (i' = i)
  | _ => false
  end.

Definition steps_of (i : nat) (acts : list action) : nat :=
  length (filter (λ a, step_of i a = true) acts).

(** The listeners a schedule registers for [ev], in order. *)
Definition registered (ev : string) (acts : list action) : list Listener :=
  acts ≫= λ a, match a with
               | On ev' cb => if decide (ev' = ev) then [cb] else []
               | _ => []
               end.

(** The record of a job after a dispatch that succeeds. *)
Definition succeeded (a : Attempt) (job : Job) : Job :=
  match a_submit a, a_await a with
  | inr response, inr history =>
      completed history (a_finished a)
        (set_prompt_id (response !! "prompt_id"%string) (started (a_started a) job))
  | _, _ => job
  end.

(** The number a string of decimal digits denotes, leading zeros
    included. *)
Definition digit_value (c : ascii) : N :=
  if decide (c = "1"%char) then 1 else if decide (c = "2"%char) then 2
  else if decide (c = "3"%char) then 3 else if decide (c = "4"%char) then 4
  else if decide (c = "5"%char) then 5 else if decide (c = "6"%char) then 6
  else if decide (c = "7"%char) then 7 else if decide (c = "8"%char) then 8
  else if decide (c = "9"%char) then 9 else 0.

Fixpoint decimal_value (acc : N) (s : string) : N :=
  match s with
  | EmptyString => acc
  | String c s' => decimal_value (10 * acc + digit_value c) s'
  end.

(** A string without the separator of line 121. *)
Fixpoint no_underscore (s : string) : Prop :=
  match s with
  | EmptyString => True
  | String c s' => c ≠ "_"%char ∧ no_underscore s'
  end.

(** Every entry of [running_jobs] belongs to a thread that is between line
    189 and its [finally] block, and every [RUNNING] job to a thread that
    has marked it. *)
Definition accounted (c : Pool) : Prop :=
  running_jobs (mgr c) ≡ₚ (threads c ≫= slot)
  ∧ ∀ j job, jobs (mgr c) !! j = Some job → status job = RUNNING →
             j ∈ (threads c ≫= marked).

(** The workers of a pool that was started once, with no more threads than
    [max_concurrent]. *)
Definition staffed (mc : Z) (c : Pool) : Prop :=
  max_concurrent (mgr c) = mc
  ∧ (threads c = [] ∨ (running (mgr c) = true ∧ length (threads c) ≤ Z.to_nat mc)).

(** Schedules that do not start the pool; that neither resume nor stop
    it. *)
Definition no_start (a : action) : Prop :=
  match a with Start _ => False | _ => True end.
Definition no_resume (a : action) : Prop :=
  match a with Resume | Stop => False | _ => True end.

(** The steps a thread between two jobs needs to leave its loop once
    [running] is false. *)
Definition steps_to_exit (p : pc) : nat :=
  match p with
  | WPaused => 3
  | WLimit => 2
  | WLoop | WBreak => 1
  | _ => 0
  end.

(** A stopped pool whose threads are between two jobs; a paused, running pool
    whose threads have not passed the test of line 234. *)
Definition stopped (c : Pool) : Prop :=
  running (mgr c) = false ∧ Forall between_jobs (threads c).
Definition held_back (c : Pool) : Prop :=
  paused (mgr c) = true ∧ running (mgr c) = true
  ∧ Forall before_pause (threads c).

(** A pool with one worker, stopped while the worker waits at line 234 and
    the job [x] is still queued; what is scheduled afterwards. *)
Definition stopped_early : Pool :=
  exec Stop (execs [Add "x" ∅ None 0; Start None; Work 0 1 refused]
                   (fresh_pool 1 true 3)).
Definition after_stop : list action := Add "y" ∅ None 2 :: work 0 3.

(** A pool with one worker, paused before the worker has run; what is
    scheduled afterwards. *)
Definition paused_early : Pool :=
  execs [Add "x" ∅ None 0; Pause; Start None] (fresh_pool 1 true 3).
Definition after_pause : list action := Add "y" ∅ None 2 :: work 0 5.



(** The same processing, with a call of [cancel_job] that reads the status
    while the worker is between lines 200 and 202, and has not written
    when the worker is done. *)
Definition completing_before_write : list action :=
  [Add "x" ∅ None 0; Start None] ++ work 0 11 ++ [Work 0 1 (accepted "p1")]
  ++ work 0 2 ++ [Work 0 2 finished] ++ [Cancel "x"]
  ++ replicate 4 (Step 0 None) ++ work 0 5.


(** ** The retry budget *)







(** The manager with the job [x] and a listener for its completion. *)
Definition watched : QueueManager :=
  run (on "job_completed" quiet) (one_job 3 true 3).

(** With retries off: the job ["x"] is cancelled in the queue and cleared, a
    job is added under the same id, and the worker makes two passes, the
    first of which succeeds. *)
Definition cleared_and_added_again : QueueManager :=
  run (add_job "x" ∅ None 5)
    (default (one_job 3 false 3)
       (clear_completed (run (cancel_job "x" None) (one_job 3 false 3)))).
Definition completed_then_failed : QueueManager :=
  run (for_each [good_attempt; failing_attempt] worker_pass) cleared_and_added_again.

(** A started manager with the jobs ["x"] and ["y"]. *)
Definition two_jobs : QueueManager :=
  set_running true (run (add_job "y" ∅ None 1) (one_job 3 true 3)).

(** * Proofs *)

(** ** Equations of the monad and of the map *)

Ltac munfold :=
  unfold mbind, M_bind, mret, M_ret, bind, ret, raise, get, modify, try_except,
    try_finally in *.

Lemma log_calls_nil s : log_calls [] s = s.
Proof. destruct s. unfold log_calls, set_calls. simpl. by rewrite app_nil_r. Qed.

Lemma set_jobs_same s : set_jobs (jobs s) s = s.
Proof. by destruct s. Qed.

Lemma set_jobs_twice m m' s : set_jobs m (set_jobs m' s) = set_jobs m s.
Proof. done. Qed.

Lemma alter_as_insert {A} (f : A → A) (m : gmap string A) i x :
  m !! i = Some x → alter f i m = <[i := f x]> m.
Proof.
  intros H. apply map_eq. intros j. destruct (decide (i = j)) as [->|Hne].
  - by rewrite lookup_alter_eq, lookup_insert_eq, H.
  - by rewrite lookup_alter_ne, lookup_insert_ne.
Qed.

Lemma alter_absent {A} (f : A → A) (m : gmap string A) i :
  m !! i = None → alter f i m = m.
Proof.
  intros H. apply map_eq. intros k. rewrite lookup_alter.
  case_decide; subst; by rewrite ?H.
Qed.

Lemma alter_twice {A} (f g : A → A) (m : gmap string A) i :
  alter g i (alter f i m) = alter (λ x, g (f x)) i m.
Proof. by rewrite alter_alter_eq. Qed.

Lemma alter_ext_at {A} (f g : A → A) (m : gmap string A) i x :
  m !! i = Some x → f x = g x → alter f i m = alter g i m.
Proof.
  intros H Hfg. apply map_eq. intros k. rewrite !lookup_alter.
  destruct (decide (i = k)) as [->|]; [|done]. rewrite H. simpl. by rewrite Hfg.
Qed.

Lemma alter_size {A} (f : A → A) (m : gmap string A) i : size (alter f i m) = size m.
Proof.
  destruct (m !! i) as [x|] eqn:E.
  - rewrite (alter_as_insert _ _ _ _ E).
    rewrite <- (insert_delete_id m i x) at 2 by done.
    rewrite <- insert_delete_eq.
    rewrite !map_size_insert_None by apply lookup_delete_eq. done.
  - by rewrite alter_absent.
Qed.

(** ** Closed forms of the operations *)

Lemma guarded_listeners_run ev job cbs s :
  for_each cbs (λ callback,
      try_except (call_listener ev callback job) (λ e, ret tt)) s
  = (log_calls ((λ cb, mkCall ev (l_name cb) job) <$> cbs) s, inr tt).
Proof.
  revert s. induction cbs as [|cb cbs IH]; intros s; simpl.
  - by rewrite log_calls_nil.
  - unfold call_listener. munfold. simpl.
    destruct (l_run cb job); simpl; rewrite IH; f_equal;
      unfold log_calls, set_calls; simpl; by rewrite <- app_assoc.
Qed.

Lemma _trigger_callbacks_run ev job s :
  _trigger_callbacks ev job s = (log_calls (fired ev job s) s, inr tt).
Proof.
  unfold _trigger_callbacks, fired. munfold.
  destruct (callbacks s !! ev) as [cbs|]; simpl.
  - apply guarded_listeners_run.
  - by rewrite log_calls_nil.
Qed.

Lemma on_run ev cb s cbs :
  callbacks s !! ev = Some cbs →
  on ev cb s = (set_callbacks (<[ev := cbs ++ [cb]]> (callbacks s)) s, inr tt).
Proof. intros H. unfold on. munfold. by rewrite H. Qed.

Lemma add_job_run j wf md now s :
  add_job j wf md now s
  = match jobs s !! j with
    | Some _ => (s, inl (ValueError ("Job ID already exists: " +:+ j)))
    | None =>
        (set_job_queue (job_queue s ++ [j])
           (set_jobs (<[j := new_job j wf md now]> (jobs s)) s),
         inr (new_job j wf md now))
    end.
Proof.
  unfold add_job. munfold. destruct (jobs s !! j) eqn:E.
  - by rewrite decide_True.
  - rewrite decide_False; [done|]. by intros [? ?].
Qed.

Lemma cancel_job_run (s : QueueManager) (jid : string) (job : Job) (interrupt : option exn) :
  get_job jid s = Some job →
  match status job with
  | PENDING =>
      cancel_job jid interrupt s = (cancelled_state jid job s, inr true)
  | RUNNING =>
      match interrupt with
      | None =>
          cancel_job jid interrupt s
          = (cancelled_state jid job (set_interrupts (S (interrupts s)) s), inr true)
      | Some e =>
          cancel_job jid interrupt s
          = (set_interrupts (S (interrupts s)) s, inr false)
      end
  | COMPLETED | FAILED | CANCELLED =>
      cancel_job jid interrupt s = (s, inr false)
  end.
Proof.
  intros H. unfold cancel_job, cancelled_state, update_job, interrupt_execution.
  munfold. rewrite H. unfold get_job in H.
  destruct (status job) eqn:Hst; simpl; try done.
  - rewrite _trigger_callbacks_run. simpl.
    by rewrite (alter_as_insert _ _ _ _ H).
  - destruct interrupt as [e|]; simpl; [done|].
    rewrite _trigger_callbacks_run. simpl.
    by rewrite (alter_as_insert _ _ _ _ H).
Qed.

Ltac snippets :=
  unfold run, mark_running, acquire_slot, announce, submit, await_and_complete,
    on_failure, requeue, release_slot, queue_prompt, client_wait_for_completion,
    with_job, update_job, get_job in *;
  munfold; simpl in *.

Lemma mark_running_run j now s :
  mark_running j now s = (set_jobs (alter (started now) j (jobs s)) s, inr tt).
Proof. snippets. by rewrite alter_twice. Qed.

Lemma announce_run ev j s :
  announce ev j s = (log_calls (announced ev j s) s, inr tt).
Proof.
  unfold announced. snippets. destruct (jobs s !! j).
  - by rewrite _trigger_callbacks_run.
  - by rewrite log_calls_nil.
Qed.

Lemma submit_run j resp s :
  submit j resp s
  = let s1 := set_submitted (submitted s ++ [j]) s in
    match resp with
    | inl e => (s1, inl e)
    | inr response =>
        (set_jobs (alter (set_prompt_id (response !! "prompt_id"%string)) j (jobs s)) s1,
         inr (truthy (response !! "prompt_id"%string)))
    end.
Proof. snippets. by destruct resp. Qed.

Lemma await_and_complete_run j resp now s :
  await_and_complete j resp now s
  = match resp with
    | inl e => (s, inl e)
    | inr history =>
        let s1 := set_jobs (alter (completed history now) j (jobs s)) s in
        (log_calls (announced "job_completed" j s1) s1, inr tt)
    end.
Proof.
  unfold await_and_complete, client_wait_for_completion, update_job. munfold.
  destruct resp as [e|h]; simpl; [done|].
  rewrite announce_run. simpl. by rewrite !alter_twice.
Qed.

Lemma on_failure_run j e now s :
  on_failure j e now s
  = match jobs s !! j with
    | None => (s, inr false)
    | Some job =>
        let s1 := set_jobs (alter (failed s e now) j (jobs s)) s in
        if retries s job then (s1, inr true)
        else (log_calls (announced "job_failed" j s1) s1, inr false)
    end.
Proof.
  unfold on_failure, with_job, update_job, get_job. munfold. simpl.
  rewrite !alter_twice, lookup_alter_eq.
  destruct (jobs s !! j) as [job|] eqn:E; simpl.
  - unfold retries. destruct (retry_on_failure s && _) eqn:C; simpl.
    + rewrite alter_twice, !set_jobs_twice. do 2 f_equal.
      apply (alter_ext_at _ _ _ _ _ E). unfold failed, retries. by rewrite C.
    + rewrite announce_run. simpl. rewrite !alter_twice, !set_jobs_twice.
      rewrite (alter_ext_at _ (failed s e now) _ _ _ E); [done|].
      unfold failed, retries. by rewrite C.
  - rewrite !alter_absent by done. by rewrite set_jobs_twice, set_jobs_same.
Qed.

Lemma release_slot_run j s :
  release_slot j s
  = (set_running_jobs (list_remove_first j (running_jobs s)) s, inr tt).
Proof.
  snippets. case_decide; [done|]. f_equal.
  assert (list_remove_first j (running_jobs s) = running_jobs s) as ->.
  { induction (running_jobs s) as [|x l IH]; [done|]. simpl.
    rewrite decide_False by set_solver. f_equal. apply IH. set_solver. }
  by destruct s.
Qed.

Lemma _process_job_run j a s job :
  jobs s !! j = Some job →
  _process_job j a s
  = let s2 := set_submitted (submitted s ++ [j]) (entered j (a_started a) s) in
    match a_submit a with
    | inl e => except_tail j e (a_finished a) s2
    | inr r =>
        let s3 := set_jobs (alter (set_prompt_id (r !! "prompt_id"%string)) j (jobs s2)) s2 in
        if truthy (r !! "prompt_id"%string) then
          match a_await a with
          | inl e => except_tail j e (a_finished a) s3
          | inr h =>
              let s4 := set_jobs (alter (completed h (a_finished a)) j (jobs s3)) s3 in
              release_slot j (log_calls (announced "job_completed" j s4) s4)
          end
        else except_tail j (RuntimeError "No prompt_id received") (a_finished a) s3
    end.
Proof.
  intros Hj. unfold _process_job, except_tail, entered. munfold. unfold get_job.
  rewrite Hj. rewrite mark_running_run. cbn [fst snd]. unfold acquire_slot. munfold.
  rewrite announce_run, submit_run. cbv zeta.
  destruct (a_submit a) as [e|r]; [done|].
  destruct (truthy (r !! "prompt_id"%string)); [|done].
  rewrite await_and_complete_run. destruct (a_await a) as [e|h]; [done|].
  cbv zeta. by rewrite !release_slot_run.
Qed.

Lemma except_tail_spec j e now s job :
  jobs s !! j = Some job →
  ∃ s', except_tail j e now s = (s', inr tt)
    ∧ jobs s' = alter (failed s e now) j (jobs s)
    ∧ job_queue s' = job_queue s ++ (if retries s job then [j] else [])
    ∧ submitted s' = submitted s
    ∧ retry_on_failure s' = retry_on_failure s
    ∧ max_retries s' = max_retries s.
Proof.
  intros Hj. unfold except_tail. munfold. rewrite on_failure_run, Hj. cbv zeta.
  destruct (retries s job); unfold requeue; munfold; rewrite release_slot_run;
    eexists; (split; [done|]); cbn; by rewrite ?app_nil_r.
Qed.

Lemma worker_pass_empty a s : job_queue s = [] → worker_pass a s = (s, inr tt).
Proof. intros H. unfold worker_pass. munfold. by rewrite H. Qed.

Lemma worker_pass_front a s j q job :
  job_queue s = j :: q → jobs s !! j = Some job → status job ≠ CANCELLED →
  worker_pass a s = _process_job j a (set_job_queue q s).
Proof.
  intros Hq Hj Hst. unfold worker_pass. munfold. rewrite Hq. unfold get_job.
  rewrite Hj. by rewrite decide_False.
Qed.

Lemma passes_on_empty_queue attempts s :
  job_queue s = [] → for_each attempts worker_pass s = (s, inr tt).
Proof.
  intros H. induction attempts as [|a attempts IH]; [done|].
  simpl. munfold. by rewrite worker_pass_empty.
Qed.

(** ** Steps of a thread *)

Ltac step_eval :=
  unfold run, update_job, acquire_slot, requeue, get_job, queue_prompt,
    client_wait_for_completion;
  munfold; rewrite ?announce_run, ?release_slot_run; cbn [fst snd].

Lemma thread_step_jobs p now resp s :
  jobs (thread_step p now resp s).1
  = match in_flight p with
    | Some j => alter (job_step p now) j (jobs s)
    | None => jobs s
    end.
Proof.
  destruct p; cbn [thread_step in_flight job_step]; step_eval;
    repeat case_match; simplify_eq/=; try done.
  all: by rewrite alter_id by done.
Qed.


Lemma thread_step_submitted p now resp s :
  submitted (thread_step p now resp s).1
  = submitted s ++ match p with PSubmit j => [j] | _ => [] end.
Proof.
  destruct p; cbn [thread_step]; step_eval; repeat case_match; simplify_eq/=;
    by rewrite ?app_nil_r.
Qed.

Lemma thread_step_in_flight p now resp s j :
  in_flight (thread_step p now resp s).2 = Some j →
  in_flight p = Some j
  ∨ (p = WCheck j ∧ ∀ job, jobs s !! j = Some job → status job ≠ CANCELLED).
Proof.
  destruct p; cbn [thread_step]; step_eval; repeat case_match; simplify_eq/=;
    intros; simplify_eq/=; auto.
  all: right; split; [done|]; intros; simplify_eq; done.
Qed.


Lemma thread_step_config p now resp s :
  let s' := (thread_step p now resp s).1 in
  callbacks s' = callbacks s ∧ running s' = running s ∧ paused s' = paused s
  ∧ max_concurrent s' = max_concurrent s
  ∧ retry_on_failure s' = retry_on_failure s ∧ max_retries s' = max_retries s.
Proof.
  destruct p; cbn [thread_step]; step_eval; repeat case_match; simplify_eq/=;
    done.
Qed.



Lemma job_step_status p now job :
  status (job_step p now job) = status job
  ∨ ∃ j, p = PStatus j ∨ p = PPending j ∨ p = PFailed j ∨ p = PCompleted j.
Proof. destruct p; cbn [job_step]; eauto 7. Qed.


Lemma cancel_job_jobs j interrupt s :
  jobs (run (cancel_job j interrupt) s) = alter (cancel_update interrupt) j (jobs s).
Proof.
  unfold run. destruct (jobs s !! j) as [job|] eqn:E.
  - pose proof (cancel_job_run s j job interrupt E) as H.
    rewrite (alter_ext_at _ (λ _, cancel_update interrupt job) _ _ _ E) by done.
    unfold cancel_update.
    destruct (status job); [| destruct interrupt | | |]; rewrite H; simpl;
      first [ by rewrite (alter_as_insert _ _ _ _ E)
            | by rewrite alter_id by (intros; simplify_eq; done) ].
  - rewrite alter_absent by done. unfold cancel_job, get_job. munfold. by rewrite E.
Qed.

Lemma cancel_job_submitted j interrupt s :
  submitted (run (cancel_job j interrupt) s) = submitted s.
Proof.
  unfold run. destruct (jobs s !! j) as [job|] eqn:E.
  - pose proof (cancel_job_run s j job interrupt E) as H.
    destruct (status job); [| destruct interrupt | | |]; by rewrite H.
  - unfold cancel_job, get_job. munfold. by rewrite E.
Qed.

Lemma cancel_job_job_queue j interrupt s :
  job_queue (run (cancel_job j interrupt) s) = job_queue s.
Proof.
  unfold run. destruct (jobs s !! j) as [job|] eqn:E.
  - pose proof (cancel_job_run s j job interrupt E) as H.
    destruct (status job); [| destruct interrupt | | |]; by rewrite H.
  - unfold cancel_job, get_job. munfold. by rewrite E.
Qed.

Lemma cancel_update_fields interrupt job :
  result (cancel_update interrupt job) = result job
  ∧ error (cancel_update interrupt job) = error job
  ∧ retry_count (cancel_update interrupt job) = retry_count job
  ∧ (status (cancel_update interrupt job) = status job
     ∨ status (cancel_update interrupt job) = CANCELLED
       ∧ (status job = PENDING ∨ status job = RUNNING)).
Proof.
  unfold cancel_update.
  destruct (status job) eqn:E; [|destruct interrupt| | |]; simpl; rewrite ?E;
    split_and!; auto.
Qed.

(** ** Statements of a call of [cancel_job] *)

Lemma set_status_same job : set_status (status job) job = job.
Proof. by destruct job. Qed.

Lemma caller_step_jobs q interrupt s :
  jobs (caller_step q interrupt s).1
  = match call_write q with
    | Some j => alter (set_status CANCELLED) j (jobs s)
    | None => jobs s
    end.
Proof.
  destruct q; cbn [caller_step call_write]; unfold interrupt_execution;
    step_eval; repeat case_match; simplify_eq/=; done.
Qed.

Lemma caller_step_frame q interrupt s :
  let s' := (caller_step q interrupt s).1 in
  job_queue s' = job_queue s ∧ running_jobs s' = running_jobs s
  ∧ submitted s' = submitted s ∧ callbacks s' = callbacks s
  ∧ running s' = running s ∧ paused s' = paused s
  ∧ max_concurrent s' = max_concurrent s
  ∧ retry_on_failure s' = retry_on_failure s ∧ max_retries s' = max_retries s.
Proof.
  destruct q; cbn [caller_step]; unfold interrupt_execution;
    step_eval; repeat case_match; simplify_eq/=; done.
Qed.


(** What one statement of a call of [cancel_job] leaves alone. *)
Lemma exec_step_frame k interrupt c :
  let c' := exec (Step k interrupt) c in
  threads c' = threads c
  ∧ job_queue (mgr c') = job_queue (mgr c)
  ∧ running_jobs (mgr c') = running_jobs (mgr c)
  ∧ submitted (mgr c') = submitted (mgr c)
  ∧ callbacks (mgr c') = callbacks (mgr c)
  ∧ running (mgr c') = running (mgr c)
  ∧ paused (mgr c') = paused (mgr c)
  ∧ max_concurrent (mgr c') = max_concurrent (mgr c)
  ∧ retry_on_failure (mgr c') = retry_on_failure (mgr c)
  ∧ max_retries (mgr c') = max_retries (mgr c)
  ∧ ∀ j, jobs (mgr c') !! j = jobs (mgr c) !! j
         ∨ (callers c !! k = Some (CWrite j)
            ∧ jobs (mgr c') !! j = set_status CANCELLED <$> jobs (mgr c) !! j).
Proof.
  simpl. destruct (callers c !! k) as [q|] eqn:Ek; [|by split_and!; auto].
  pose proof (caller_step_jobs q interrupt (mgr c)) as Hj.
  destruct (caller_step_frame q interrupt (mgr c))
    as (? & ? & ? & ? & ? & ? & ? & ? & ?).
  destruct (caller_step q interrupt (mgr c)) as [s' q']. simpl in *.
  split_and!; try done. intros j. rewrite Hj.
  destruct q; simpl; auto. rewrite lookup_alter. case_decide; subst; auto.
Qed.


(** ** A thread running alone executes [_process_job]

    [_process_job] and [worker_pass] read the source as sequential code, the
    steps of the transition system read it statement by statement; a thread
    that runs without interference computes what the sequential reading
    computes. *)

Lemma solo_S fuel p a s :
  solo (S fuel) p a s
  = match (thread_step p (clock p a) (answer p a) s).2 with
    | WLoop => thread_step p (clock p a) (answer p a) s
    | p' => solo fuel p' a (thread_step p (clock p a) (answer p a) s).1
    end.
Proof. simpl. destruct (thread_step _ _ _ _) as [s' p']. by destruct p'. Qed.

Ltac solo_step := rewrite solo_S; cbn [thread_step clock answer fst snd].

Lemma solo_except fuel j e a s :
  solo (7 + fuel) (PError j e) a s = (run (except_tail j e (a_finished a)) s, WLoop).
Proof.
  unfold except_tail, on_failure, with_job, run. munfold.
  cbn [Nat.add]. do 3 solo_step. unfold run, update_job, get_job. munfold.
  cbn [fst snd jobs set_jobs retry_on_failure max_retries].
  destruct (alter _ j (alter _ j (jobs s)) !! j) as [job|] eqn:E; cbn [fst snd].
  - destruct (retry_on_failure s && _) eqn:C; cbn [fst snd].
    + do 3 solo_step. unfold run, update_job, requeue. munfold. cbn [fst snd].
      by rewrite !release_slot_run.
    + do 4 solo_step. unfold run, update_job. munfold. cbn [fst snd].
      rewrite !announce_run. cbn [fst snd]. by rewrite !release_slot_run.
  - solo_step. unfold run. by rewrite !release_slot_run.
Qed.

Lemma solo_process_job j a s :
  solo 16 (PEnter j) a s = (run (_process_job j a) s, WLoop).
Proof.
  unfold _process_job, run. munfold. solo_step. unfold get_job.
  destruct (jobs s !! j) as [job|] eqn:E; cbn [fst snd]; [|done].
  unfold mark_running, submit, await_and_complete, queue_prompt,
    client_wait_for_completion, acquire_slot, update_job. munfold.
  do 5 solo_step. unfold run, update_job, acquire_slot, queue_prompt. munfold.
  cbn [fst snd]. rewrite !announce_run. cbn [fst snd].
  destruct (a_submit a) as [e|r]; cbn [fst snd].
  - rewrite (solo_except 3). unfold except_tail, run. by munfold.
  - do 2 solo_step. unfold run, update_job, get_job. munfold.
    cbn [fst snd jobs set_jobs log_calls set_calls set_running_jobs set_submitted].
    rewrite !lookup_alter_eq, E. cbn [fmap option_fmap option_map prompt_id set_prompt_id].
    destruct (truthy (r !! "prompt_id"%string)); cbn [fst snd].
    + solo_step. unfold client_wait_for_completion. munfold.
      destruct (a_await a) as [e|h]; cbn [fst snd].
      * rewrite (solo_except 0). unfold except_tail, run. by munfold.
      * do 5 solo_step. unfold run, update_job. munfold. cbn [fst snd].
        rewrite !announce_run. cbn [fst snd]. by rewrite !release_slot_run.
    + rewrite (solo_except 1). unfold except_tail, run. by munfold.
Qed.

Lemma solo_worker_pass a s :
  solo 18 WGet a s = (run (worker_pass a) s, WLoop).
Proof.
  unfold worker_pass, run. munfold. solo_step.
  destruct (job_queue s) as [|j q] eqn:Hq; cbn [fst snd]; [done|].
  solo_step. unfold get_job. cbn [jobs set_job_queue].
  destruct (jobs s !! j) as [job|] eqn:Hj; cbn [fst snd].
  - destruct (decide (status job = CANCELLED)); cbn [fst snd]; [done|].
    by rewrite solo_process_job.
  - by rewrite solo_process_job.
Qed.

(** ** A call of [cancel_job] running alone executes [cancel_job]

    The same for the statements of a call of [cancel_job]: six statements
    without interference compute what the sequential reading computes, and
    leave the call at its [return]. *)

Lemma solo_call_S fuel q interrupt s :
  solo_call (S fuel) q interrupt s
  = solo_call fuel (caller_step q interrupt s).2 interrupt
              (caller_step q interrupt s).1.
Proof. simpl. by destruct (caller_step q interrupt s). Qed.

Ltac call_step := rewrite solo_call_S; cbn [caller_step fst snd].

Lemma solo_cancel_job j interrupt s :
  ∃ r, cancel_job j interrupt s = ((solo_call 6 (CLookup j) interrupt s).1, inr r)
       ∧ (solo_call 6 (CLookup j) interrupt s).2 = CReturn r.
Proof.
  call_step. unfold get_job.
  destruct (jobs s !! j) as [job|] eqn:E; cbn [fst snd].
  2: { exists false. split; [|done]. unfold cancel_job, get_job. munfold.
       by rewrite E. }
  pose proof (cancel_job_run s j job interrupt E) as Hrun.
  call_step. unfold get_job. rewrite E. cbn [fst snd].
  destruct (status job) eqn:Hst; cbn [fst snd];
    [rewrite decide_True by done|rewrite decide_False by done..].
  - do 2 call_step. exists true. rewrite Hrun. split; [|done]. f_equal.
    unfold run, update_job, cancelled_state. munfold. rewrite announce_run.
    cbn [fst snd]. unfold announced. cbn [jobs set_jobs].
    by rewrite lookup_alter_eq, E, (alter_as_insert _ _ _ _ E).
  - call_step. unfold get_job. rewrite E, Hst. cbn [fst snd].
    rewrite decide_True by done. call_step.
    unfold interrupt_execution. munfold.
    destruct interrupt as [e|]; cbn [fst snd].
    + exists false. by rewrite Hrun.
    + do 2 call_step. exists true. rewrite Hrun. split; [|done]. f_equal.
      unfold run, update_job, cancelled_state. munfold. rewrite announce_run.
      cbn [fst snd]. unfold announced. cbn [jobs set_jobs set_interrupts].
      by rewrite lookup_alter_eq, E, (alter_as_insert _ _ _ _ E).
  - call_step. unfold get_job. rewrite E, Hst. cbn [fst snd].
    rewrite decide_False by done. exists false. by rewrite Hrun.
  - call_step. unfold get_job. rewrite E, Hst. cbn [fst snd].
    rewrite decide_False by done. exists false. by rewrite Hrun.
  - call_step. unfold get_job. rewrite E, Hst. cbn [fst snd].
    rewrite decide_False by done. exists false. by rewrite Hrun.
Qed.

Lemma solo_call_steps n k interrupt : ∀ c q,
  callers c !! k = Some q →
  execs (replicate n (Step k interrupt)) c
  = mkPool (solo_call n q interrupt (mgr c)).1 (threads c)
           (<[k := (solo_call n q interrupt (mgr c)).2]> (callers c)).
Proof.
  induction n as [|n IH]; intros c q Hk.
  - destruct c as [s ths cs]. simpl in *. by rewrite list_insert_id.
  - cbn [replicate]. change (execs (?a :: ?l) c) with (execs l (exec a c)).
    cbn [exec solo_call]. rewrite Hk.
    destruct (caller_step q interrupt (mgr c)) as [s' q'] eqn:Es.
    rewrite (IH _ q'); cbn [mgr threads callers].
    + by rewrite list_insert_insert_eq.
    + apply list_lookup_insert_eq. by eapply lookup_lt_Some.
Qed.

(** A call of [cancel_job] that no worker interferes with. *)
Lemma call_alone c j interrupt :
  ∃ r, cancel_job j interrupt (mgr c)
       = (mgr (execs (Cancel j :: call (length (callers c)) interrupt) c), inr r)
       ∧ callers (execs (Cancel j :: call (length (callers c)) interrupt) c)
         = callers c ++ [CReturn r]
       ∧ threads (execs (Cancel j :: call (length (callers c)) interrupt) c)
         = threads c.
Proof.
  destruct (solo_cancel_job j interrupt (mgr c)) as (r & Hrun & Hq).
  exists r. change (execs (?a :: ?l) c) with (execs l (exec a c)).
  unfold call. rewrite (solo_call_steps 6 _ _ _ (CLookup j)).
  - cbn [exec mgr threads callers]. rewrite Hq. split_and!; [done| |done].
    replace (length (callers c)) with (length (callers c) + 0) by lia.
    by rewrite insert_app_r.
  - cbn [exec callers]. rewrite lookup_app_r by lia.
    by rewrite Nat.sub_diag.
Qed.

Lemma solo_config fuel : ∀ p a s,
  running (solo fuel p a s).1 = running s
  ∧ paused (solo fuel p a s).1 = paused s
  ∧ max_concurrent (solo fuel p a s).1 = max_concurrent s.
Proof.
  induction fuel as [|fuel IH]; intros p a s; [done|].
  rewrite solo_S.
  destruct (thread_step_config p (clock p a) (answer p a) s)
    as (_ & Hr & Hp & Hm & _).
  destruct (thread_step p (clock p a) (answer p a) s) as [s' p'] eqn:E.
  cbn [fst snd] in *.
  destruct (IH p' a s') as (Hr' & Hp' & Hm').
  destruct p'; cbn [fst]; rewrite ?Hr', ?Hp', ?Hm'; done.
Qed.

(** ** Cancelled jobs *)

Lemma parked_exec a c j job n : parked j job n c → parked j job n (exec a c).
Proof.
  intros (Hj & Hst & Hn & Hth).
  destruct a as [job_id wf md now|job_id|event_type callback|num_workers| | |
                 |i now resp|k interrupt]; simpl.
  - (* Add *)
    unfold parked, run. simpl. rewrite add_job_run.
    destruct (jobs (mgr c) !! job_id) eqn:E; simpl; [done|].
    split_and!; try done. rewrite lookup_insert_ne; [done|]. by intros ->; simplify_eq.
  - (* Cancel *)
    done.
  - (* On *)
    unfold parked, dispatches, run, on. munfold. simpl.
    by destruct (callbacks (mgr c) !! event_type).
  - (* Start *)
    unfold parked, start. destruct (running (mgr c)); [done|]. simpl.
    split_and!; try done. apply Forall_app. split; [done|].
    by apply Forall_replicate.
  - done.
  - done.
  - done.
  - (* Work *)
    destruct (threads c !! i) as [p|] eqn:Ei; [|done].
    destruct (thread_step p now resp (mgr c)) as [s' p'] eqn:Es. simpl.
    pose proof (Forall_lookup_1 _ _ _ _ Hth Ei) as Hp.
    pose proof (thread_step_jobs p now resp (mgr c)) as Hjobs.
    pose proof (thread_step_submitted p now resp (mgr c)) as Hsub.
    pose proof (thread_step_in_flight p now resp (mgr c) j) as Hfl.
    rewrite Es in Hjobs, Hsub, Hfl. simpl in *.
    assert (jobs s' !! j = Some job) as Hj'.
    { rewrite Hjobs. destruct (in_flight p) as [j'|] eqn:Ef; [|done].
      rewrite lookup_alter_ne; [done|]. by intros ->. }
    unfold parked, dispatches. simpl. split_and!; try done.
    + rewrite Hsub, filter_app, length_app.
      destruct p; simpl; try (unfold dispatches in Hn; lia).
      rewrite filter_cons. case_decide; [|simpl; unfold dispatches in Hn; lia].
      subst. by destruct Hp.
    + apply Forall_insert; [done|]. intros Hf. destruct (Hfl Hf) as [?|[-> Hc]].
      * done.
      * by apply (Hc job).
  - (* Step *)
    destruct (callers c !! k) as [q|]; [|done].
    pose proof (caller_step_jobs q interrupt (mgr c)) as Hjobs.
    destruct (caller_step_frame q interrupt (mgr c)) as (_ & _ & Hsub & _).
    destruct (caller_step q interrupt (mgr c)) as [s' q']. simpl in *.
    unfold parked, dispatches. simpl. rewrite Hsub. split_and!; try done.
    rewrite Hjobs. destruct (call_write q) as [j0|]; [|done].
    rewrite lookup_alter. case_decide; [|done]. subst. rewrite Hj. simpl.
    by rewrite <- Hst, set_status_same.
Qed.

Lemma parked_execs acts c j job n : parked j job n c → parked j job n (execs acts c).
Proof.
  revert c. induction acts as [|a acts IH]; intros c H; [done|].
  simpl. apply IH. by apply parked_exec.
Qed.



(** ** The invariant of the transition system *)

Lemma submseteq_NoDup (l k : list string) : l ⊆+ k → NoDup k → NoDup l.
Proof.
  intros [k' Hk]%submseteq_Permutation Hnd. rewrite Hk in Hnd.
  by apply NoDup_app in Hnd as [? _].
Qed.

Lemma bind_insert_split {A} (f : pc → list A) (ths : list pc) i p :
  ths !! i = Some p →
  ∃ rest, ths ≫= f ≡ₚ f p ++ rest
    ∧ ∀ p', <[i:=p']> ths ≫= f ≡ₚ f p' ++ rest.
Proof.
  intros Hi. exists ((take i ths ≫= f) ++ (drop (S i) ths ≫= f)).
  pose proof (take_drop_middle ths i p Hi) as Hsplit.
  assert (i < length ths) as Hlt by (by eapply lookup_lt_Some).
  split.
  - rewrite <- Hsplit at 1. rewrite bind_app, bind_cons. solve_Permutation.
  - intros p'. rewrite <- Hsplit at 1.
    rewrite insert_app_r_alt by (rewrite length_take; lia).
    rewrite length_take, Nat.min_l by lia. rewrite Nat.sub_diag. simpl.
    rewrite bind_app, bind_cons. solve_Permutation.
Qed.

Lemma bind_replicate_nil (f : pc → list string) n p :
  f p = [] → replicate n p ≫= f = [].
Proof.
  intros H. induction n as [|n IH]; [done|].
  cbn [replicate]. by rewrite bind_cons, H, IH.
Qed.




Lemma cancel_update_grows interrupt job : grows job (cancel_update interrupt job).
Proof.
  destruct (cancel_update_fields interrupt job) as (Hr & He & Hc & _).
  unfold grows. rewrite Hr, He, Hc. split_and!; auto; lia.
Qed.






Lemma cancel_update_consistent ths j interrupt job :
  consistent_job ths j job → consistent_job ths j (cancel_update interrupt job).
Proof.
  intros (H1 & H2 & H3 & H4 & H5).
  destruct (cancel_update_fields interrupt job) as (Hr & He & Hc & Hs).
  unfold consistent_job. rewrite Hr, He, Hc.
  split_and!; try done.
  - intros Hst. apply H1. destruct Hs as [Hs|[Hs _]]; congruence.
  - intros Hst. apply H2. destruct Hs as [Hs|[Hs _]]; congruence.
Qed.








(** ** An id is in one place at a time *)

Lemma held_occupied p j : j ∈ held p → j ∈ occupied p.
Proof. destruct p; simpl; auto; intros H; by apply elem_of_nil in H. Qed.

Lemma in_flight_occupied p j : in_flight p = Some j → j ∈ occupied p.
Proof. destruct p; simpl; intros; simplify_eq; left. Qed.

Lemma thread_step_occupied p now resp s :
  occupied (thread_step p now resp s).2 ++ job_queue (thread_step p now resp s).1
  ⊆+ occupied p ++ job_queue s.
Proof.
  destruct p; cbn [thread_step]; step_eval; repeat case_match; simplify_eq/=;
    try done; try (by apply submseteq_cons); try (by constructor).
  all: try (by apply submseteq_cons_middle; rewrite app_nil_r).
  - match goal with H : job_queue _ = _ |- _ => by rewrite H end.
  - apply Permutation_submseteq. solve_Permutation.
Qed.

Lemma exclusive_exec a c : exclusive c → exclusive (exec a c).
Proof.
  intros [Hnd Hjobs].
  destruct a as [job_id wf md now|job_id|event_type callback|num_workers| | |
                 |i now resp|k interrupt];
    cbn [exec]; try done.
  - (* Add *)
    unfold exclusive, run. cbn [mgr threads]. rewrite add_job_run.
    destruct (jobs (mgr c) !! job_id) eqn:E; cbn [fst snd]; [done|].
    cbn [jobs job_queue set_job_queue set_jobs].
    assert (job_id ∉ (threads c ≫= occupied) ++ job_queue (mgr c)) as Hfresh.
    { intros Hin. destruct (Hjobs _ Hin) as [job Hj]. congruence. }
    rewrite app_assoc. split.
    + apply NoDup_app. split_and!; [done| |apply NoDup_singleton].
      intros x Hx ->%list_elem_of_singleton. done.
    + intros j Hj. apply elem_of_app in Hj as [Hj|Hj].
      * destruct (Hjobs _ Hj) as [job Hjob]. exists job.
        rewrite lookup_insert_ne; [done|]. by intros ->.
      * apply list_elem_of_singleton in Hj as ->. by rewrite lookup_insert_eq.
  - (* On *)
    unfold run, on. munfold. by destruct (callbacks (mgr c) !! event_type).
  - (* Start *)
    unfold start. destruct (running (mgr c)); [done|].
    unfold exclusive. cbn [mgr threads jobs job_queue set_running].
    by rewrite bind_app, (bind_replicate_nil occupied), app_nil_r.
  - (* Work *)
    destruct (threads c !! i) as [p|] eqn:Ei; [|done].
    destruct (bind_insert_split occupied (threads c) i p Ei) as (rest & Hold & Hnew).
    pose proof (thread_step_occupied p now resp (mgr c)) as Hsub.
    pose proof (thread_step_jobs p now resp (mgr c)) as Hj.
    destruct (thread_step p now resp (mgr c)) as [s' p']. cbn [fst snd] in *.
    assert ((<[i:=p']> (threads c) ≫= occupied) ++ job_queue s'
            ⊆+ (threads c ≫= occupied) ++ job_queue (mgr c)) as Hsubt.
    { rewrite Hnew, Hold.
      transitivity ((occupied p' ++ job_queue s') ++ rest);
        [apply Permutation_submseteq; solve_Permutation|].
      transitivity ((occupied p ++ job_queue (mgr c)) ++ rest);
        [by apply submseteq_skips_r|].
      apply Permutation_submseteq. solve_Permutation. }
    unfold exclusive. cbn [mgr threads]. split.
    + by eapply submseteq_NoDup.
    + intros j Hin. pose proof (elem_of_submseteq _ _ _ Hin Hsubt) as Hin0.
      destruct (Hjobs _ Hin0) as [job Hjob]. rewrite Hj.
      destruct (in_flight p) as [j0|]; [|eauto].
      rewrite lookup_alter. case_decide; subst; rewrite Hjob; simpl; eauto.
  - (* Step *)
    destruct (callers c !! k) as [q|]; [|done].
    pose proof (caller_step_jobs q interrupt (mgr c)) as Hj.
    destruct (caller_step_frame q interrupt (mgr c)) as (Hq & _).
    destruct (caller_step q interrupt (mgr c)) as [s' q']. cbn [fst snd] in *.
    unfold exclusive. cbn [mgr threads]. rewrite Hq, Hj. split; [done|].
    intros j Hin. destruct (Hjobs _ Hin) as [job Hjob].
    destruct (call_write q) as [j0|]; [|eauto].
    rewrite lookup_alter. case_decide; subst; rewrite Hjob; simpl; eauto.
Qed.

Lemma exclusive_execs acts c : exclusive c → exclusive (execs acts c).
Proof.
  revert c. induction acts as [|a acts IH]; intros c H; [done|].
  simpl. apply IH. by apply exclusive_exec.
Qed.

Lemma exclusive_init mc rf mr : exclusive (fresh_pool mc rf mr).
Proof.
  unfold exclusive. simpl. split; [constructor|].
  intros j Hj. by apply elem_of_nil in Hj.
Qed.

(** An id that is in the queue is in no thread's hands. *)
Lemma queued_not_in_flight (mc : Z) (rf : bool) (mr : Z) (acts : list action)
    (jid : string) :
  let c := execs acts (fresh_pool mc rf mr) in
  jid ∈ job_queue (mgr c) →
  Forall (λ p, in_flight p ≠ Some jid) (threads c).
Proof.
  intros c Hq.
  destruct (exclusive_execs acts _ (exclusive_init mc rf mr)) as [Hnd _].
  fold c in Hnd. apply NoDup_app in Hnd as (_ & Hdis & _).
  apply Forall_lookup. intros i p Hi Hf. apply (Hdis jid); [|done].
  apply list_elem_of_bind. exists p. split; [by apply in_flight_occupied|].
  by eapply list_elem_of_lookup_2.
Qed.

(** ** The retry policy *)

Lemma process_job_fails j a s job :
  jobs s !! j = Some job → attempt_fails a = true →
  ∃ s' job', _process_job j a s = (s', inr tt)
    ∧ jobs s' !! j = Some job'
    ∧ retry_count job' = (retry_count job + 1)%Z
    ∧ status job' = (if retries s job then PENDING else FAILED)
    ∧ job_queue s' = job_queue s ++ (if retries s job then [j] else [])
    ∧ dispatches j s' = S (dispatches j s)
    ∧ retry_on_failure s' = retry_on_failure s
    ∧ max_retries s' = max_retries s.
Proof.
  intros Hj Hfail. rewrite (_process_job_run _ _ _ _ Hj). cbv zeta.
  assert (∀ s0 f e,
    jobs s0 = alter f j (jobs s) → (∀ x, retry_count (f x) = retry_count x) →
    job_queue s0 = job_queue s → submitted s0 = submitted s ++ [j] →
    retry_on_failure s0 = retry_on_failure s → max_retries s0 = max_retries s →
    ∃ s' job', except_tail j e (a_finished a) s0 = (s', inr tt)
    ∧ jobs s' !! j = Some job'
    ∧ retry_count job' = (retry_count job + 1)%Z
    ∧ status job' = (if retries s job then PENDING else FAILED)
    ∧ job_queue s' = job_queue s ++ (if retries s job then [j] else [])
    ∧ dispatches j s' = S (dispatches j s)
    ∧ retry_on_failure s' = retry_on_failure s
    ∧ max_retries s' = max_retries s) as Htail.
  { intros s0 f e Hjobs Hf Hq Hsub Hrf Hmr.
    assert (jobs s0 !! j = Some (f job)) as Hj0.
    { by rewrite Hjobs, lookup_alter_eq, Hj. }
    destruct (except_tail_spec j e (a_finished a) s0 _ Hj0)
      as (s' & Hrun & Hjobs' & Hq' & Hsub' & Hrf' & Hmr').
    assert (retries s0 (f job) = retries s job) as Hr.
    { unfold retries. by rewrite Hf, Hrf, Hmr. }
    exists s', (failed s0 e (a_finished a) (f job)). split_and!; try done.
    - by rewrite Hjobs', lookup_alter_eq, Hj0.
    - unfold failed. destruct (retries s0 (f job)); simpl; by rewrite Hf.
    - unfold failed. rewrite Hr. by destruct (retries s job).
    - by rewrite Hq', Hr, Hq.
    - unfold dispatches. rewrite Hsub', Hsub, filter_app, length_app. simpl.
      rewrite filter_cons, decide_True by done. simpl. lia.
    - congruence.
    - congruence. }
  unfold attempt_fails in Hfail.
  destruct (a_submit a) as [e|r].
  - by apply (Htail _ (started (a_started a))).
  - destruct (truthy (r !! "prompt_id"%string)); simpl in Hfail.
    + destruct (a_await a) as [e|h]; [|done].
      apply (Htail _ (λ x, set_prompt_id (r !! "prompt_id"%string)
                             (started (a_started a) x))); try done.
      simpl. by rewrite alter_twice.
    + apply (Htail _ (λ x, set_prompt_id (r !! "prompt_id"%string)
                             (started (a_started a) x))); try done.
      simpl. by rewrite alter_twice.
Qed.

Lemma retries_lt s job :
  retries s job = retry_on_failure s && bool_decide (retry_count job < max_retries s)%Z.
Proof.
  unfold retries. f_equal. apply bool_decide_ext. lia.
Qed.

Lemma failing_passes j attempts : ∀ s job,
  retry_on_failure s = true →
  jobs s !! j = Some job → status job = PENDING →
  (retry_count job ≤ max_retries s)%Z →
  job_queue s = [j] →
  Forall (λ a, attempt_fails a = true) attempts →
  ∃ s' job', for_each attempts worker_pass s = (s', inr tt)
    ∧ jobs s' !! j = Some job'
    ∧ if bool_decide (retry_count job + Z.of_nat (length attempts) ≤ max_retries s)%Z
      then retry_count job' = (retry_count job + Z.of_nat (length attempts))%Z
           ∧ status job' = PENDING ∧ job_queue s' = [j]
           ∧ dispatches j s' = (dispatches j s + length attempts)%nat
      else retry_count job' = (max_retries s + 1)%Z
           ∧ status job' = FAILED ∧ job_queue s' = []
           ∧ dispatches j s'
             = (dispatches j s + Z.to_nat (max_retries s + 1 - retry_count job))%nat.
Proof.
  induction attempts as [|a attempts IH]; intros s job Hrf Hj Hst Hrc Hq Hall.
  - exists s, job. simpl. rewrite bool_decide_true by lia.
    split_and!; try done; lia.
  - apply Forall_cons in Hall as [Ha Hall].
    assert (jobs (set_job_queue [] s) !! j = Some job) as Hj0 by done.
    destruct (process_job_fails j a _ job Hj0 Ha)
      as (s1 & job1 & Hrun & Hj1 & Hrc1 & Hst1 & Hq1 & Hd1 & Hrf1 & Hmr1).
    change (dispatches j (set_job_queue [] s)) with (dispatches j s) in Hd1.
    simpl in Hq1, Hrf1, Hmr1. rewrite retries_lt in Hst1, Hq1. simpl in *.
    rewrite Hrf in Hst1, Hq1. simpl in *.
    munfold. rewrite (worker_pass_front a s j [] job) by (done || congruence).
    rewrite Hrun. case_bool_decide as Hlt.
    + destruct (IH s1 job1) as (s' & job' & Hrun' & Hj' & Hres); try done; try lia;
        try congruence.
      exists s', job'. split_and!; try done.
      rewrite Hrc1, Hmr1, Hd1 in Hres.
      case_bool_decide; case_bool_decide; try lia.
      * destruct Hres as (? & ? & ? & ?). split_and!; try done; lia.
      * destruct Hres as (? & ? & ? & ?). split_and!; try done.
        lia.
    + rewrite passes_on_empty_queue by done. exists s1, job1.
      split_and!; try done. rewrite bool_decide_false by lia.
      split_and!; try done; try lia.
Qed.

(** ** Statistics *)

Lemma length_filter_status (l : list Job) :
  length (filter (λ job, status job = PENDING) l)
  + length (filter (λ job, status job = RUNNING) l)
  + length (filter (λ job, status job = COMPLETED) l)
  + length (filter (λ job, status job = FAILED) l)
  + length (filter (λ job, status job = CANCELLED) l)
  = length l.
Proof.
  induction l as [|j l IH]; [done|].
  rewrite !filter_cons. destruct (status j); repeat case_decide; try done; simpl; lia.
Qed.

Lemma statistics_partition s :
  let st := get_statistics s in
  Stats.pending st + Stats.running st + Stats.completed st + Stats.failed st
  + Stats.cancelled st = Stats.total_jobs st.
Proof.
  simpl. unfold get_jobs_by_status. rewrite length_filter_status.
  unfold job_values. by rewrite length_fmap, length_map_to_list.
Qed.

Lemma exec_other_jobs a c :
  match a with Add _ _ _ _ => False | _ => True end →
  size (jobs (mgr (exec a c))) = size (jobs (mgr c))
  ∧ ∀ j, jobs (mgr c) !! j = None → jobs (mgr (exec a c)) !! j = None.
Proof.
  intros Ha.
  destruct a as [job_id wf md now|job_id|event_type callback|num_workers| | |
                 |i now resp|k interrupt]; try done; simpl.
  - unfold run, on. munfold. by destruct (callbacks (mgr c) !! event_type).
  - unfold start. by destruct (running (mgr c)).
  - destruct (threads c !! i) as [p|]; [|done].
    pose proof (thread_step_jobs p now resp (mgr c)) as H.
    destruct (thread_step p now resp (mgr c)) as [s' p']. simpl in *.
    rewrite H. destruct (in_flight p) as [j0|]; [|done].
    rewrite alter_size. split; [done|]. intros j Hj.
    rewrite lookup_alter. case_decide; subst; by rewrite ?Hj.
  - destruct (callers c !! k) as [q|]; [|done].
    pose proof (caller_step_jobs q interrupt (mgr c)) as H.
    destruct (caller_step q interrupt (mgr c)) as [s' q']. simpl in *.
    rewrite H. destruct (call_write q) as [j0|]; [|done].
    rewrite alter_size. split; [done|]. intros j Hj.
    rewrite lookup_alter. case_decide; subst; by rewrite ?Hj.
Qed.

Lemma execs_total_jobs acts : ∀ c,
  NoDup (added acts) →
  (∀ j, j ∈ added acts → jobs (mgr c) !! j = None) →
  size (jobs (mgr (execs acts c))) = size (jobs (mgr c)) + length (added acts).
Proof.
  induction acts as [|a acts IH]; intros c Hnd Hfresh; simpl; [lia|].
  destruct a as [j wf md now| | | | | | | |].
  2-9: match goal with |- context [exec ?a ?c0] =>
         destruct (exec_other_jobs a c0 I) as [Hsize Hnone] end;
       rewrite IH, Hsize; auto.
  change (added (Add j wf md now :: acts)) with (j :: added acts) in *.
  apply NoDup_cons in Hnd as [Hj Hnd].
  assert (jobs (mgr c) !! j = None) as Hnone by (apply Hfresh; left).
  rewrite IH; [| done |].
  - simpl. unfold run. rewrite add_job_run, Hnone. simpl.
    rewrite map_size_insert_None by done. lia.
  - intros k Hk. simpl. unfold run. rewrite add_job_run, Hnone. simpl.
    rewrite lookup_insert_ne; [apply Hfresh; by right|]. by intros ->.
Qed.
(** * The claims *)

(** C1 (as amended). A failed dispatch increments [retry_count] and puts the
    job back on the queue as [PENDING] exactly when retries are enabled and
    the count before the increment is below [max_retries]; otherwise the job
    becomes [FAILED]. Hence, with [retry_on_failure] and [max_retries = R], a
    job whose every dispatch fails is dispatched [R + 1] times and ends
    [FAILED] with [retry_count = R + 1]: the count is the number of failed
    dispatches, the number of retries is [R]. *)
Theorem retry_policy_always_failing :
  (∀ s j job e now,
     jobs s !! j = Some job →
     ∃ s1 job1,
       on_failure j e now s
       = (s1, inr (retry_on_failure s
                   && bool_decide (retry_count job < max_retries s)%Z))
       ∧ jobs s1 !! j = Some job1
       ∧ retry_count job1 = (retry_count job + 1)%Z
       ∧ status job1
         = if retry_on_failure s && bool_decide (retry_count job < max_retries s)%Z
           then PENDING else FAILED)
  ∧ (∀ s j job attempts,
       retry_on_failure s = true →
       (0 ≤ max_retries s)%Z →
       jobs s !! j = Some job → status job = PENDING → retry_count job = 0%Z →
       job_queue s = [j] →
       Forall (λ a, attempt_fails a = true) attempts →
       ∃ s' job',
         for_each attempts worker_pass s = (s', inr tt)
         ∧ jobs s' !! j = Some job'
         ∧ ((Z.of_nat (length attempts) ≤ max_retries s)%Z →
            status job' = PENDING ∧ retry_count job' = Z.of_nat (length attempts)
            ∧ job_queue s' = [j]
            ∧ dispatches j s' = (dispatches j s + length attempts)%nat)
         ∧ ((max_retries s < Z.of_nat (length attempts))%Z →
            status job' = FAILED ∧ retry_count job' = (max_retries s + 1)%Z
            ∧ job_queue s' = []
            ∧ dispatches j s'
              = (dispatches j s + Z.to_nat (max_retries s + 1))%nat)).
Proof.
  split.
  - intros s j job e now Hj. rewrite on_failure_run, Hj. cbv zeta.
    rewrite <- retries_lt.
    exists (if retries s job
            then set_jobs (alter (failed s e now) j (jobs s)) s
            else log_calls (announced "job_failed" j
                   (set_jobs (alter (failed s e now) j (jobs s)) s))
                   (set_jobs (alter (failed s e now) j (jobs s)) s)),
      (failed s e now job).
    destruct (retries s job) eqn:E; simpl; rewrite lookup_alter_eq, Hj; simpl;
      unfold failed; rewrite E; split_and!; done.
  - intros s j job attempts Hrf HR Hj Hst Hrc Hq Hall.
    destruct (failing_passes j attempts s job) as (s' & job' & Hrun & Hj' & Hres);
      try done; try lia.
    exists s', job'. rewrite Hrc in Hres. split_and!; try done.
    + intros Hle. rewrite bool_decide_true in Hres by lia.
      destruct Hres as (? & ? & ? & ?). by split_and!.
    + intros Hlt. rewrite bool_decide_false in Hres by lia.
      destruct Hres as (? & ? & ? & Hd). split_and!; try done.
      rewrite Hd. do 2 f_equal. lia.
Qed.

Lemma retry_policy_always_failing_witness :
  let s := one_job 3 true 3 in
  let job := new_job "x" ∅ None 0 in
  (jobs s !! "x"%string = Some job
   ∧ retry_on_failure s = true ∧ (0 ≤ max_retries s)%Z
   ∧ status job = PENDING ∧ retry_count job = 0%Z ∧ job_queue s = ["x"%string]
   ∧ Forall (λ a, attempt_fails a = true) (replicate 4 failing_attempt))
  ∧ (∃ s1 job1,
       on_failure "x" (RuntimeError "boom") 2 s
       = (s1, inr (retry_on_failure s
                   && bool_decide (retry_count job < max_retries s)%Z))
       ∧ jobs s1 !! "x"%string = Some job1
       ∧ retry_count job1 = (retry_count job + 1)%Z
       ∧ status job1
         = if retry_on_failure s && bool_decide (retry_count job < max_retries s)%Z
           then PENDING else FAILED)
  ∧ (∃ s' job',
       for_each (replicate 4 failing_attempt) worker_pass s = (s', inr tt)
       ∧ jobs s' !! "x"%string = Some job'
       ∧ status job' = FAILED ∧ retry_count job' = 4%Z
       ∧ job_queue s' = [] ∧ dispatches "x" s' = 4).
Proof.
  intros s job.
  assert (jobs s !! "x"%string = Some job) as Hj by (vm_compute; reflexivity).
  assert (Forall (λ a, attempt_fails a = true) (replicate 4 failing_attempt)) as Hall.
  { apply Forall_replicate. reflexivity. }
  destruct retry_policy_always_failing as [Hrule Hrun].
  split; [|split].
  - repeat split; try reflexivity; try exact Hj; try exact Hall. vm_compute. discriminate.
  - exact (Hrule s "x"%string job (RuntimeError "boom") 2%Z Hj).
  - destruct (Hrun s "x"%string job (replicate 4 failing_attempt))
      as (s' & job' & H1 & H2 & _ & H4); try reflexivity; try exact Hj; try exact Hall.
    { vm_compute. discriminate. }
    exists s', job'. destruct H4 as (? & ? & ? & ?); [vm_compute; reflexivity|].
    repeat split; assumption.
Defined.

(** C1, as stated, fails: with [max_retries = 3] the job that always fails
    ends [FAILED] with [retry_count = 4]. *)
Lemma retry_count_exceeds_max_retries :
  retry_on_failure always_failing = true
  ∧ max_retries always_failing = 3%Z
  ∧ dispatches "x" always_failing = 4
  ∧ ∃ job, jobs always_failing !! "x"%string = Some job
      ∧ status job = FAILED
      ∧ retry_count job = 4%Z
      ∧ retry_count job ≠ max_retries always_failing.
Proof.
  split_and!; try (vm_compute; reflexivity).
  eexists. split; [vm_compute; reflexivity|]. split_and!; try reflexivity.
  vm_compute. discriminate.
Qed.




(** The invariant of C2 is one of the schedules in which [clear_completed]
    is not called. When a job is cancelled in the queue and cleared, and a
    job is added under the same id, the id is in the queue twice; if the
    first pass of the worker completes the new job and the dispatch of the
    second pass fails, the job ends [FAILED] with the result of the first
    pass. *)
Lemma failed_with_result_after_clear :
  job_queue cleared_and_added_again = ["x"; "x"]%string
  ∧ ∃ job, jobs completed_then_failed !! "x"%string = Some job
      ∧ status job = FAILED
      ∧ result job = Some {[ "status"%string := "success"%string ]}
      ∧ error job = Some "Failed to connect to ComfyUI"%string.
Proof.
  split; [vm_compute; reflexivity|].
  eexists. split; [vm_compute; reflexivity|]. by split_and!.
Qed.

(** C3. The bound on the number of running jobs does not hold: with
    [max_concurrent = 1], two workers and two jobs, both workers pass the
    check of line 238 while [running_jobs] is empty, both dequeue a job, and
    both jobs are [RUNNING] at once. *)
Theorem running_exceeds_max_concurrent :
  let c := execs limit_race (fresh_pool 1 true 3) in
  max_concurrent (mgr c) = 1%Z
  ∧ threads c = [PStarted "a"; PStarted "b"]
  ∧ running_jobs (mgr c) = ["a"; "b"]%string
  ∧ Stats.running (get_statistics (mgr c)) = 2.
Proof. by vm_compute. Qed.

(** C4. Adding an id that is in the store raises [ValueError] and leaves the
    whole state as it was: no job is changed or created, nothing is put on
    the queue. *)
Theorem add_job_duplicate (s : QueueManager) (jid : string) (wf : Dict)
    (md : option Dict) (now : Z) (job : Job) :
  jobs s !! jid = Some job →
  add_job jid wf md now s
  = (s, inl (ValueError ("Job ID already exists: " +:+ jid))).
Proof. intros H. by rewrite add_job_run, H. Qed.

Lemma add_job_duplicate_witness :
  jobs (one_job 3 true 3) !! "x"%string = Some (new_job "x" ∅ None 0)
  ∧ add_job "x" {[ "seed"%string := "7"%string ]} None 9 (one_job 3 true 3)
    = (one_job 3 true 3, inl (ValueError ("Job ID already exists: " +:+ "x"))).
Proof.
  assert (jobs (one_job 3 true 3) !! "x"%string = Some (new_job "x" ∅ None 0))
    as Hj by (vm_compute; reflexivity).
  split; [exact Hj|]. exact (add_job_duplicate _ _ _ _ _ _ Hj).
Defined.

(** C5. [cancel_job] on a job of the store: a [PENDING] job becomes
    [CANCELLED], the [job_cancelled] listeners are called with it, and the
    result is [True]; for a [RUNNING] job the client's interrupt is
    requested and, if it succeeds, the same happens, while if it raises
    nothing but the count of interrupt requests changes and the result is
    [False]; for a [COMPLETED], [FAILED] or [CANCELLED] job the state is
    unchanged and the result is [False]. *)
Theorem cancel_job_spec (s : QueueManager) (jid : string) (job : Job)
    (interrupt : option exn) :
  get_job jid s = Some job →
  match status job with
  | PENDING =>
      cancel_job jid interrupt s = (cancelled_state jid job s, inr true)
  | RUNNING =>
      match interrupt with
      | None =>
          cancel_job jid interrupt s
          = (cancelled_state jid job (set_interrupts (S (interrupts s)) s), inr true)
      | Some e =>
          cancel_job jid interrupt s
          = (set_interrupts (S (interrupts s)) s, inr false)
      end
  | COMPLETED | FAILED | CANCELLED =>
      cancel_job jid interrupt s = (s, inr false)
  end.
Proof. apply cancel_job_run. Qed.

Lemma cancel_job_spec_witness :
  let s := one_job 3 true 3 in
  let job := new_job "x" ∅ None 0 in
  get_job "x" s = Some job
  ∧ cancel_job "x" None s = (cancelled_state "x" job s, inr true).
Proof.
  intros s job.
  assert (get_job "x" s = Some job) as Hj by (vm_compute; reflexivity).
  split; [exact Hj|]. exact (cancel_job_spec s "x"%string job None Hj).
Defined.

(** What the check of line 252 achieves. When a call of [cancel_job]
    writes [CANCELLED] (line 160 or 169) and no worker has passed the check
    of line 252 with the id at that moment, then, whatever the workers, the
    calls of [cancel_job] and the caller do afterwards ([clear_completed]
    excepted), the job is not dispatched and its record stays as the write
    left it; no worker takes the job in hand, and a worker that dequeues the
    id goes back to its loop without touching anything. *)
Lemma written_cancellation_holds (c : Pool) (jid : string) (job : Job)
    (k : nat) (interrupt : option exn) (acts : list action) :
  jobs (mgr c) !! jid = Some job →
  callers c !! k = Some (CWrite jid) →
  Forall (λ p, in_flight p ≠ Some jid) (threads c) →
  let c1 := exec (Step k interrupt) c in
  let c2 := execs acts c1 in
  callers c1 !! k = Some (CAnnounce jid)
  ∧ jobs (mgr c2) !! jid = Some (set_status CANCELLED job)
  ∧ dispatches jid (mgr c2) = dispatches jid (mgr c)
  ∧ Forall (λ p, in_flight p ≠ Some jid) (threads c2)
  ∧ ∀ now resp, thread_step (WCheck jid) now resp (mgr c2) = (mgr c2, WLoop).
Proof.
  intros Hj Hk Hth c1 c2.
  assert (parked jid (set_status CANCELLED job) (dispatches jid (mgr c)) c1) as Hp.
  { unfold parked, dispatches, c1. simpl. rewrite Hk. simpl.
    by rewrite lookup_alter_eq, Hj. }
  apply (parked_execs acts) in Hp. fold c2 in Hp.
  destruct Hp as (Hj2 & _ & Hn & Hth2).
  split_and!; try done.
  - unfold c1. simpl. rewrite Hk. simpl.
    apply list_lookup_insert_eq. by eapply lookup_lt_Some.
  - intros now resp. simpl. unfold get_job. by rewrite Hj2.
Qed.

(** The write of line 160 reaches the job while its id is in the queue: the
    worker then discards the id. *)
Lemma written_cancellation_holds_in_queue :
  job_queue (mgr before_write) = ["x"%string]
  ∧ jobs (mgr (execs (work 0 9) (exec (Step 0 None) before_write))) !! "x"%string
    = Some (set_status CANCELLED (new_job "x" ∅ None 0))
  ∧ job_queue (mgr (execs (work 0 9) (exec (Step 0 None) before_write))) = []
  ∧ submitted (mgr (execs (work 0 9) (exec (Step 0 None) before_write))) = [].
Proof. by vm_compute. Qed.

(** C6. A job cancelled while [PENDING] is dispatched all the same. The job
    ["x"] is [PENDING] and in the queue when [cancel_job] is called and when
    it tests the status (line 159); the worker dequeues the id and passes
    the check of line 252 before the write of line 160; the call writes
    [CANCELLED], calls the [job_cancelled] listeners and returns [True]; the
    worker then marks the job [RUNNING] (line 187), hands it to the client,
    and the job ends [COMPLETED] with a [prompt_id] and a result. *)
Theorem cancelled_pending_dispatched :
  (status <$> jobs (mgr before_write) !! "x"%string) = Some PENDING
  ∧ job_queue (mgr before_write) = ["x"%string]
  ∧ threads before_write = [WLoop]
  ∧ callers before_write = [CWrite "x"]
  ∧ (status <$> jobs (mgr overtaken) !! "x"%string) = Some PENDING
  ∧ threads overtaken = [PEnter "x"]
  ∧ callers overtaken = [CWrite "x"]
  ∧ (status <$> jobs (mgr cancelled_in_hand) !! "x"%string) = Some CANCELLED
  ∧ threads cancelled_in_hand = [PEnter "x"]
  ∧ callers cancelled_in_hand = [CReturn true]
  ∧ calls (mgr cancelled_in_hand)
    = [mkCall "job_cancelled" "quiet"
         (Some (set_status CANCELLED (new_job "x" ∅ None 0)))]
  ∧ submitted (mgr cancelled_in_hand) = []
  ∧ (status <$> jobs (mgr processed_after_write) !! "x"%string) = Some COMPLETED
  ∧ (prompt_id <$> jobs (mgr processed_after_write) !! "x"%string)
    = Some (Some "p1"%string)
  ∧ submitted (mgr processed_after_write) = ["x"%string].
Proof. by vm_compute. Qed.

(** The [prompt_id] of a cancelled job need not be null: a job cancelled in
    the queue after a failed attempt is discarded by the worker, and keeps
    the [prompt_id] of that attempt. *)
Lemma cancelled_between_retries :
  (status <$> jobs retried !! "x"%string) = Some PENDING
  ∧ job_queue retried = ["x"%string]
  ∧ (cancel_job "x" None retried).2 = inr true
  ∧ (status <$> jobs cancelled_after_retry !! "x"%string) = Some CANCELLED
  ∧ (prompt_id <$> jobs cancelled_after_retry !! "x"%string)
    = Some (Some "p1"%string)
  ∧ submitted cancelled_after_retry = submitted retried.
Proof. by vm_compute. Qed.

(** C7. In every state the five counts of [get_statistics] add up to
    [total_jobs]; and after any schedule in which the ids of the [add_job]
    calls are distinct, whatever the workers and the caller do in between,
    [total_jobs] is the number of those calls. *)
Theorem statistics_consistent :
  (∀ s, let st := get_statistics s in
        Stats.pending st + Stats.running st + Stats.completed st
        + Stats.failed st + Stats.cancelled st = Stats.total_jobs st)
  ∧ (∀ mc rf mr acts,
       NoDup (added acts) →
       Stats.total_jobs
         (get_statistics (mgr (execs acts (fresh_pool mc rf mr))))
       = length (added acts)).
Proof.
  split; [apply statistics_partition|]. intros mc rf mr acts Hnd. simpl.
  rewrite execs_total_jobs; [done|done|]. intros. apply lookup_empty.
Qed.

Lemma statistics_consistent_witness :
  NoDup (added limit_race)
  ∧ Stats.total_jobs (get_statistics (mgr (execs limit_race (fresh_pool 1 true 3))))
    = length (added limit_race)
  ∧ (let st := get_statistics (mgr (execs limit_race (fresh_pool 1 true 3))) in
     Stats.pending st + Stats.running st + Stats.completed st
     + Stats.failed st + Stats.cancelled st = Stats.total_jobs st).
Proof.
  assert (NoDup (added limit_race)) as Hnd.
  { change (added limit_race) with ["a"%string; "b"%string].
    apply NoDup_cons. split.
    - intros H. apply list_elem_of_singleton in H. discriminate.
    - apply NoDup_singleton. }
  destruct statistics_consistent as [Hsum Htotal].
  split; [exact Hnd|]. split; [exact (Htotal 1%Z true 3%Z limit_race Hnd)|].
  exact (Hsum _).
Defined.

(** What [wait_for_completion] does. It returns normally only at a poll
    that finds the queue empty and then the list [running_jobs] empty, every
    earlier poll having found one of them non-empty; it then calls the
    [queue_empty] listeners once, in order, with no argument, and changes
    nothing else. It raises [TimeoutError] only when a non-zero timeout was
    given, at a poll that finds the queue or [running_jobs] non-empty more
    than [timeout] after the start, and it then leaves the state as it is;
    and it does raise at the first such poll. The statuses of the jobs are
    not read. *)
Lemma wait_for_completion_polls (timeout : option Z) (start_time : Z)
    (polls : list Poll) :
  (∀ s' r,
     wait_for_completion timeout start_time polls = Some (s', r) →
     ∃ before p after,
       polls = before ++ p :: after
       ∧ Forall (λ p, busy p = true) before
       ∧ match r with
         | inr _ =>
             job_queue (at_queue p) = [] ∧ running_jobs (at_running p) = []
             ∧ s' = log_calls (fired "queue_empty" None (at_end p)) (at_end p)
         | inl e =>
             e = TimeoutError "Queue did not complete within timeout"
             ∧ s' = at_end p ∧ busy p = true
             ∧ ∃ t, timeout = Some t ∧ t ≠ 0%Z ∧ (t < at_clock p - start_time)%Z
         end)
  ∧ (∀ before p after,
       polls = before ++ p :: after →
       Forall (λ p, busy p = true
                    ∧ timed_out timeout start_time (at_clock p) = false)
              before →
       busy p = true → timed_out timeout start_time (at_clock p) = true →
       wait_for_completion timeout start_time polls
       = Some (at_end p,
               inl (TimeoutError "Queue did not complete within timeout"))).
Proof.
  unfold wait_for_completion. split.
  - induction polls as [|p polls IH]; intros s' r H; simpl in H; [done|].
    destruct (busy p) eqn:Hb.
    + destruct (timeout_set timeout && _) eqn:Ht.
      * injection H as <- <-. exists [], p, polls. split_and!; try done.
        apply andb_true_iff in Ht as [Hset Hlt]. apply bool_decide_eq_true in Hlt.
        destruct timeout as [t|]; [|done]. exists t. split_and!; try done.
        simpl in Hset. intros ->. done.
      * destruct (IH _ _ H) as (before & p0 & after & -> & Hall & Hr).
        exists (p :: before), p0, after. split_and!; try done.
        by constructor.
    + rewrite _trigger_callbacks_run in H. injection H as <- <-.
      exists [], p, polls. split_and!; try done.
      * unfold busy in Hb. apply orb_false_iff in Hb as [Hb _].
        apply negb_false_iff, bool_decide_eq_true in Hb. done.
      * unfold busy in Hb. apply orb_false_iff in Hb as [_ Hb].
        apply negb_false_iff, bool_decide_eq_true in Hb. done.
  - intros before p after -> Hall Hb Ht.
    induction before as [|p0 before IH]; simpl.
    + rewrite Hb. unfold timed_out in Ht. by rewrite Ht.
    + apply Forall_cons in Hall as [[Hb0 Ht0] Hall]. simpl in *.
      rewrite Hb0. unfold timed_out in Ht0. rewrite Ht0. by apply IH.
Qed.

(** C8. [wait_for_completion] returns while a job is [RUNNING], and while a
    job has not been processed at all. When the worker has executed line 187
    for the only job and not yet line 189, the queue and [running_jobs] are
    empty and the job is [RUNNING]; when it has dequeued the id (line 246)
    and not yet executed line 187, they are empty and the job is [PENDING].
    A poll of the drain in either state ends the loop, and the call returns
    normally. So does a poll that reads the queue while the job is being
    processed and [running_jobs] after the failed job was put back in the
    queue: the job is then [PENDING] and queued for its retry. *)
Theorem drain_returns_while_running :
  (threads marked_not_recorded = [PStartedAt "x"]
   ∧ job_queue (mgr marked_not_recorded) = []
   ∧ running_jobs (mgr marked_not_recorded) = []
   ∧ (status <$> jobs (mgr marked_not_recorded) !! "x"%string) = Some RUNNING
   ∧ Stats.running (get_statistics (mgr marked_not_recorded)) = 1
   ∧ (snd <$> wait_for_completion None 0 [still 5 (mgr marked_not_recorded)])
     = Some (inr tt))
  ∧ (threads dequeued_not_marked = [WCheck "x"]
     ∧ job_queue (mgr dequeued_not_marked) = []
     ∧ running_jobs (mgr dequeued_not_marked) = []
     ∧ (status <$> jobs (mgr dequeued_not_marked) !! "x"%string) = Some PENDING
     ∧ submitted (mgr dequeued_not_marked) = []
     ∧ (snd <$> wait_for_completion None 0 [still 5 (mgr dequeued_not_marked)])
       = Some (inr tt))
  ∧ (threads awaiting = [PAwait "x"]
     ∧ job_queue (mgr awaiting) = []
     ∧ running_jobs (mgr awaiting) = ["x"%string]
     ∧ threads requeued = [WLoop]
     ∧ job_queue (mgr requeued) = ["x"%string]
     ∧ running_jobs (mgr requeued) = []
     ∧ (status <$> jobs (mgr requeued) !! "x"%string) = Some PENDING
     ∧ (snd <$> wait_for_completion None 0 [overlapping]) = Some (inr tt)).
Proof. by vm_compute. Qed.

(** C9. Firing an event calls every listener registered for it, each once,
    in the order of registration, and hands it the job (or nothing); whether
    a listener raises or not, the later listeners are called and
    [_trigger_callbacks] returns normally to its caller, having changed
    nothing but the log of calls. *)
Theorem trigger_callbacks_in_order (s : QueueManager) (ev : string)
    (registered new : list Listener) (job : option Job) :
  callbacks s !! ev = Some registered →
  let s1 := foldl (λ s cb, run (on ev cb) s) s new in
  _trigger_callbacks ev job s1
  = (log_calls ((λ cb, mkCall ev (l_name cb) job) <$> (registered ++ new)) s1,
     inr tt).
Proof.
  intros H s1. rewrite _trigger_callbacks_run. f_equal. f_equal.
  unfold fired. subst s1. revert s registered H.
  induction new as [|cb new IH]; intros s registered H; simpl.
  - by rewrite H, app_nil_r.
  - unfold run at 2. rewrite (on_run _ _ _ _ H). simpl.
    rewrite (IH _ (registered ++ [cb])).
    + by rewrite <- app_assoc.
    + simpl. by rewrite lookup_insert_eq.
Qed.

Lemma trigger_callbacks_in_order_witness :
  let s := __init__ 3 true 3 in
  let s1 := foldl (λ s cb, run (on "job_failed" cb) s) s [noisy; quiet] in
  callbacks s !! "job_failed"%string = Some []
  ∧ l_run noisy None = Some (RuntimeError "boom")
  ∧ _trigger_callbacks "job_failed" None s1
    = (log_calls [mkCall "job_failed" "noisy" None; mkCall "job_failed" "quiet" None]
                 s1,
       inr tt).
Proof.
  intros s s1.
  assert (callbacks s !! "job_failed"%string = Some []) as H
    by (vm_compute; reflexivity).
  split; [exact H|]. split; [reflexivity|].
  exact (trigger_callbacks_in_order s "job_failed"%string [] [noisy; quiet] None H).
Defined.

(** C10. A timeout of [0] is no timeout: [wait_for_completion(0)] does at
    every sequence of polls what [wait_for_completion(None)] does, never
    raises, and stays blocked exactly as long as every poll finds the queue
    or [running_jobs] non-empty. *)
Theorem zero_timeout_is_no_timeout (start_time : Z) (polls : list Poll) :
  wait_for_completion (Some 0%Z) start_time polls
  = wait_for_completion None start_time polls
  ∧ (∀ s e, wait_for_completion (Some 0%Z) start_time polls ≠ Some (s, inl e))
  ∧ (wait_for_completion (Some 0%Z) start_time polls = None
     ↔ Forall (λ p, busy p = true) polls).
Proof.
  unfold wait_for_completion. induction polls as [|p polls IH]; simpl.
  - split; [done|]. split; [done|]. split; [constructor|done].
  - destruct IH as (IH1 & IH2 & IH3). destruct (busy p) eqn:Hb.
    + split; [done|]. split; [done|]. rewrite IH3. split.
      * intros H. by constructor.
      * by inversion 1.
    + rewrite _trigger_callbacks_run. split; [done|]. split; [done|].
      split; [done|]. inversion 1; simplify_eq/=. congruence.
Qed.

Lemma zero_timeout_is_no_timeout_witness :
  wait_for_completion (Some 0%Z) 0 [still 1000 (one_job 3 true 3)] = None
  ∧ wait_for_completion (Some 0%Z) 0 [still 1000 (one_job 3 true 3)]
    = wait_for_completion None 0 [still 1000 (one_job 3 true 3)].
Proof.
  split; [reflexivity|].
  destruct (zero_timeout_is_no_timeout 0%Z [still 1000 (one_job 3 true 3)])
    as [H _].
  exact H.
Defined.

(** * Further properties of the manager and of the client *)

(** ** The job store *)

Lemma length_filter_snd {A B} (P : B → Prop) `{!∀ x, Decision (P x)}
    (l : list (A * B)) :
  length (filter P (l.*2)) = length (filter (λ kv, P kv.2) l).
Proof.
  induction l as [|[a b] l IH]; [done|]. simpl.
  rewrite !filter_cons. simpl. destruct (decide (P b)); simpl;
    [f_equal|]; exact IH.
Qed.

Lemma count_status_insert st (m : gmap string Job) j job :
  m !! j = None →
  length (filter (λ x, status x = st) (map_to_list (<[j := job]> m)).*2)
  = (if decide (status job = st) then 1 else 0)
    + length (filter (λ x, status x = st) (map_to_list m).*2).
Proof.
  intros H. rewrite (map_to_list_insert m j job H). simpl.
  rewrite filter_cons. by destruct (decide (status job = st)).
Qed.

Lemma elem_of_get_jobs_by_status st s job :
  job ∈ get_jobs_by_status st s
  ↔ (∃ j, get_job j s = Some job) ∧ status job = st.
Proof.
  unfold get_jobs_by_status, job_values, get_job.
  rewrite list_elem_of_filter, list_elem_of_fmap. split.
  - intros [Hst ([j x] & -> & Hin)]. apply elem_of_map_to_list in Hin. eauto.
  - intros [[j Hj] Hst]. split; [done|]. exists (j, job). split; [done|].
    by apply elem_of_map_to_list.
Qed.

(** Adding a job under an id the store does not have: the new job is
    returned and stored, it is [PENDING], its id goes to the tail of the
    queue, no other job changes, and the statistics count one more job, a
    pending one. *)
Theorem add_job_fresh (s : QueueManager) (j : string) (wf : Dict)
    (md : option Dict) (now : Z) :
  get_job j s = None →
  let job := new_job j wf md now in
  let s' := run (add_job j wf md now) s in
  add_job j wf md now s = (s', inr job)
  ∧ get_job j s' = Some job
  ∧ get_job_status j s' = Some PENDING
  ∧ job ∈ get_jobs_by_status PENDING s'
  ∧ (∀ j', j' ≠ j → get_job j' s' = get_job j' s)
  ∧ job_queue s' = job_queue s ++ [j]
  ∧ Stats.total_jobs (get_statistics s') = S (Stats.total_jobs (get_statistics s))
  ∧ Stats.pending (get_statistics s') = S (Stats.pending (get_statistics s))
  ∧ Stats.queue_size (get_statistics s') = S (Stats.queue_size (get_statistics s)).
Proof.
  intros H job s'. unfold get_job in H. subst s' job. unfold run.
  rewrite add_job_run, H. cbn [fst].
  set (job := new_job j wf md now).
  assert (get_job j (set_job_queue (job_queue s ++ [j])
            (set_jobs (<[j:=job]> (jobs s)) s)) = Some job) as Hj.
  { unfold get_job. simpl. apply lookup_insert_eq. }
  split_and!; try done.
  - unfold get_job_status. by rewrite Hj.
  - apply elem_of_get_jobs_by_status. eauto.
  - intros j' Hne. unfold get_job. simpl. by rewrite lookup_insert_ne.
  - simpl. by rewrite map_size_insert_None.
  - simpl. unfold get_jobs_by_status, job_values. simpl.
    by rewrite count_status_insert.
  - simpl. rewrite length_app. simpl. lia.
Qed.

Lemma add_job_fresh_witness :
  let s := one_job 3 true 3 in
  let job := new_job "y" ∅ None 5 in
  let s' := run (add_job "y" ∅ None 5) s in
  get_job "y" s = None
  ∧ get_job "y" s' = Some job
  ∧ job_queue s' = ["x"; "y"]%string
  ∧ Stats.total_jobs (get_statistics s') = 2.
Proof.
  intros s job s'.
  assert (get_job "y" s = None) as H by (vm_compute; reflexivity).
  pose proof (add_job_fresh s "y"%string ∅ None 5%Z H) as (_ & Hj & _ & _ & _ & Hq & Ht & _).
  split; [exact H|]. split; [exact Hj|]. split; [exact Hq|]. exact Ht.
Defined.

(** ** [clear_completed] *)

Lemma elem_of_completed_ids s j :
  j ∈ completed_ids s
  ↔ ∃ job, jobs s !! j = Some job ∧ status job ∈ [COMPLETED; FAILED; CANCELLED].
Proof.
  unfold completed_ids. rewrite list_elem_of_fmap. split.
  - intros ([j' job] & -> & Hin). apply list_elem_of_filter in Hin as [Hst Hin].
    apply elem_of_map_to_list in Hin. eauto.
  - intros (job & Hj & Hst). exists (j, job). split; [done|].
    apply list_elem_of_filter. split; [done|]. by apply elem_of_map_to_list.
Qed.

Lemma NoDup_completed_ids s : NoDup (completed_ids s).
Proof.
  unfold completed_ids.
  eapply sublist_NoDup; [apply (NoDup_fst_map_to_list (jobs s))|].
  apply fmap_sublist, sublist_filter.
Qed.

Lemma del_jobs_run ids : ∀ s,
  NoDup ids → (∀ j, j ∈ ids → is_Some (jobs s !! j)) →
  foldl (λ acc job_id, acc ≫= del_job job_id) (Some s) ids
  = Some (set_jobs (filter (λ kv : string * Job, kv.1 ∉ ids) (jobs s)) s).
Proof.
  induction ids as [|a ids IH]; intros s Hnd Hin.
  - simpl. f_equal. rewrite <- (set_jobs_same s) at 1. f_equal.
    symmetry. apply map_filter_id. intros i x _. apply not_elem_of_nil.
  - apply NoDup_cons in Hnd as [Ha Hnd]. simpl. unfold del_job at 2.
    destruct (Hin a) as [x Hx]; [by left|]. rewrite Hx.
    rewrite IH; [|done|].
    + f_equal. rewrite set_jobs_twice. f_equal. simpl.
      apply map_eq. intros i. apply option_eq. intros y.
      rewrite !map_lookup_filter_Some, lookup_delete_Some. simpl.
      rewrite not_elem_of_cons. intuition congruence.
    + intros j Hj. simpl. rewrite lookup_delete_ne; [|by intros ->].
      apply Hin. by right.
Qed.

Lemma clear_completed_run s :
  clear_completed s
  = Some (set_jobs (filter (λ kv : string * Job,
                              status kv.2 ∉ [COMPLETED; FAILED; CANCELLED])
                           (jobs s)) s).
Proof.
  unfold clear_completed. rewrite del_jobs_run.
  - f_equal. f_equal. apply map_filter_strong_ext. intros i x. simpl.
    rewrite elem_of_completed_ids. split.
    + intros [Hn Hx]. split; [|done]. intros Hst. apply Hn. eauto.
    + intros [Hn Hx]. split; [|done]. intros (job & Hj & Hst). congruence.
  - apply NoDup_completed_ids.
  - intros j Hj. apply elem_of_completed_ids in Hj as (job & Hj & _). eauto.
Qed.

Lemma status_cases st :
  st ∉ [COMPLETED; FAILED; CANCELLED] ↔ st = PENDING ∨ st = RUNNING.
Proof.
  split.
  - intros H. destruct st; [by left|by right|..];
      exfalso; apply H; apply list_elem_of_In; simpl; tauto.
  - intros [-> | ->] H; apply list_elem_of_In in H; simpl in H;
      intuition discriminate.
Qed.

Lemma count_status_cleared st (m : gmap string Job) :
  length (filter (λ x, status x = st)
            (map_to_list (filter (λ kv : string * Job,
                                    status kv.2 ∉ [COMPLETED; FAILED; CANCELLED]) m)).*2)
  = if decide (st = PENDING ∨ st = RUNNING)
    then length (filter (λ x, status x = st) (map_to_list m).*2)
    else 0.
Proof.
  rewrite map_filter_alt, map_to_list_to_map.
  2:{ eapply sublist_NoDup; [apply (NoDup_fst_map_to_list m)|].
      apply fmap_sublist, sublist_filter. }
  rewrite !length_filter_snd, list_filter_filter.
  destruct (decide _) as [Hst|Hst].
  - f_equal. apply list_filter_iff. intros [i x]. simpl. rewrite status_cases.
    intuition congruence.
  - replace (filter _ (map_to_list m)) with (@nil (string * Job)); [done|].
    symmetry. induction (map_to_list m) as [|[i x] l IH]; [done|].
    rewrite filter_cons. simpl. destruct (decide _) as [[Hx Hn]|_]; [|done].
    apply status_cases in Hn. congruence.
Qed.

(** [clear_completed] never fails on a missing key; it removes from the
    store exactly the jobs that are [COMPLETED], [FAILED] or [CANCELLED],
    and keeps the [PENDING] and [RUNNING] ones as they are; it touches
    neither the queue nor anything else; and clearing again changes
    nothing. *)
Theorem clear_completed_spec (s : QueueManager) :
  ∃ s', clear_completed s = Some s'
    ∧ (∀ j job, get_job j s' = Some job
                ↔ get_job j s = Some job
                  ∧ (status job = PENDING ∨ status job = RUNNING))
    ∧ s' = set_jobs (jobs s') s
    ∧ clear_completed s' = Some s'.
Proof.
  rewrite clear_completed_run. eexists. split; [done|]. split_and!.
  - intros j job. unfold get_job. simpl.
    rewrite map_lookup_filter_Some. simpl. by rewrite status_cases.
  - reflexivity.
  - rewrite clear_completed_run. f_equal. rewrite set_jobs_twice. f_equal. simpl.
    apply map_filter_id. intros i x Hx.
    by apply map_lookup_filter_Some in Hx as [_ Hx].
Qed.

(** After [clear_completed] the statistics count the same pending and
    running jobs as before and no completed, failed or cancelled one;
    [queue_size] is what it was, also when ids of removed jobs are still in
    the queue. *)
Theorem clear_completed_statistics (s s' : QueueManager) :
  clear_completed s = Some s' →
  let st := get_statistics s in
  let st' := get_statistics s' in
  Stats.pending st' = Stats.pending st
  ∧ Stats.running st' = Stats.running st
  ∧ Stats.completed st' = 0
  ∧ Stats.failed st' = 0
  ∧ Stats.cancelled st' = 0
  ∧ Stats.total_jobs st' = Stats.pending st + Stats.running st
  ∧ Stats.queue_size st' = Stats.queue_size st
  ∧ Stats.is_running st' = Stats.is_running st
  ∧ Stats.is_paused st' = Stats.is_paused st.
Proof.
  rewrite clear_completed_run. intros [= <-] st st'.
  assert (∀ x, length (get_jobs_by_status x
             (set_jobs (filter (λ kv : string * Job,
                status kv.2 ∉ [COMPLETED; FAILED; CANCELLED]) (jobs s)) s))
          = if decide (x = PENDING ∨ x = RUNNING)
            then length (get_jobs_by_status x s) else 0) as Hc.
  { intros x. unfold get_jobs_by_status, job_values. simpl.
    apply count_status_cleared. }
  pose proof (statistics_partition
    (set_jobs (filter (λ kv : string * Job,
                status kv.2 ∉ [COMPLETED; FAILED; CANCELLED]) (jobs s)) s)) as Hp.
  subst st st'. simpl in *. rewrite !Hc in Hp. rewrite !Hc.
  repeat (destruct (decide _) as [[?|?]|?]; try discriminate; try tauto).
  split_and!; try done. lia.
Qed.

Lemma clear_completed_statistics_witness :
  let s := run (cancel_job "x" None) (one_job 3 true 3) in
  let s' := set_jobs ∅ s in
  clear_completed s = Some s'
  ∧ Stats.cancelled (get_statistics s) = 1
  ∧ Stats.cancelled (get_statistics s') = 0
  ∧ Stats.total_jobs (get_statistics s') = 0
  ∧ Stats.queue_size (get_statistics s') = 1.
Proof.
  intros s s'.
  assert (clear_completed s = Some s') as H by (vm_compute; reflexivity).
  pose proof (clear_completed_statistics s s' H) as (_ & _ & _ & _ & Hc & Ht & Hq & _).
  split; [exact H|]. split; [vm_compute; reflexivity|].
  split; [exact Hc|]. split; [exact Ht|]. exact Hq.
Defined.

(** ** One run of [_process_job] *)

Lemma list_remove_first_app (j : string) (l : list string) :
  list_remove_first j (l ++ [j]) ≡ₚ l
  ∧ (j ∉ l → list_remove_first j (l ++ [j]) = l).
Proof.
  induction l as [|x l [IH1 IH2]]; simpl.
  - rewrite decide_True by done. done.
  - destruct (decide (j = x)) as [->|Hne].
    + split; [|intros H; exfalso; apply H; by left].
      rewrite <- Permutation_cons_append. done.
    + split; [by rewrite IH1|]. intros H. f_equal. apply IH2.
      intros Hin. apply H. by right.
Qed.

Lemma except_tail_run j e now s job :
  jobs s !! j = Some job →
  except_tail j e now s
  = (let s1 := set_jobs (alter (failed s e now) j (jobs s)) s in
     let s2 := if retries s job then set_job_queue (job_queue s ++ [j]) s1
               else log_calls (announced "job_failed" j s1) s1 in
     set_running_jobs (list_remove_first j (running_jobs s)) s2, inr tt).
Proof.
  intros Hj. unfold except_tail. munfold. rewrite on_failure_run, Hj. cbv zeta.
  destruct (retries s job); unfold requeue; munfold; by rewrite release_slot_run.
Qed.

Lemma failed_status s e now job :
  status (failed s e now job) = if retries s job then PENDING else FAILED.
Proof. unfold failed. by destruct (retries s job). Qed.

Lemma process_job_any (j : string) (a : Attempt) (s : QueueManager)
    (job : Job) :
  get_job j s = Some job →
  ∃ s' job',
    _process_job j a s = (s', inr tt)
    ∧ get_job j s' = Some job'
    ∧ (∀ j', j' ≠ j → get_job j' s' = get_job j' s)
    ∧ submitted s' = submitted s ++ [j]
    ∧ running_jobs s' ≡ₚ running_jobs s
    ∧ (j ∉ running_jobs s → running_jobs s' = running_jobs s)
    ∧ callbacks s' = callbacks s
    ∧ (if attempt_fails a
       then if retries s job
            then status job' = PENDING ∧ job_queue s' = job_queue s ++ [j]
            else status job' = FAILED ∧ job_queue s' = job_queue s
       else job' = succeeded a job ∧ status job' = COMPLETED
            ∧ job_queue s' = job_queue s).
Proof.
  unfold get_job. intros Hj. rewrite (_process_job_run _ _ _ _ Hj). cbv zeta.
  destruct (list_remove_first_app j (running_jobs s)) as [Hp Heq].
  assert (∀ s0 f e,
    jobs s0 = alter f j (jobs s) → (∀ x, retry_count (f x) = retry_count x) →
    job_queue s0 = job_queue s → submitted s0 = submitted s ++ [j] →
    running_jobs s0 = running_jobs s ++ [j] → callbacks s0 = callbacks s →
    retry_on_failure s0 = retry_on_failure s → max_retries s0 = max_retries s →
    ∃ s' job',
      except_tail j e (a_finished a) s0 = (s', inr tt)
      ∧ jobs s' !! j = Some job'
      ∧ (∀ j', j' ≠ j → jobs s' !! j' = jobs s !! j')
      ∧ submitted s' = submitted s ++ [j]
      ∧ running_jobs s' ≡ₚ running_jobs s
      ∧ (j ∉ running_jobs s → running_jobs s' = running_jobs s)
      ∧ callbacks s' = callbacks s
      ∧ (if retries s job
         then status job' = PENDING ∧ job_queue s' = job_queue s ++ [j]
         else status job' = FAILED ∧ job_queue s' = job_queue s)) as Htail.
  { intros s0 f e Hjobs Hf Hq Hsub Hrun Hcb Hrf Hmr.
    assert (jobs s0 !! j = Some (f job)) as Hj0.
    { by rewrite Hjobs, lookup_alter_eq, Hj. }
    assert (retries s0 (f job) = retries s job) as Hr.
    { unfold retries. by rewrite Hf, Hrf, Hmr. }
    rewrite (except_tail_run _ _ _ _ _ Hj0). cbv zeta. rewrite Hr.
    exists (set_running_jobs (list_remove_first j (running_jobs s0))
              (if retries s job
               then set_job_queue (job_queue s0 ++ [j])
                      (set_jobs (alter (failed s0 e (a_finished a)) j (jobs s0)) s0)
               else log_calls
                      (announced "job_failed" j
                         (set_jobs (alter (failed s0 e (a_finished a)) j (jobs s0)) s0))
                      (set_jobs (alter (failed s0 e (a_finished a)) j (jobs s0)) s0))),
           (failed s0 e (a_finished a) (f job)).
    rewrite failed_status, Hr.
    destruct (retries s job); simpl; rewrite Hrun; split_and!; try done;
      try (by rewrite lookup_alter_eq, Hj0);
      try (intros j' Hne; rewrite lookup_alter_ne by done;
           rewrite Hjobs; by rewrite lookup_alter_ne by done);
      try (by rewrite Hq). }
  destruct (attempt_fails a) eqn:Hfail; unfold attempt_fails in Hfail.
  - destruct (a_submit a) as [e|r].
    + by apply (Htail _ (started (a_started a))).
    + destruct (truthy (r !! "prompt_id"%string)); simpl in Hfail.
      * destruct (a_await a) as [e|h]; [|done].
        apply (Htail _ (λ x, set_prompt_id (r !! "prompt_id"%string)
                               (started (a_started a) x))); try done.
        simpl. by rewrite alter_twice.
      * apply (Htail _ (λ x, set_prompt_id (r !! "prompt_id"%string)
                               (started (a_started a) x))); try done.
        simpl. by rewrite alter_twice.
  - unfold succeeded. destruct (a_submit a) as [e|r]; [done|].
    destruct (truthy (r !! "prompt_id"%string)); [|done]. simpl in Hfail.
    destruct (a_await a) as [e|h]; [done|].
    rewrite release_slot_run. eexists _, _. split; [done|]. simpl.
    rewrite !alter_twice. split_and!; try done.
    + by rewrite lookup_alter_eq, Hj.
    + intros j' Hne. by rewrite lookup_alter_ne.
Qed.

(** [_process_job] on a job of the store returns normally, whatever the
    client and the listeners do. It hands the job to the client once, leaves
    [running_jobs] as it found it and the other jobs untouched, and never
    leaves the job [RUNNING]: the job is [COMPLETED] if the dispatch
    succeeded, and otherwise [PENDING] with its id back at the tail of the
    queue, or [FAILED] with the queue unchanged. *)
Theorem process_job_outcome (j : string) (a : Attempt) (s : QueueManager)
    (job : Job) :
  get_job j s = Some job →
  ∃ s' job',
    _process_job j a s = (s', inr tt)
    ∧ get_job j s' = Some job'
    ∧ (∀ j', j' ≠ j → get_job j' s' = get_job j' s)
    ∧ submitted s' = submitted s ++ [j]
    ∧ running_jobs s' ≡ₚ running_jobs s
    ∧ (j ∉ running_jobs s → running_jobs s' = running_jobs s)
    ∧ callbacks s' = callbacks s
    ∧ (if attempt_fails a
       then if retries s job
            then status job' = PENDING ∧ job_queue s' = job_queue s ++ [j]
            else status job' = FAILED ∧ job_queue s' = job_queue s
       else job' = succeeded a job ∧ status job' = COMPLETED
            ∧ job_queue s' = job_queue s).
Proof. apply process_job_any. Qed.

Lemma process_job_outcome_witness :
  let s := set_job_queue [] (one_job 3 true 3) in
  let job := new_job "x" ∅ None 0 in
  get_job "x" s = Some job
  ∧ ∃ s', _process_job "x" good_attempt s = (s', inr tt)
      ∧ get_job "x" s' = Some (succeeded good_attempt job)
      ∧ running_jobs s' = []
      ∧ job_queue s' = [].
Proof.
  intros s job.
  assert (get_job "x" s = Some job) as H by (vm_compute; reflexivity).
  destruct (process_job_outcome "x"%string good_attempt s job H)
    as (s' & job' & Hrun & Hj & _ & _ & _ & Hr & _ & Hout).
  change (attempt_fails good_attempt) with false in Hout.
  destruct Hout as (-> & _ & Hq).
  split; [exact H|]. exists s'. split; [exact Hrun|]. split; [exact Hj|].
  split; [|exact Hq]. apply Hr. vm_compute. inversion 1.
Defined.

(** ** One worker, dispatches that succeed *)

Lemma succeeded_status a job :
  attempt_fails a = false → status (succeeded a job) = COMPLETED.
Proof.
  unfold attempt_fails, succeeded. destruct (a_submit a) as [e|r]; [done|].
  destruct (a_await a) as [e|h]; [|done].
  by destruct (truthy (r !! "prompt_id"%string)).
Qed.

Lemma worker_iteration_pass a s s1 :
  running s = true → paused s = false → running_jobs s = [] →
  (0 < max_concurrent s)%Z →
  worker_pass a s = (s1, inr tt) →
  worker_iteration a s = (s1, inr Pass)
  ∧ running s1 = true ∧ paused s1 = false
  ∧ max_concurrent s1 = max_concurrent s.
Proof.
  intros Hr Hp Hrj Hmc Hpass.
  destruct (solo_config 18 WGet a s) as (Hr1 & Hp1 & Hm1).
  rewrite solo_worker_pass in Hr1, Hp1, Hm1. unfold run in *.
  rewrite Hpass in Hr1, Hp1, Hm1. cbn [fst] in *.
  split; [|by rewrite Hr1, Hp1, Hm1].
  unfold worker_iteration. munfold. rewrite Hr, Hp, Hrj. simpl.
  rewrite bool_decide_false by lia. by rewrite Hpass.
Qed.

(** A single worker of a manager that is running and not paused, with
    [max_concurrent] at least 1, whose dispatches all succeed: [_worker]
    makes one pass per job, takes the jobs in the order of the queue, hands
    each to the client once, and leaves each [COMPLETED] with the record of
    its own dispatch; the other jobs are untouched, the queue and
    [running_jobs] are empty at the end, and [wait_for_completion] then
    returns at its first poll. *)
Theorem single_worker_fifo (ids : list string) (attempts : list Attempt)
    (s : QueueManager) :
  running s = true →
  paused s = false →
  (0 < max_concurrent s)%Z →
  NoDup ids →
  job_queue s = ids →
  running_jobs s = [] →
  length attempts = length ids →
  Forall (λ a, attempt_fails a = false) attempts →
  (∀ j, j ∈ ids → ∃ job, get_job j s = Some job ∧ status job ≠ CANCELLED) →
  ∃ s',
    worker_loop attempts s = (s', inr Pass)
    ∧ job_queue s' = [] ∧ running_jobs s' = []
    ∧ submitted s' = submitted s ++ ids
    ∧ (∀ j, j ∉ ids → get_job j s' = get_job j s)
    ∧ (∀ i j a job,
         ids !! i = Some j → attempts !! i = Some a → get_job j s = Some job →
         get_job j s' = Some (succeeded a job)
         ∧ status (succeeded a job) = COMPLETED)
    ∧ (∀ timeout start_time now polls,
         wait_for_completion timeout start_time (still now s' :: polls)
         = Some (log_calls (fired "queue_empty" None s') s', inr tt)).
Proof.
  revert attempts s.
  induction ids as [|j ids IH];
    intros attempts s Hrun0 Hpau Hmc Hnd Hq Hr Hlen Hgood Hjobs.
  - destruct attempts; [|done]. exists s. simpl. split_and!; try done.
    + by rewrite app_nil_r.
    + intros timeout start_time now polls. unfold wait_for_completion. simpl.
      unfold busy. simpl. rewrite Hq, Hr. simpl.
      by rewrite _trigger_callbacks_run.
  - destruct attempts as [|a attempts]; [done|].
    apply NoDup_cons in Hnd as [Hj Hnd].
    apply Forall_cons in Hgood as [Ha Hgood].
    destruct (Hjobs j) as (job & Hjob & Hst); [by left|].
    assert (get_job j (set_job_queue ids s) = Some job) as Hjob0 by done.
    destruct (process_job_any j a _ job Hjob0)
      as (s1 & job1 & Hrun & Hj1 & Hothers & Hsub & _ & Hrj & _ & Hout).
    rewrite Ha in Hout. destruct Hout as (-> & Hst1 & Hq1).
    assert (worker_pass a s = (s1, inr tt)) as Hpass.
    { rewrite (worker_pass_front a s j ids job Hq Hjob Hst). exact Hrun. }
    destruct (worker_iteration_pass a s s1 Hrun0 Hpau Hr Hmc Hpass)
      as (Hit & Hrun1 & Hpau1 & Hmc1).
    destruct (IH attempts s1)
      as (s' & Hrun' & Hq' & Hr' & Hsub' & Hoth' & Hdone & Hwait).
    + done.
    + done.
    + by rewrite Hmc1.
    + done.
    + by rewrite Hq1.
    + rewrite Hrj; simpl; [done|]. rewrite Hr. apply not_elem_of_nil.
    + simpl in Hlen. lia.
    + done.
    + intros j' Hin. destruct (Hjobs j') as (job' & Hjob' & Hst'); [by right|].
      exists job'. split; [|done]. rewrite Hothers; [done|]. by intros ->.
    + exists s'. split_and!; try done.
      * cbn [worker_loop]. munfold. rewrite Hit. exact Hrun'.
      * rewrite Hsub'. rewrite Hsub. simpl. by rewrite <- app_assoc.
      * intros j' Hni. apply not_elem_of_cons in Hni as [Hne Hni].
        rewrite Hoth' by done. by apply Hothers.
      * intros i j' a' job' Hi Ha' Hjob'. destruct i as [|i]; simpl in *.
        -- injection Hi as <-. injection Ha' as <-.
           assert (job' = job) as -> by congruence.
           split; [|done]. by rewrite Hoth'.
        -- apply (Hdone i); [done|done|].
           rewrite Hothers; [done|]. intros ->. apply Hj.
           by eapply list_elem_of_lookup_2.
Qed.

Lemma single_worker_fifo_witness :
  ∃ s', worker_loop [good_attempt; good_attempt] two_jobs = (s', inr Pass)
    ∧ job_queue s' = [] ∧ running_jobs s' = []
    ∧ submitted s' = ["x"; "y"]%string
    ∧ get_job "y" s' = Some (succeeded good_attempt (new_job "y" ∅ None 1)).
Proof.
  assert (NoDup ["x"; "y"]%string) as Hnd.
  { apply NoDup_cons. split; [|apply NoDup_singleton].
    intros H. apply list_elem_of_singleton in H. discriminate. }
  assert (∀ j, j ∈ ["x"; "y"]%string →
            ∃ job, get_job j two_jobs = Some job ∧ status job ≠ CANCELLED)
    as Hjobs.
  { intros j Hin. apply list_elem_of_In in Hin. simpl in Hin.
    destruct Hin as [<-|[<-|[]]]; eexists; (split; [vm_compute; reflexivity|]);
      discriminate. }
  destruct (single_worker_fifo ["x"; "y"]%string [good_attempt; good_attempt]
              two_jobs eq_refl eq_refl eq_refl Hnd eq_refl eq_refl eq_refl)
    as (s' & Hrun & Hq & Hr & Hsub & _ & Hdone & _); [|exact Hjobs|].
  { repeat constructor. }
  exists s'. split; [exact Hrun|]. split; [exact Hq|]. split; [exact Hr|].
  split; [exact Hsub|].
  apply (Hdone 1 "y"%string good_attempt); [reflexivity|reflexivity|].
  vm_compute. reflexivity.
Defined.

(** ** Ids of removed jobs *)

Lemma worker_pass_missing a s j q :
  job_queue s = j :: q → get_job j s = None →
  worker_pass a s = (set_job_queue q s, inr tt).
Proof.
  intros Hq Hj. unfold worker_pass. munfold. rewrite Hq, Hj.
  unfold _process_job. munfold.
  assert (get_job j (set_job_queue q s) = None) as -> by done. done.
Qed.

Lemma good_pass a s j q job :
  job_queue s = j :: q → get_job j s = Some job → status job ≠ CANCELLED →
  running_jobs s = [] → attempt_fails a = false →
  ∃ s', worker_pass a s = (s', inr tt)
    ∧ get_job j s' = Some (succeeded a job)
    ∧ job_queue s' = q ∧ running_jobs s' = []
    ∧ submitted s' = submitted s ++ [j].
Proof.
  intros Hq Hj Hst Hr Ha.
  rewrite (worker_pass_front a s j q job Hq Hj Hst).
  assert (get_job j (set_job_queue q s) = Some job) as Hj0 by done.
  destruct (process_job_any j a _ job Hj0)
    as (s' & job' & Hrun & Hj' & _ & Hsub & _ & Hrj & _ & Hout).
  rewrite Ha in Hout. destruct Hout as (-> & _ & Hq').
  exists s'. split_and!; try done.
  rewrite Hrj; simpl; [done|]. rewrite Hr. apply not_elem_of_nil.
Qed.

(** [clear_completed] does not take the ids of the jobs it removes out of
    the queue. When the worker comes to such an id, it drops it: nothing is
    dispatched, no job and no listener is touched. *)
Theorem cleared_id_dropped (s : QueueManager) (j : string) (job : Job)
    (q : list string) (a : Attempt) :
  get_job j s = Some job →
  status job = COMPLETED ∨ status job = FAILED ∨ status job = CANCELLED →
  job_queue s = j :: q →
  ∃ s1, clear_completed s = Some s1
    ∧ get_job j s1 = None
    ∧ job_queue s1 = j :: q
    ∧ worker_pass a s1 = (set_job_queue q s1, inr tt).
Proof.
  intros Hj Hst Hq. rewrite clear_completed_run. eexists. split; [done|].
  assert (get_job j (set_jobs (filter (λ kv : string * Job,
            status kv.2 ∉ [COMPLETED; FAILED; CANCELLED]) (jobs s)) s) = None) as Hn.
  { unfold get_job. simpl. rewrite map_lookup_filter_None. right.
    intros x Hx. simpl. rewrite status_cases.
    unfold get_job in Hj. assert (x = job) as -> by congruence.
    intros [H|H]; rewrite H in Hst; intuition discriminate. }
  split; [done|]. split; [done|]. by apply (worker_pass_missing a _ j q).
Qed.

Lemma cleared_id_dropped_witness :
  let s := run (cancel_job "x" None) (one_job 3 true 3) in
  let s1 := set_jobs ∅ s in
  get_job "x" s = Some (set_status CANCELLED (new_job "x" ∅ None 0))
  ∧ clear_completed s = Some s1
  ∧ job_queue s1 = ["x"%string]
  ∧ worker_pass good_attempt s1 = (set_job_queue [] s1, inr tt).
Proof.
  intros s s1.
  assert (get_job "x" s = Some (set_status CANCELLED (new_job "x" ∅ None 0)))
    as H by (vm_compute; reflexivity).
  destruct (cleared_id_dropped s "x"%string _ [] good_attempt H)
    as (s2 & Hc & _ & Hq & Hw).
  { right. right. reflexivity. }
  { reflexivity. }
  assert (s2 = s1) as ->.
  { assert (clear_completed s = Some s1) as Hc' by (vm_compute; reflexivity).
    congruence. }
  split; [exact H|]. split; [exact Hc|]. split; [exact Hq|]. exact Hw.
Defined.

(** An id is not unique for the lifetime of the manager. When a job is
    cancelled while its id is in the queue, cleared, and a job is added
    under the same id, [add_job] accepts it and the id is in the queue twice;
    a worker whose dispatches succeed then hands the new job to the client
    twice, and the second run overwrites the record of the first. *)
Theorem id_reused_after_clear (s : QueueManager) (j : string) (job : Job)
    (wf : Dict) (md : option Dict) (now : Z) (a1 a2 : Attempt) :
  get_job j s = Some job →
  status job = PENDING →
  job_queue s = [j] →
  running_jobs s = [] →
  attempt_fails a1 = false →
  attempt_fails a2 = false →
  let s1 := run (cancel_job j None) s in
  let new := new_job j wf md now in
  ∃ s2 s3 s4,
    clear_completed s1 = Some s2
    ∧ add_job j wf md now s2 = (s3, inr new)
    ∧ job_queue s3 = [j; j]
    ∧ for_each [a1; a2] worker_pass s3 = (s4, inr tt)
    ∧ submitted s4 = submitted s ++ [j; j]
    ∧ get_job j s4 = Some (succeeded a2 (succeeded a1 new)).
Proof.
  intros Hj Hst Hq Hr Ha1 Ha2 s1 new. subst s1. unfold run.
  pose proof (cancel_job_run s j job None Hj) as Hc. rewrite Hst in Hc.
  rewrite Hc. cbn [fst]. rewrite clear_completed_run.
  set (s2 := set_jobs _ (cancelled_state j job s)).
  assert (jobs s2 !! j = None) as Hn.
  { subst s2. simpl. rewrite map_lookup_filter_None. right. intros x Hx. simpl.
    rewrite lookup_insert_eq in Hx. injection Hx as <-. simpl.
    rewrite status_cases. intros [H|H]; discriminate. }
  exists s2. rewrite add_job_run, Hn. fold new.
  set (s3 := set_job_queue _ _).
  assert (job_queue s3 = [j; j]) as Hq3.
  { subst s3 s2. simpl. by rewrite Hq. }
  assert (get_job j s3 = Some new) as Hj3.
  { subst s3. unfold get_job. simpl. apply lookup_insert_eq. }
  destruct (good_pass a1 s3 j [j] new Hq3 Hj3) as (s4 & Hp1 & Hj4 & Hq4 & Hr4 & Hs4);
    [done| |done|].
  { subst s3 s2. simpl. done. }
  destruct (good_pass a2 s4 j [] (succeeded a1 new) Hq4 Hj4)
    as (s5 & Hp2 & Hj5 & Hq5 & Hr5 & Hs5); [|done|done|].
  { by rewrite succeeded_status. }
  exists s3, s5. split_and!; try done.
  - simpl. munfold. by rewrite Hp1, Hp2.
  - rewrite Hs5, Hs4. subst s3 s2. simpl. by rewrite <- app_assoc.
Qed.

Lemma id_reused_after_clear_witness :
  let s := one_job 3 true 3 in
  let new := new_job "x" {[ "seed"%string := "7"%string ]} None 9 in
  get_job "x" s = Some (new_job "x" ∅ None 0)
  ∧ ∃ s2 s3 s4,
      clear_completed (run (cancel_job "x" None) s) = Some s2
      ∧ add_job "x" {[ "seed"%string := "7"%string ]} None 9 s2 = (s3, inr new)
      ∧ job_queue s3 = ["x"; "x"]%string
      ∧ for_each [good_attempt; good_attempt] worker_pass s3 = (s4, inr tt)
      ∧ submitted s4 = ["x"; "x"]%string.
Proof.
  intros s new.
  assert (get_job "x" s = Some (new_job "x" ∅ None 0)) as H
    by (vm_compute; reflexivity).
  destruct (id_reused_after_clear s "x"%string _
              {[ "seed"%string := "7"%string ]} None 9%Z good_attempt good_attempt
              H eq_refl eq_refl eq_refl eq_refl eq_refl)
    as (s2 & s3 & s4 & Hc & Ha & Hq & Hw & Hs & _).
  split; [exact H|]. exists s2, s3, s4.
  split; [exact Hc|]. split; [exact Ha|]. split; [exact Hq|]. split; [exact Hw|].
  exact Hs.
Defined.

(** ** The ids of [add_jobs_from_list] *)

Lemma string_app_inj_l (p x y : string) : p +:+ x = p +:+ y → x = y.
Proof. induction p as [|c p IH]; simpl; [done|]. intros [= H]. by apply IH. Qed.

Lemma no_underscore_app (x y : string) :
  no_underscore x → no_underscore y → no_underscore (x +:+ y).
Proof. induction x as [|c x IH]; simpl; [done|]. intros [??] ?. split; auto. Qed.

Lemma split_at_underscore (x x' r r' : string) :
  no_underscore x → no_underscore x' →
  x +:+ String "_" r = x' +:+ String "_" r' → x = x'.
Proof.
  revert x'. induction x as [|c x IH]; intros [|c' x']; simpl; try done.
  - intros _ [Hc _] [= <- _]. done.
  - intros [Hc _] _ [= -> _]. done.
  - intros [_ Hx] [_ Hx'] [= -> H]. f_equal. by apply IH.
Qed.

Lemma pretty_N_char_digit (d : N) :
  (d < 10)%N →
  pretty_N_char d ≠ "_"%char ∧ digit_value (pretty_N_char d) = d.
Proof.
  intros H.
  assert (d = 0 ∨ d = 1 ∨ d = 2 ∨ d = 3 ∨ d = 4 ∨ d = 5 ∨ d = 6 ∨ d = 7
          ∨ d = 8 ∨ d = 9)%N as Hd by lia.
  repeat (destruct Hd as [->|Hd]; [by split|]). subst. by split.
Qed.

Lemma pretty_N_go_digits (x : N) :
  ∃ k : N, ∀ s,
    (no_underscore s → no_underscore (pretty_N_go x s))
    ∧ ∀ acc, decimal_value acc (pretty_N_go x s)
             = decimal_value (acc * 10 ^ k + x) s.
Proof.
  induction (N.lt_wf_0 x) as [x _ IH].
  destruct (decide (x = 0)%N) as [->|Hx].
  - exists 0%N. intros s. rewrite pretty_N_go_0. split; [done|].
    intros acc. f_equal. simpl. lia.
  - destruct (IH (x `div` 10)%N) as [k Hk]; [apply N.div_lt; lia|].
    exists (k + 1)%N. intros s. rewrite pretty_N_go_step by lia.
    destruct (pretty_N_char_digit (x `mod` 10)%N) as [Hus Hval];
      [apply N.mod_lt; lia|].
    destruct (Hk (String (pretty_N_char (x `mod` 10)) s)) as [H1 H2]. split.
    + intros Hs. apply H1. simpl. done.
    + intros acc. rewrite H2. simpl. rewrite Hval. f_equal.
      rewrite N.pow_add_r. pose proof (N.div_mod x 10). lia.
Qed.

Lemma pretty_N_digits (x : N) :
  no_underscore (pretty x) ∧ decimal_value 0 (pretty x) = x.
Proof.
  unfold pretty, pretty_N. case_decide as Hx.
  - subst. by split.
  - destruct (pretty_N_go_digits x) as [k Hk]. destruct (Hk "") as [H1 H2].
    split; [by apply H1|]. rewrite H2. simpl. lia.
Qed.

Lemma zeros_digits (n : nat) (s : string) :
  (no_underscore s → no_underscore (zeros n +:+ s))
  ∧ decimal_value 0 (zeros n +:+ s) = decimal_value 0 s.
Proof.
  induction n as [|n [IH1 IH2]]; simpl; [done|]. split; [|done].
  intros Hs. split; [done|]. by apply IH1.
Qed.

Lemma fmt_04d_digits (i : nat) :
  no_underscore (fmt_04d i) ∧ decimal_value 0 (fmt_04d i) = N.of_nat i.
Proof.
  unfold fmt_04d. destruct (pretty_N_digits (N.of_nat i)) as [H1 H2].
  destruct (zeros_digits (4 - String.length (pretty i)) (pretty i)) as [H3 H4].
  split; [by apply H3|]. rewrite H4. exact H2.
Qed.

Lemma batch_job_id_inj (p : string) (i i' : nat) (sec sec' : Z) :
  batch_job_id p i sec = batch_job_id p i' sec' → i = i'.
Proof.
  unfold batch_job_id. intros H. apply string_app_inj_l in H.
  change ("_" +:+ ?x) with (String "_" x) in H. injection H as H.
  destruct (fmt_04d_digits i) as [H1 H2]. destruct (fmt_04d_digits i') as [H1' H2'].
  apply split_at_underscore in H; [|done|done]. rewrite H in H2. lia.
Qed.

Lemma elem_of_batch_ids (p : string) (items : list (Dict * (Z * Z))) :
  ∀ i id, id ∈ batch_ids p i items →
          ∃ k sec, i ≤ k ∧ id = batch_job_id p k sec.
Proof.
  induction items as [|[wf [sec now]] items IH]; intros i id Hin; simpl in Hin.
  - by apply elem_of_nil in Hin.
  - apply elem_of_cons in Hin as [->|Hin]; [by exists i, sec|].
    destruct (IH _ _ Hin) as (k & sec' & Hk & ->). exists k, sec'. split; [lia|done].
Qed.

Lemma NoDup_batch_ids (p : string) (items : list (Dict * (Z * Z))) :
  ∀ i, NoDup (batch_ids p i items).
Proof.
  induction items as [|[wf [sec now]] items IH]; intros i; simpl.
  - constructor.
  - apply NoDup_cons. split; [|apply IH]. intros Hin.
    apply elem_of_batch_ids in Hin as (k & sec' & Hk & Heq).
    apply batch_job_id_inj in Heq. lia.
Qed.

(** ** [add_jobs_from_list] *)

Lemma add_jobs_loop_run (p : string) (items : list (Dict * (Z * Z))) :
  ∀ i acc s,
    (∀ id, id ∈ batch_ids p i items → jobs s !! id = None) →
    ∃ s', add_jobs_loop p i items acc s = (s', inr (acc ++ batch_jobs p i items))
      ∧ job_queue s' = job_queue s ++ batch_ids p i items
      ∧ (∀ id, id ∉ batch_ids p i items → jobs s' !! id = jobs s !! id)
      ∧ (∀ k id, batch_ids p i items !! k = Some id →
                 jobs s' !! id = batch_jobs p i items !! k)
      ∧ size (jobs s') = size (jobs s) + length items
      ∧ s' = set_job_queue (job_queue s') (set_jobs (jobs s') s).
Proof.
  induction items as [|[wf [sec now]] items IH]; intros i acc s Hfresh.
  - exists s. simpl. rewrite !app_nil_r. split_and!; try done.
    by destruct s.
  - simpl. munfold. rewrite add_job_run, Hfresh by (simpl; by left).
    set (id0 := batch_job_id p i sec).
    set (s1 := set_job_queue _ _).
    pose proof (NoDup_batch_ids p ((wf, (sec, now)) :: items) i) as Hnd.
    simpl in Hnd. apply NoDup_cons in Hnd as [Hni _]. fold id0 in Hni.
    destruct (IH (S i) (acc ++ [new_job id0 wf None now]) s1)
      as (s' & Hrun & Hq & Hoth & Hnew & Hsize & Hrest).
    { intros id Hin. subst s1. simpl. rewrite lookup_insert_ne by (by intros <-).
      apply Hfresh. simpl. by right. }
    exists s'. rewrite Hrun, <- app_assoc. split_and!; try done.
    + rewrite Hq. subst s1. simpl. by rewrite <- app_assoc.
    + intros id Hid. apply not_elem_of_cons in Hid as [Hne Hid].
      rewrite Hoth by done. subst s1. simpl. by rewrite lookup_insert_ne.
    + intros [|k] id Hk; simpl in Hk.
      * injection Hk as <-. rewrite Hoth by done. subst s1. simpl.
        apply lookup_insert_eq.
      * by apply Hnew.
    + rewrite Hsize. subst s1. simpl. rewrite map_size_insert_None; [lia|].
      apply Hfresh. simpl. by left.
Qed.

(** [add_jobs_from_list] makes up ids that differ from one another,
    whatever the clock reads. So when none of them is in the store, it adds
    one [PENDING] job per workflow, in the order of the list, and returns
    them: the ids go to the tail of the queue in that order, every new job
    is stored under its id, the other jobs are untouched, and nothing else
    changes. *)
Theorem add_jobs_from_list_fresh (s : QueueManager)
    (workflows : list (Dict * (Z * Z))) (job_prefix : string) :
  let ids := batch_ids job_prefix 0 workflows in
  let new := batch_jobs job_prefix 0 workflows in
  (∀ id, id ∈ ids → get_job id s = None) →
  NoDup ids
  ∧ ∃ s', add_jobs_from_list workflows job_prefix s = (s', inr new)
      ∧ job_queue s' = job_queue s ++ ids
      ∧ (∀ k id, ids !! k = Some id → get_job id s' = new !! k)
      ∧ (∀ id, id ∉ ids → get_job id s' = get_job id s)
      ∧ Stats.total_jobs (get_statistics s')
        = Stats.total_jobs (get_statistics s) + length workflows
      ∧ s' = set_job_queue (job_queue s') (set_jobs (jobs s') s).
Proof.
  intros ids new Hfresh. split; [apply NoDup_batch_ids|].
  destruct (add_jobs_loop_run job_prefix workflows 0 [] s Hfresh)
    as (s' & Hrun & Hq & Hoth & Hnew & Hsize & Hrest).
  exists s'. split_and!; done.
Qed.

Lemma add_jobs_from_list_fresh_witness :
  let s := __init__ 3 true 3 in
  let workflows := [(∅, (1700000000%Z, 5%Z)); ({[ "3"%string := "seed"%string ]},
                                                (1700000000%Z, 6%Z))] in
  (∀ id, id ∈ batch_ids "job" 0 workflows → get_job id s = None)
  ∧ ∃ s', (add_jobs_from_list workflows "job" s).1 = s'
      ∧ job_queue s' = ["job_0000_1700000000"; "job_0001_1700000000"]%string.
Proof.
  intros s workflows.
  assert (∀ id, id ∈ batch_ids "job" 0 workflows → get_job id s = None) as H.
  { intros id _. reflexivity. }
  destruct (add_jobs_from_list_fresh s workflows "job"%string H)
    as (_ & s' & Hrun & Hq & _).
  split; [exact H|]. exists s'. split; [by rewrite Hrun|].
  rewrite Hq. vm_compute. reflexivity.
Defined.



(** Two batches with the same prefix collide when they start within the
    same second: the first id of the second batch is the first id of the
    first one, so the second call raises [ValueError] at its first workflow
    and adds nothing. *)
Theorem add_jobs_from_list_same_second (s : QueueManager)
    (wf1 wf2 : Dict) (sec now1 now2 : Z) (rest1 rest2 : list (Dict * (Z * Z)))
    (job_prefix : string) :
  let first := (wf1, (sec, now1)) :: rest1 in
  let second := (wf2, (sec, now2)) :: rest2 in
  (∀ id, id ∈ batch_ids job_prefix 0 first → get_job id s = None) →
  ∃ s1,
    add_jobs_from_list first job_prefix s
    = (s1, inr (batch_jobs job_prefix 0 first))
    ∧ add_jobs_from_list second job_prefix s1
      = (s1, inl (ValueError ("Job ID already exists: "
                              +:+ batch_job_id job_prefix 0 sec))).
Proof.
  intros first second Hfresh.
  destruct (add_jobs_loop_run job_prefix first 0 [] s Hfresh)
    as (s1 & Hrun & _ & _ & Hnew & _).
  exists s1. split; [exact Hrun|].
  unfold add_jobs_from_list, second. simpl. munfold. rewrite add_job_run.
  by rewrite (Hnew 0 (batch_job_id job_prefix 0 sec) eq_refl).
Qed.

Lemma add_jobs_from_list_same_second_witness :
  let s := __init__ 3 true 3 in
  ∃ s1,
    (add_jobs_from_list [(∅, (1700000000%Z, 5%Z))] "job" s).1 = s1
    ∧ add_jobs_from_list [(∅, (1700000000%Z, 6%Z)); (∅, (1700000001%Z, 7%Z))] "job" s1
      = (s1, inl (ValueError "Job ID already exists: job_0000_1700000000")).
Proof.
  intros s.
  destruct (add_jobs_from_list_same_second s ∅ ∅ 1700000000%Z 5%Z 6%Z []
              [(∅, (1700000001%Z, 7%Z))] "job"%string)
    as (s1 & Hrun & Hfail).
  { intros id _. reflexivity. }
  exists s1. split; [by rewrite Hrun|]. exact Hfail.
Defined.

(** ** The client's [wait_for_completion] *)

Lemma client_wait_loop_skip pid timeout start before polls :
  Forall (λ p, still_running pid p ∧ timed_out timeout start p.1 = false) before →
  client_wait_loop pid timeout start (before ++ polls)
  = client_wait_loop pid timeout start polls.
Proof.
  induction 1 as [|[now answer] before [(history & Ha & Hh) Ht] _ IH]; [done|].
  simpl in *. unfold timed_out in Ht. rewrite Ht. subst answer. by rewrite Hh.
Qed.

Lemma client_wait_loop_stop pid timeout start polls r :
  client_wait_loop pid timeout start polls = Some r →
  ∃ before now answer after,
    polls = before ++ (now, answer) :: after
    ∧ Forall (λ p, still_running pid p ∧ timed_out timeout start p.1 = false) before
    ∧ client_wait_loop pid timeout start [(now, answer)] = Some r.
Proof.
  induction polls as [|[now answer] polls IH]; [done|]. intros H.
  destruct (client_wait_loop pid timeout start [(now, answer)]) as [r'|] eqn:Hone.
  - exists [], now, answer, polls. split; [done|]. split; [constructor|].
    simpl in *. destruct (timeout_set timeout && _); [done|].
    destruct answer as [e|history]; [done|].
    by destruct (history !! pid).
  - simpl in Hone, H. destruct (timeout_set timeout && _) eqn:Ht; [done|].
    destruct answer as [e|history]; [done|].
    destruct (history !! pid) eqn:Hh; [done|].
    destruct (IH H) as (before & now' & answer' & after & -> & Hall & Hr).
    exists ((now, inr history) :: before), now', answer', after.
    split; [done|]. split; [|done]. constructor; [|done]. split; [|done].
    by exists history.
Qed.

Lemma client_wait_loop_one pid timeout start now answer r :
  client_wait_loop pid timeout start [(now, answer)] = Some r
  ↔ (timed_out timeout start now = true
     ∧ r = inl (TimeoutError ("Prompt " +:+ pid +:+ " did not complete within "
                              +:+ pretty (default 0%Z timeout) +:+ "s")))
    ∨ (timed_out timeout start now = false ∧ ∃ e, answer = inl e ∧ r = inl e)
    ∨ (timed_out timeout start now = false
       ∧ ∃ history h, answer = inr history ∧ history !! pid = Some h ∧ r = inr h).
Proof.
  simpl. unfold timed_out. destruct (timeout_set timeout && _).
  - split.
    + intros [= <-]. by left.
    + intros [[_ ->]|[[? _]|[? _]]]; done.
  - destruct answer as [e|history].
    + split.
      * intros [= <-]. right. left. eauto.
      * intros [[? _]|[(_ & e' & [= <-] & ->)|(_ & ? & ? & ? & _)]]; done.
    + destruct (history !! pid) as [h|] eqn:Hh.
      * split.
        -- intros [= <-]. right. right. split; [done|]. by exists history, h.
        -- intros [[? _]|[(_ & ? & ? & _)|(_ & history' & h' & [= <-] & Hh' & ->)]];
             try done. congruence.
      * split; [done|].
        intros [[? _]|[(_ & ? & ? & _)|(_ & history' & h' & [= <-] & Hh' & ->)]];
          try done. congruence.
Qed.

(** The client's [wait_for_completion] polls until the history has the
    prompt and returns the entry found by the first such poll. Before every
    poll it looks at the clock: when a non-zero timeout is exceeded it raises
    [TimeoutError] without asking for the history, even if the prompt has
    completed meanwhile. An exception of [get_history] ends the wait and is
    passed on. As long as every poll finds the prompt running and the time
    is not up, the caller stays blocked. *)
Theorem client_wait_for_completion_spec (prompt_id : string) (timeout : option Z)
    (start_time : Z) (polls : list (Z * (exn + gmap string Dict))) :
  let waiting := λ p : Z * (exn + gmap string Dict),
    still_running prompt_id p ∧ timed_out timeout start_time p.1 = false in
  (∀ r, client_wait_loop prompt_id timeout start_time polls = Some r
        ↔ ∃ before now answer after,
            polls = before ++ (now, answer) :: after
            ∧ Forall waiting before
            ∧ ((timed_out timeout start_time now = true
                ∧ r = inl (TimeoutError
                             ("Prompt " +:+ prompt_id
                              +:+ " did not complete within "
                              +:+ pretty (default 0%Z timeout) +:+ "s")))
               ∨ (timed_out timeout start_time now = false
                  ∧ ∃ e, answer = inl e ∧ r = inl e)
               ∨ (timed_out timeout start_time now = false
                  ∧ ∃ history h, answer = inr history
                                 ∧ history !! prompt_id = Some h ∧ r = inr h)))
  ∧ (client_wait_loop prompt_id timeout start_time polls = None
     ↔ Forall waiting polls).
Proof.
  intros waiting. split.
  - intros r. split.
    + intros H. apply client_wait_loop_stop in H
        as (before & now & answer & after & -> & Hall & Hone).
      exists before, now, answer, after. split; [done|]. split; [done|].
      by apply client_wait_loop_one.
    + intros (before & now & answer & after & -> & Hall & Hone).
      rewrite client_wait_loop_skip by done.
      apply client_wait_loop_one in Hone. simpl in *.
      destruct (timeout_set timeout && _); [done|].
      destruct answer as [e|history]; [done|]. by destruct (history !! prompt_id).
  - split.
    + intros H. induction polls as [|[now answer] polls IH]; [constructor|].
      simpl in H. destruct (timeout_set timeout && _) eqn:Ht; [done|].
      destruct answer as [e|history]; [done|].
      destruct (history !! prompt_id) eqn:Hh; [done|].
      constructor; [|by apply IH]. split; [by exists history|done].
    + intros H. rewrite <- (app_nil_r polls). by rewrite client_wait_loop_skip.
Qed.

(** A timeout of [0] or [None] is no timeout for the client: the wait never
    raises [TimeoutError], it ends only with the history entry of the prompt
    or with the exception of a poll, and [wait_for_completion(prompt_id, 0)]
    does what [wait_for_completion(prompt_id)] does. This is the call of
    [_process_job]: a worker waits for its prompt without any limit. *)
Theorem client_wait_without_timeout (prompt_id : string) (start_time : Z)
    (polls : list (Z * (exn + gmap string Dict))) :
  client_wait_loop prompt_id (Some 0%Z) start_time polls
  = client_wait_loop prompt_id None start_time polls
  ∧ (∀ r, client_wait_loop prompt_id None start_time polls = Some r →
          ∃ before now answer after,
            polls = before ++ (now, answer) :: after
            ∧ Forall (still_running prompt_id) before
            ∧ match answer with
              | inl e => r = inl e
              | inr history => (inr <$> history !! prompt_id) = Some r
              end)
  ∧ (client_wait_loop prompt_id None start_time polls = None
     ↔ Forall (still_running prompt_id) polls).
Proof.
  split.
  { induction polls as [|[now answer] polls IH]; [done|]. simpl.
    destruct answer as [e|history]; [done|].
    by destruct (history !! prompt_id). }
  split.
  - intros r H. apply client_wait_loop_stop in H
      as (before & now & answer & after & -> & Hall & Hone).
    exists before, now, answer, after. split; [done|]. split.
    + eapply Forall_impl; [exact Hall|]. by intros ? [? _].
    + simpl in Hone. destruct answer as [e|history]; [congruence|].
      destruct (history !! prompt_id); [|done]. simpl. congruence.
  - split.
    + intros H. induction polls as [|[now answer] polls IH]; [constructor|].
      simpl in H. destruct answer as [e|history]; [done|].
      destruct (history !! prompt_id) eqn:Hh; [done|].
      constructor; [|by apply IH]. by exists history.
    + intros H. rewrite <- (app_nil_r polls). rewrite client_wait_loop_skip; [done|].
      eapply Forall_impl; [exact H|]. by intros ? ?.
Qed.

(** ** What the actions leave alone *)

Lemma add_job_config j wf md now s :
  let s' := run (add_job j wf md now) s in
  callbacks s' = callbacks s ∧ running s' = running s ∧ paused s' = paused s
  ∧ max_concurrent s' = max_concurrent s
  ∧ retry_on_failure s' = retry_on_failure s ∧ max_retries s' = max_retries s
  ∧ running_jobs s' = running_jobs s ∧ submitted s' = submitted s.
Proof. unfold run. rewrite add_job_run. by destruct (jobs s !! j). Qed.

Lemma cancel_job_config j interrupt s :
  let s' := run (cancel_job j interrupt) s in
  callbacks s' = callbacks s ∧ running s' = running s ∧ paused s' = paused s
  ∧ max_concurrent s' = max_concurrent s
  ∧ retry_on_failure s' = retry_on_failure s ∧ max_retries s' = max_retries s
  ∧ running_jobs s' = running_jobs s.
Proof.
  unfold run. destruct (jobs s !! j) as [job|] eqn:E.
  - pose proof (cancel_job_run s j job interrupt E) as H.
    destruct (status job); [| destruct interrupt | | |]; by rewrite H.
  - unfold cancel_job, get_job. munfold. by rewrite E.
Qed.

Lemma on_config ev cb s :
  let s' := run (on ev cb) s in
  jobs s' = jobs s ∧ job_queue s' = job_queue s ∧ running s' = running s
  ∧ paused s' = paused s ∧ max_concurrent s' = max_concurrent s
  ∧ retry_on_failure s' = retry_on_failure s ∧ max_retries s' = max_retries s
  ∧ running_jobs s' = running_jobs s ∧ submitted s' = submitted s.
Proof.
  unfold run, on. munfold. by destruct (callbacks s !! ev).
Qed.

(** ** Listeners *)

Lemma exec_callbacks a c ev :
  callbacks (mgr (exec a c)) !! ev
  = (λ cbs, cbs ++ registered ev [a]) <$> callbacks (mgr c) !! ev.
Proof.
  assert (∀ o : option (list Listener), o = (λ cbs, cbs ++ []) <$> o) as Hid.
  { intros [l|]; simpl; by rewrite ?app_nil_r. }
  destruct a as [j wf md now|j|ev' cb|n| | | |i now resp|k interrupt];
    [| | | | | | | |destruct (exec_step_frame k interrupt c)
                      as (_ & _ & _ & _ & -> & _); apply Hid]; simpl.
  - destruct (add_job_config j wf md now (mgr c)) as (-> & _). apply Hid.
  - apply Hid.
  - unfold run, on, registered. munfold. simpl.
    destruct (decide (ev' = ev)) as [->|Hne]; simpl.
    + destruct (callbacks (mgr c) !! ev) as [cbs|] eqn:E; simpl; [|by rewrite E].
      by rewrite lookup_insert_eq.
    + destruct (callbacks (mgr c) !! ev') as [cbs|] eqn:E; simpl; [|apply Hid].
      rewrite lookup_insert_ne by done. apply Hid.
  - unfold start. destruct (running (mgr c)); simpl; apply Hid.
  - apply Hid.
  - apply Hid.
  - apply Hid.
  - destruct (threads c !! i) as [p|]; [|apply Hid].
    destruct (thread_step p now resp (mgr c)) as [s' p'] eqn:E. simpl.
    pose proof (thread_step_config p now resp (mgr c)) as (H & _).
    rewrite E in H. simpl in H. rewrite H. apply Hid.
Qed.

Lemma registered_app ev l1 l2 :
  registered ev (l1 ++ l2) = registered ev l1 ++ registered ev l2.
Proof. unfold registered. apply bind_app. Qed.

Lemma execs_callbacks acts : ∀ c ev,
  callbacks (mgr (execs acts c)) !! ev
  = (λ cbs, cbs ++ registered ev acts) <$> callbacks (mgr c) !! ev.
Proof.
  induction acts as [|a acts IH]; intros c ev.
  - simpl. destruct (callbacks (mgr c) !! ev); simpl; by rewrite ?app_nil_r.
  - change (execs (a :: acts) c) with (execs acts (exec a c)).
    rewrite IH, exec_callbacks.
    change (a :: acts) with ([a] ++ acts). rewrite registered_app.
    destruct (callbacks (mgr c) !! ev); simpl; by rewrite ?app_assoc.
Qed.

(** Listeners are never removed or reordered, and there are no other event
    types than the five of [__init__]: under every schedule the listeners of
    an event are those there were, followed by the ones registered since, in
    the order of the [on] calls; an [on] for any other event type is
    ignored. *)
Theorem listeners_only_grow (c : Pool) (acts : list action) (ev : string) :
  callbacks (mgr (execs acts c)) !! ev
  = ((λ cbs, cbs ++ registered ev acts) <$> callbacks (mgr c) !! ev)
  ∧ ∀ mc rf mr,
      callbacks (mgr (execs acts (fresh_pool mc rf mr))) !! ev
      = if decide (ev ∈ event_kinds) then Some (registered ev acts) else None.
Proof.
  split; [apply execs_callbacks|]. intros mc rf mr. rewrite execs_callbacks.
  destruct (decide (ev ∈ event_kinds)) as [Hin|Hni].
  - unfold event_kinds in Hin. apply list_elem_of_In in Hin. simpl in Hin.
    destruct Hin as [<-|[<-|[<-|[<-|[<-|[]]]]]]; reflexivity.
  - assert (callbacks (mgr (fresh_pool mc rf mr)) !! ev = None) as ->; [|done].
    unfold event_kinds in Hni. rewrite !not_elem_of_cons in Hni.
    destruct Hni as (? & ? & ? & ? & ? & _). simpl.
    rewrite !lookup_insert_ne by done. apply lookup_empty.
Qed.

(** ** Running jobs and worker threads *)

Lemma list_remove_first_perm (j : string) (l : list string) :
  j ∈ l → l ≡ₚ j :: list_remove_first j l.
Proof.
  induction l as [|x l IH]; intros Hin; [by apply elem_of_nil in Hin|]. simpl.
  destruct (decide (j = x)) as [->|Hne]; [done|].
  apply elem_of_cons in Hin as [?|Hin]; [done|].
  rewrite (IH Hin) at 1. apply Permutation_swap.
Qed.

Lemma thread_step_slot p now resp s rest :
  running_jobs s ≡ₚ slot p ++ rest →
  running_jobs (thread_step p now resp s).1
  ≡ₚ slot (thread_step p now resp s).2 ++ rest.
Proof.
  destruct p; cbn [thread_step slot]; step_eval; repeat case_match;
    simplify_eq/=; try done.
  - intros H. rewrite H. by rewrite <- Permutation_cons_append.
  - intros H.
    match type of H with _ ≡ₚ ?j :: _ => apply (Permutation_cons_inv (a := j)) end.
    rewrite <- list_remove_first_perm; [done|]. rewrite H. by left.
Qed.

Lemma marked_in_flight p j : j ∈ marked p → in_flight p = Some j.
Proof.
  destruct p; simpl; intros H; try (by apply elem_of_nil in H);
    apply list_elem_of_singleton in H; by subst.
Qed.

Lemma length_bind_le (f : pc → list string) (ths : list pc) :
  (∀ p, length (f p) ≤ 1) → length (ths ≫= f) ≤ length ths.
Proof.
  intros Hf. induction ths as [|p ths IH]; [done|].
  rewrite bind_cons, length_app. simpl. pose proof (Hf p). lia.
Qed.

Lemma thread_step_marked p now resp s j job' :
  jobs (thread_step p now resp s).1 !! j = Some job' →
  status job' = RUNNING →
  j ∈ marked (thread_step p now resp s).2
  ∨ ((j ∉ marked p) ∧ ∃ job, jobs s !! j = Some job ∧ status job = RUNNING).
Proof.
  rewrite thread_step_jobs.
  destruct (decide (in_flight p = Some j)) as [Hin|Hni].
  - rewrite Hin, lookup_alter_eq.
    destruct (jobs s !! j) as [job|] eqn:Hj; [|done]. simpl. intros [= <-].
    destruct p; simplify_eq/=; cbn [thread_step]; step_eval; rewrite ?Hj;
      repeat case_match; simplify_eq/=; intros Hst; try done;
      try (left; by apply list_elem_of_singleton);
      try (right; split; [apply not_elem_of_nil|by eauto]).
  - intros Hj Hst. right. split.
    + intros Hm. by apply marked_in_flight in Hm.
    + exists job'. split; [|done]. destruct (in_flight p) as [j0|]; [|done].
      rewrite lookup_alter_ne in Hj; [done|]. by intros ->.
Qed.

Lemma accounted_exec a c : accounted c → accounted (exec a c).
Proof.
  intros [Hslot Hmark].
  destruct a as [j wf md now|j|ev cb|n| | | |i now resp|k interrupt];
    [| | | | | | | |
     destruct (exec_step_frame k interrupt c) as (Hth & _ & Hrj & _ & _ & _ & _ & _ & _ & _ & Hjobs);
     split; [by rewrite Hth, Hrj|];
     intros j job; rewrite Hth; destruct (Hjobs j) as [->|[_ ->]];
     [apply Hmark|];
     destruct (jobs (mgr c) !! j); [|done]; simpl; by intros [= <-]];
    simpl.
  - split; simpl.
    + by destruct (add_job_config j wf md now (mgr c)) as (_ & _ & _ & _ & _ & _ & -> & _).
    + intros j' job. unfold run. rewrite add_job_run.
      destruct (jobs (mgr c) !! j) eqn:E; simpl; [apply Hmark|].
      destruct (decide (j = j')) as [->|Hne].
      * rewrite lookup_insert_eq. by intros [= <-].
      * rewrite lookup_insert_ne by done. apply Hmark.
  - done.
  - destruct (on_config ev cb (mgr c)) as (Hj & _ & _ & _ & _ & _ & _ & Hr & _).
    split; simpl; [by rewrite Hr|]. rewrite Hj. apply Hmark.
  - unfold start. destruct (running (mgr c)); [done|]. split; simpl.
    + rewrite bind_app, bind_replicate_nil by done. by rewrite app_nil_r.
    + intros j job Hj Hst. rewrite bind_app. apply elem_of_app. left. eauto.
  - done.
  - done.
  - done.
  - destruct (threads c !! i) as [p|] eqn:Hi; [|done].
    destruct (thread_step p now resp (mgr c)) as [s' p'] eqn:E. simpl. split; simpl.
    + destruct (bind_insert_split slot _ _ _ Hi) as (rest & Hold & Hnew).
      rewrite Hnew. pose proof (thread_step_slot p now resp (mgr c) rest) as H.
      rewrite E in H. simpl in H. apply H. by rewrite Hslot.
    + intros j job' Hj Hst.
      pose proof (thread_step_marked p now resp (mgr c) j job') as H.
      rewrite E in H. simpl in H.
      destruct (bind_insert_split marked _ _ _ Hi) as (rest & Hold & Hnew).
      rewrite Hnew. apply elem_of_app.
      destruct (H Hj Hst) as [Hm|(Hni & job & Hj0 & Hst0)]; [by left|]. right.
      pose proof (Hmark _ _ Hj0 Hst0) as Hin. rewrite Hold in Hin.
      apply elem_of_app in Hin as [?|?]; done.
Qed.

Lemma accounted_execs acts : ∀ c, accounted c → accounted (execs acts c).
Proof.
  induction acts as [|a acts IH]; intros c H; [done|].
  apply (IH (exec a c)). by apply accounted_exec.
Qed.

Lemma running_count s : Stats.running (get_statistics s) = length (running_ids s).
Proof.
  simpl. unfold get_jobs_by_status, job_values, running_ids.
  by rewrite length_filter_snd, length_fmap.
Qed.

Lemma accounted_bound c :
  accounted c →
  Stats.running (get_statistics (mgr c)) ≤ length (threads c)
  ∧ length (running_jobs (mgr c)) ≤ length (threads c).
Proof.
  intros [Hslot Hmark]. split.
  - rewrite running_count. etrans; [|apply (length_bind_le marked)].
    + apply submseteq_length, NoDup_submseteq.
      * unfold running_ids.
        eapply sublist_NoDup; [apply (NoDup_fst_map_to_list (jobs (mgr c)))|].
        apply fmap_sublist, sublist_filter.
      * intros j Hj. unfold running_ids in Hj.
        apply list_elem_of_fmap in Hj as ([j' job] & -> & Hin).
        apply list_elem_of_filter in Hin as [Hst Hin].
        apply elem_of_map_to_list in Hin. by apply (Hmark _ job).
    + intros p. destruct p; simpl; lia.
  - rewrite Hslot. apply length_bind_le. intros p. destruct p; simpl; lia.
Qed.

(** However the threads interleave, there are never more [RUNNING] jobs,
    nor more entries of [running_jobs], than worker threads: a thread works
    on one job at a time, and a job is [RUNNING] only while a thread works
    on it. *)
Theorem running_bounded_by_workers (mc : Z) (rf : bool) (mr : Z)
    (acts : list action) :
  let c := execs acts (fresh_pool mc rf mr) in
  Stats.running (get_statistics (mgr c)) ≤ length (threads c)
  ∧ length (running_jobs (mgr c)) ≤ length (threads c)
  ∧ running_jobs (mgr c) ≡ₚ (threads c ≫= slot)
  ∧ ∀ j, get_job_status j (mgr c) = Some RUNNING → j ∈ (threads c ≫= marked).
Proof.
  intros c.
  assert (accounted c) as Hacc.
  { apply accounted_execs. split; [done|]. intros j job Hj. done. }
  destruct (accounted_bound c Hacc) as [H1 H2]. split_and!; try done.
  - apply Hacc.
  - intros j Hj. unfold get_job_status, get_job in Hj.
    destruct (jobs (mgr c) !! j) as [job|] eqn:E; [|done].
    injection Hj as Hst. by apply (proj2 Hacc j job).
Qed.

Lemma staffed_exec mc a c : modest mc a → staffed mc c → staffed mc (exec a c).
Proof.
  intros Hmod [Hmc Hth].
  destruct a as [j wf md now|j|ev cb|n| | | |i now resp|k interrupt];
    [| | | | | | | |
     destruct (exec_step_frame k interrupt c)
       as (Hths & _ & _ & _ & _ & Hr & _ & Hm & _);
     split; [congruence|]; by rewrite Hths, Hr];
    simpl.
  - destruct (add_job_config j wf md now (mgr c)) as (_ & Hr & _ & Hm & _).
    split; simpl; [congruence|]. by rewrite Hr.
  - by split.
  - destruct (on_config ev cb (mgr c)) as (_ & _ & Hr & _ & Hm & _).
    split; simpl; [congruence|]. by rewrite Hr.
  - unfold start. destruct (running (mgr c)) eqn:Hrun.
    { split; [done|]. destruct Hth as [?|[_ ?]]; [by left|by right]. }
    split; simpl; [done|]. right. split; [done|].
    destruct Hth as [->|[? _]]; [|done]. simpl. rewrite length_replicate.
    simpl in Hmod. rewrite Hmc. destruct n as [n|]; [|done].
    destruct (n =? 0)%Z; [done|]. lia.
  - done.
  - by split.
  - by split.
  - destruct (threads c !! i) as [p|] eqn:Hi; [|by split].
    destruct (thread_step p now resp (mgr c)) as [s' p'] eqn:E. simpl.
    pose proof (thread_step_config p now resp (mgr c)) as (_ & Hr & _ & Hm & _).
    rewrite E in Hr, Hm. simpl in Hr, Hm. split; simpl; [congruence|].
    right. rewrite length_insert, Hr.
    destruct Hth as [Hnil|?]; [|done]. rewrite Hnil in Hi. done.
Qed.

Lemma staffed_execs mc acts : ∀ c,
  Forall (modest mc) acts → staffed mc c → staffed mc (execs acts c).
Proof.
  induction acts as [|a acts IH]; intros c Hall H; [done|].
  apply Forall_cons in Hall as [Ha Hall].
  apply (IH (exec a c)); [done|]. by apply staffed_exec.
Qed.

(** When the pool is started with no more workers than [max_concurrent] (as
    [start()] does by default) and is not stopped, the limit holds under
    every interleaving: there are never more than [max_concurrent] worker
    threads, [RUNNING] jobs or entries of [running_jobs]. *)
Theorem limit_holds_with_few_workers (mc : Z) (rf : bool) (mr : Z)
    (acts : list action) :
  Forall (modest mc) acts →
  let c := execs acts (fresh_pool mc rf mr) in
  length (threads c) ≤ Z.to_nat mc
  ∧ Stats.running (get_statistics (mgr c)) ≤ Z.to_nat mc
  ∧ length (running_jobs (mgr c)) ≤ Z.to_nat mc.
Proof.
  intros Hall c.
  assert (accounted c) as Hacc.
  { apply accounted_execs. split; [done|]. intros j job Hj. done. }
  destruct (accounted_bound c Hacc) as [H1 H2].
  assert (staffed mc c) as [_ Hth].
  { apply staffed_execs; [done|]. split; [done|]. by left. }
  assert (length (threads c) ≤ Z.to_nat mc) as Hlen.
  { destruct Hth as [->|[_ ?]]; [simpl; lia|done]. }
  split; [done|]. split; lia.
Qed.

Lemma limit_holds_with_few_workers_witness :
  let c := execs limit_race (fresh_pool 2 true 3) in
  Forall (modest 2) limit_race
  ∧ threads c = [PStarted "a"; PStarted "b"]
  ∧ Stats.running (get_statistics (mgr c)) ≤ Z.to_nat 2.
Proof.
  intros c.
  assert (Forall (modest 2) limit_race) as H.
  { unfold limit_race, work. simpl.
    repeat (apply Forall_cons; split; [by (simpl; try lia)|]). constructor. }
  destruct (limit_holds_with_few_workers 2%Z true 3%Z limit_race H) as (_ & Hr & _).
  split; [exact H|]. split; [vm_compute; reflexivity|]. exact Hr.
Defined.

(** ** Stopped and paused pools *)

Lemma exec_idle a c :
  (∀ i now resp p, a = Work i now resp → threads c !! i = Some p →
                   (thread_step p now resp (mgr c)).1 = mgr c) →
  submitted (mgr (exec a c)) = submitted (mgr c)
  ∧ running_jobs (mgr (exec a c)) = running_jobs (mgr c)
  ∧ job_queue (mgr c) `prefix_of` job_queue (mgr (exec a c)).
Proof.
  intros Hwork.
  destruct a as [j wf md now|j|ev cb|n| | | |i now resp|k interrupt];
    [| | | | | | | |
     by destruct (exec_step_frame k interrupt c) as (_ & -> & -> & -> & _)];
    simpl.
  - destruct (add_job_config j wf md now (mgr c)) as (_ & _ & _ & _ & _ & _ & -> & ->).
    split; [done|]. split; [done|]. unfold run. rewrite add_job_run.
    destruct (jobs (mgr c) !! j); simpl; [done|]. by apply prefix_app_r.
  - done.
  - by destruct (on_config ev cb (mgr c)) as (_ & -> & _ & _ & _ & _ & _ & -> & ->).
  - unfold start. by destruct (running (mgr c)).
  - done.
  - done.
  - done.
  - destruct (threads c !! i) as [p|] eqn:Hi; [|done].
    pose proof (Hwork i now resp p eq_refl Hi) as H.
    destruct (thread_step p now resp (mgr c)) as [s' p']. simpl in *. by subst.
Qed.

Lemma thread_step_stopped p now resp s :
  running s = false → between_jobs p →
  (thread_step p now resp s).1 = s
  ∧ between_jobs (thread_step p now resp s).2
  ∧ steps_to_exit (thread_step p now resp s).2 = pred (steps_to_exit p).
Proof.
  unfold between_jobs. intros Hr [->|[->|[->|[->| ->]]]]; simpl; rewrite ?Hr;
    rewrite ?andb_false_r; simpl; split_and!; auto 6.
Qed.

Lemma thread_step_paused p now resp s :
  paused s = true → running s = true → before_pause p →
  (thread_step p now resp s).1 = s ∧ before_pause (thread_step p now resp s).2.
Proof.
  unfold before_pause. intros Hp Hr [->|[->| ->]]; simpl; rewrite ?Hp, ?Hr;
    simpl; split; auto.
Qed.

Lemma Forall_insert_pc (P : pc → Prop) (ths : list pc) i p :
  Forall P ths → P p → Forall P (<[i:=p]> ths).
Proof. intros. by apply Forall_insert. Qed.

Lemma stopped_exec a c :
  no_start a → stopped c →
  stopped (exec a c)
  ∧ length (threads (exec a c)) = length (threads c)
  ∧ (∀ i now resp p, a = Work i now resp → threads c !! i = Some p →
                     (thread_step p now resp (mgr c)).1 = mgr c).
Proof.
  intros Ha [Hr Hth]. split_and!.
  - destruct a as [j wf md now|j|ev cb|n| | | |i now resp|k interrupt];
      [| | | | | | | |
       destruct (exec_step_frame k interrupt c)
         as (Hths & _ & _ & _ & _ & Hrun & _);
       split; [by rewrite Hrun|by rewrite Hths]];
      simpl; try done.
    + destruct (add_job_config j wf md now (mgr c)) as (_ & H & _).
      split; simpl; [by rewrite H|done].
    + destruct (on_config ev cb (mgr c)) as (_ & _ & H & _).
      split; simpl; [by rewrite H|done].
    + destruct (threads c !! i) as [p|] eqn:Hi; [|by split].
      assert (between_jobs p) as Hp.
      { eapply Forall_lookup_1; [exact Hth|exact Hi]. }
      destruct (thread_step_stopped p now resp (mgr c) Hr Hp) as (Hs & Hp' & _).
      destruct (thread_step p now resp (mgr c)) as [s' p']. simpl in *. subst s'.
      split; simpl; [done|]. by apply Forall_insert_pc.
  - destruct a as [j wf md now|j|ev cb|n| | | |i now resp|k interrupt];
      [| | | | | | | |
       by destruct (exec_step_frame k interrupt c) as (-> & _)];
      simpl; try done.
    destruct (threads c !! i) as [p|]; [|done].
    destruct (thread_step p now resp (mgr c)) as [s' p']. simpl.
    by rewrite length_insert.
  - intros i now resp p -> Hi.
    assert (between_jobs p) as Hp.
    { eapply Forall_lookup_1; [exact Hth|exact Hi]. }
    by destruct (thread_step_stopped p now resp (mgr c) Hr Hp) as (Hs & _).
Qed.

Lemma stopped_execs acts : ∀ c,
  Forall no_start acts → stopped c →
  stopped (execs acts c)
  ∧ submitted (mgr (execs acts c)) = submitted (mgr c)
  ∧ running_jobs (mgr (execs acts c)) = running_jobs (mgr c)
  ∧ job_queue (mgr c) `prefix_of` job_queue (mgr (execs acts c))
  ∧ ∀ i p, threads c !! i = Some p → steps_to_exit p ≤ steps_of i acts →
           threads (execs acts c) !! i = Some WExit.
Proof.
  induction acts as [|a acts IH]; intros c Hall Hc.
  - simpl. split_and!; try done. intros i p Hi Hle.
    unfold steps_of in Hle. simpl in Hle.
    destruct Hc as [_ Hth].
    assert (between_jobs p) as Hp by (eapply Forall_lookup_1; eauto).
    destruct Hp as [->|[->|[->|[->| ->]]]]; simpl in Hle; try lia. done.
  - apply Forall_cons in Hall as [Ha Hall].
    destruct (stopped_exec a c Ha Hc) as (Hc1 & Hlen & Hsame).
    destruct (exec_idle a c Hsame) as (Hs1 & Hr1 & Hq1).
    destruct (IH (exec a c) Hall Hc1) as (Hc2 & Hs2 & Hr2 & Hq2 & Hexit).
    change (execs (a :: acts) c) with (execs acts (exec a c)).
    split_and!; try done; try congruence.
    + by etrans.
    + intros i p Hi Hle. destruct Hc as [Hr Hth].
      assert (between_jobs p) as Hp by (eapply Forall_lookup_1; eauto).
      unfold steps_of in Hle. rewrite filter_cons in Hle.
      destruct (decide (step_of i a = true)) as [Hstep|Hstep].
      * destruct a as [| | | | | | |i' now resp|]; simpl in Hstep; try done.
        apply bool_decide_eq_true in Hstep as ->. simpl in Hle.
        destruct (thread_step_stopped p now resp (mgr c) Hr Hp) as (_ & _ & Hrank).
        apply (Hexit i (thread_step p now resp (mgr c)).2).
        -- simpl. rewrite Hi.
           destruct (thread_step p now resp (mgr c)) as [s' p']. simpl.
           apply list_lookup_insert_eq. by eapply lookup_lt_Some.
        -- rewrite Hrank. unfold steps_of. lia.
      * apply (Hexit i p); [|done].
        destruct a as [j wf md now|j|ev cb|n| | | |i' now resp|k interrupt];
          [| | | | | | | |
           by destruct (exec_step_frame k interrupt c) as (-> & _)];
          simpl; try done.
        destruct (threads c !! i') as [q|] eqn:Hi'; [|done].
        destruct (thread_step q now resp (mgr c)) as [s' q']. simpl.
        rewrite list_lookup_insert_ne; [done|]. intros ->. apply Hstep. simpl.
        by apply bool_decide_eq_true.
Qed.

(** Once the pool is stopped and its threads are between two jobs, nothing
    is processed until it is started again: whatever is added, cancelled or
    scheduled, no thread takes an id from the queue, nothing is handed to
    the client, the queue only grows, and a thread that takes three steps
    has left its loop. *)
Theorem stopped_pool_is_idle (c : Pool) (acts : list action) :
  running (mgr c) = false →
  Forall between_jobs (threads c) →
  Forall no_start acts →
  let c' := execs acts c in
  running (mgr c') = false
  ∧ Forall between_jobs (threads c')
  ∧ submitted (mgr c') = submitted (mgr c)
  ∧ running_jobs (mgr c') = running_jobs (mgr c)
  ∧ job_queue (mgr c) `prefix_of` job_queue (mgr c')
  ∧ ∀ i, i < length (threads c) → 3 ≤ steps_of i acts →
         threads c' !! i = Some WExit.
Proof.
  intros Hr Hth Hall c'.
  destruct (stopped_execs acts c Hall (conj Hr Hth))
    as ([Hr' Hth'] & Hs & Hrj & Hq & Hexit).
  split_and!; try done. intros i Hi Hsteps.
  destruct (lookup_lt_is_Some_2 _ _ Hi) as [p Hp].
  apply (Hexit i p Hp).
  assert (between_jobs p) as Hb by (eapply Forall_lookup_1; [exact Hth|exact Hp]).
  destruct Hb as [->|[->|[->|[->| ->]]]]; simpl; lia.
Qed.

Lemma stopped_pool_is_idle_witness :
  submitted (mgr (execs after_stop stopped_early)) = submitted (mgr stopped_early)
  ∧ threads (execs after_stop stopped_early) !! 0 = Some WExit.
Proof.
  assert (running (mgr stopped_early) = false) as Hr by (vm_compute; reflexivity).
  assert (Forall between_jobs (threads stopped_early)) as Hth.
  { replace (threads stopped_early) with [WPaused] by (vm_compute; reflexivity).
    constructor; [|constructor]. right. by left. }
  assert (Forall no_start after_stop) as Hall.
  { unfold after_stop, work. simpl. repeat constructor. }
  pose proof (stopped_pool_is_idle stopped_early after_stop Hr Hth Hall) as H.
  cbv zeta in H. destruct H as (_ & _ & Hs & _ & _ & Hexit).
  split; [exact Hs|]. apply Hexit; vm_compute; lia.
Defined.

Lemma held_back_exec a c :
  no_resume a → held_back c →
  held_back (exec a c)
  ∧ (∀ i now resp p, a = Work i now resp → threads c !! i = Some p →
                     (thread_step p now resp (mgr c)).1 = mgr c).
Proof.
  intros Ha (Hp & Hr & Hth). split.
  - destruct a as [j wf md now|j|ev cb|n| | | |i now resp|k interrupt];
      [| | | | | | | |
       destruct (exec_step_frame k interrupt c)
         as (Hths & _ & _ & _ & _ & Hrun & Hpau & _);
       split_and!; [by rewrite Hpau|by rewrite Hrun|by rewrite Hths]];
      simpl; try done.
    + destruct (add_job_config j wf md now (mgr c)) as (_ & H1 & H2 & _).
      split_and!; simpl; [by rewrite H2|by rewrite H1|done].
    + destruct (on_config ev cb (mgr c)) as (_ & _ & H1 & H2 & _).
      split_and!; simpl; [by rewrite H2|by rewrite H1|done].
    + unfold start. by rewrite Hr.
    + destruct (threads c !! i) as [p|] eqn:Hi; [|done].
      assert (before_pause p) as Hb.
      { eapply Forall_lookup_1; [exact Hth|exact Hi]. }
      destruct (thread_step_paused p now resp (mgr c) Hp Hr Hb) as (Hs & Hb').
      destruct (thread_step p now resp (mgr c)) as [s' p']. simpl in *. subst s'.
      split_and!; simpl; [done|done|]. by apply Forall_insert_pc.
  - intros i now resp p -> Hi.
    assert (before_pause p) as Hb.
    { eapply Forall_lookup_1; [exact Hth|exact Hi]. }
    by destruct (thread_step_paused p now resp (mgr c) Hp Hr Hb) as (Hs & _).
Qed.

Lemma held_back_execs acts : ∀ c,
  Forall no_resume acts → held_back c →
  held_back (execs acts c)
  ∧ submitted (mgr (execs acts c)) = submitted (mgr c)
  ∧ running_jobs (mgr (execs acts c)) = running_jobs (mgr c)
  ∧ job_queue (mgr c) `prefix_of` job_queue (mgr (execs acts c)).
Proof.
  induction acts as [|a acts IH]; intros c Hall Hc.
  - simpl. by split_and!.
  - apply Forall_cons in Hall as [Ha Hall].
    destruct (held_back_exec a c Ha Hc) as (Hc1 & Hsame).
    destruct (exec_idle a c Hsame) as (Hs1 & Hr1 & Hq1).
    destruct (IH (exec a c) Hall Hc1) as (Hc2 & Hs2 & Hr2 & Hq2).
    change (execs (a :: acts) c) with (execs acts (exec a c)).
    split_and!; try done; try congruence. by etrans.
Qed.

(** While the pool is paused and running, threads that have not passed the
    test of line 234 take no job: until [resume] or [stop] is called, nothing
    is handed to the client, [running_jobs] does not change and the queue
    only grows, whatever is added, cancelled or scheduled. *)
Theorem paused_pool_is_idle (c : Pool) (acts : list action) :
  paused (mgr c) = true →
  running (mgr c) = true →
  Forall before_pause (threads c) →
  Forall no_resume acts →
  let c' := execs acts c in
  paused (mgr c') = true
  ∧ running (mgr c') = true
  ∧ Forall before_pause (threads c')
  ∧ submitted (mgr c') = submitted (mgr c)
  ∧ running_jobs (mgr c') = running_jobs (mgr c)
  ∧ job_queue (mgr c) `prefix_of` job_queue (mgr c').
Proof.
  intros Hp Hr Hth Hall c'.
  destruct (held_back_execs acts c Hall (conj Hp (conj Hr Hth)))
    as ((Hp' & Hr' & Hth') & Hs & Hrj & Hq).
  by split_and!.
Qed.

Lemma paused_pool_is_idle_witness :
  submitted (mgr (execs after_pause paused_early)) = submitted (mgr paused_early)
  ∧ job_queue (mgr paused_early) `prefix_of` job_queue (mgr (execs after_pause paused_early)).
Proof.
  assert (paused (mgr paused_early) = true) as Hp by (vm_compute; reflexivity).
  assert (running (mgr paused_early) = true) as Hr by (vm_compute; reflexivity).
  assert (Forall before_pause (threads paused_early)) as Hth.
  { replace (threads paused_early) with [WLoop] by (vm_compute; reflexivity).
    constructor; [|constructor]. by left. }
  assert (Forall no_resume after_pause) as Hall.
  { unfold after_pause, work. simpl. repeat constructor. }
  pose proof (paused_pool_is_idle paused_early after_pause Hp Hr Hth Hall) as H.
  cbv zeta in H. destruct H as (_ & _ & _ & Hs & _ & Hq).
  split; [exact Hs|exact Hq].
Defined.

(** ** Completed and failed jobs *)






(** The write of line 169 comes after the worker's: the call of [cancel_job]
    has seen the job [RUNNING], the worker stores the result and marks the
    job [COMPLETED], and the call then marks it [CANCELLED]. *)
Lemma completed_then_cancelled :
  let c := execs completing_before_write (fresh_pool 1 true 3) in
  ∃ job, jobs (mgr c) !! "x"%string = Some job
         ∧ status job = COMPLETED
         ∧ callers c = [CWrite "x"]
         ∧ jobs (mgr (exec (Step 0 None) c)) !! "x"%string
           = Some (set_status CANCELLED job).
Proof. eexists. split_and!; vm_compute; reflexivity. Qed.

(** ** The retry budget under every schedule *)

















(** ** The events of one run of [_process_job] *)

Lemma fired_callbacks ev x s s' :
  callbacks s' = callbacks s → fired ev x s' = fired ev x s.
Proof. unfold fired. by intros ->. Qed.

Lemma announced_fired ev j s job :
  jobs s !! j = Some job → announced ev j s = fired ev (Some job) s.
Proof. unfold announced. by intros ->. Qed.

(** The events of one run of [_process_job] on a job of the store. The
    listeners of [job_started] are called first, with the job as it is after
    lines 187-188. Then, if the dispatch succeeded, the listeners of
    [job_completed] are called with the finished job; if it failed for good,
    those of [job_failed]; and if the job is retried, no listener is called:
    a failure that is retried is not announced. No other listener is
    called. *)
Theorem process_job_events (j : string) (a : Attempt) (s : QueueManager)
    (job : Job) :
  get_job j s = Some job →
  ∃ job',
    get_job j (run (_process_job j a) s) = Some job'
    ∧ calls (run (_process_job j a) s)
      = calls s ++ fired "job_started" (Some (started (a_started a) job)) s
        ++ (if attempt_fails a
            then if retries s job then []
                 else fired "job_failed" (Some job') s
            else fired "job_completed" (Some job') s).
Proof.
  unfold get_job, run. intros Hj. rewrite (_process_job_run _ _ _ _ Hj). cbv zeta.
  assert (∀ s0 f e,
    jobs s0 = alter f j (jobs s) → (∀ x, retry_count (f x) = retry_count x) →
    callbacks s0 = callbacks s →
    retry_on_failure s0 = retry_on_failure s → max_retries s0 = max_retries s →
    ∃ job',
      jobs (except_tail j e (a_finished a) s0).1 !! j = Some job'
      ∧ calls (except_tail j e (a_finished a) s0).1
        = calls s0 ++ (if retries s job then []
                       else fired "job_failed" (Some job') s)) as Htail.
  { intros s0 f e Hjobs Hf Hcb Hrf Hmr.
    assert (jobs s0 !! j = Some (f job)) as Hj0.
    { by rewrite Hjobs, lookup_alter_eq, Hj. }
    assert (retries s0 (f job) = retries s job) as Hr.
    { unfold retries. by rewrite Hf, Hrf, Hmr. }
    rewrite (except_tail_run _ _ _ _ _ Hj0). cbv zeta. rewrite Hr.
    exists (failed s0 e (a_finished a) (f job)).
    destruct (retries s job); simpl.
    - split; [by rewrite lookup_alter_eq, Hj0|]. by rewrite app_nil_r.
    - split; [by rewrite lookup_alter_eq, Hj0|].
      rewrite (announced_fired _ _ _ (failed s0 e (a_finished a) (f job)))
        by (simpl; by rewrite lookup_alter_eq, Hj0).
      f_equal. by apply fired_callbacks. }
  assert (announced "job_started" j
            (set_running_jobs (running_jobs s ++ [j])
               (set_jobs (alter (started (a_started a)) j (jobs s)) s))
          = fired "job_started" (Some (started (a_started a) job)) s) as Hst.
  { rewrite (announced_fired _ _ _ (started (a_started a) job))
      by (simpl; by rewrite lookup_alter_eq, Hj).
    by apply fired_callbacks. }
  destruct (attempt_fails a) eqn:Hfail; unfold attempt_fails in Hfail.
  - destruct (a_submit a) as [e|r].
    + destruct (Htail (set_submitted (submitted s ++ [j]) (entered j (a_started a) s))
                  (started (a_started a)) e) as (job' & Hj' & Hc); try done.
      exists job'. split; [done|]. rewrite Hc. simpl. rewrite Hst.
      by rewrite <- app_assoc.
    + destruct (truthy (r !! "prompt_id"%string)); simpl in Hfail.
      * destruct (a_await a) as [e|h]; [|done].
        match goal with |- context [except_tail j ?e0 _ ?s0] =>
          destruct (Htail s0 (λ x, set_prompt_id (r !! "prompt_id"%string)
                                     (started (a_started a) x)) e0)
            as (job' & Hj' & Hc) end; try done.
        { simpl. by rewrite alter_twice. }
        exists job'. split; [exact Hj'|].
        rewrite Hc. simpl. rewrite Hst. by rewrite <- app_assoc.
      * match goal with |- context [except_tail j ?e0 _ ?s0] =>
          destruct (Htail s0 (λ x, set_prompt_id (r !! "prompt_id"%string)
                                     (started (a_started a) x)) e0)
            as (job' & Hj' & Hc) end; try done.
        { simpl. by rewrite alter_twice. }
        exists job'. split; [exact Hj'|].
        rewrite Hc. simpl. rewrite Hst. by rewrite <- app_assoc.
  - destruct (a_submit a) as [e|r]; [done|].
    destruct (truthy (r !! "prompt_id"%string)); [|done]. simpl in Hfail.
    destruct (a_await a) as [e|h]; [done|].
    rewrite release_slot_run. eexists. simpl. rewrite !alter_twice.
    split; [by rewrite lookup_alter_eq, Hj|].
    rewrite Hst. rewrite <- app_assoc. f_equal. f_equal.
    erewrite announced_fired; [by apply fired_callbacks|].
    simpl. rewrite ?alter_twice. by rewrite lookup_alter_eq, Hj.
Qed.

Lemma process_job_events_witness :
  ∃ job', get_job "x" (run (_process_job "x" good_attempt) watched) = Some job'
          ∧ calls (run (_process_job "x" good_attempt) watched)
            = [mkCall "job_completed" "quiet" (Some job')].
Proof.
  assert (get_job "x" watched = Some (new_job "x" ∅ None 0)) as Hj
    by (vm_compute; reflexivity).
  destruct (process_job_events "x" good_attempt watched _ Hj) as (job' & Hj' & Hc).
  exists job'. split; [exact Hj'|]. rewrite Hc. reflexivity.
Defined.

